(** * Asynchronous executor: ready queue, reactor, executor and future combinators

    A shallow embedding of [src/src/executor.c], [src/src/mio.c] and
    [src/pw459596/src/future_combinators.c], followed by the properties
    established about them. *)

From stdpp Require Import base option list list_numbers gmap.
From Stdlib Require Import ZArith Lia.

Local Open Scope Z_scope.

(** ** Outcomes of running C code

    A C call either returns, or stops: by undefined behaviour (signed
    overflow, an access outside an object, a read of an indeterminate cell,
    a division by zero), by [exit(1)], by blocking for ever in the kernel, or
    because the fuel given to a loop of the model ran out. *)

Inductive Halt : Type :=
| Undefined
| Exited
| Blocked
| OutOfFuel.

Inductive Res (A : Type) : Type :=
| Ok (a : A)
| Stop (h : Halt).

Arguments Ok {A} a.
Arguments Stop {A} h.

Definition res_bind {A B : Type} (f : A → Res B) (m : Res A) : Res B :=
  match m with
  | Ok a => f a
  | Stop h => Stop h
  end.

#[global] Instance Res_ret : MRet Res := @Ok.
#[global] Instance Res_bind : MBind Res := @res_bind.

(** ** Machine integers *)

Definition INT_MAX : Z := 2 ^ 31 - 1.
Definition INT_MIN : Z := - 2 ^ 31.
Definition SIZE_WIDTH : Z := 2 ^ 64.

(** [int + int]: overflow of a signed addition is undefined. *)
Definition int_add (a b : Z) : Res Z :=
  if (INT_MIN <=? a + b) && (a + b <=? INT_MAX) then Ok (a + b) else Stop Undefined.

(** [int - int], likewise. *)
Definition int_sub (a b : Z) : Res Z :=
  if (INT_MIN <=? a - b) && (a - b <=? INT_MAX) then Ok (a - b) else Stop Undefined.

(** Conversion to [size_t]: reduction modulo 2^64. *)
Definition to_size_t (x : Z) : Z := x mod SIZE_WIDTH.

(** Conversion of a [size_t] to [int]: modulo 2^32, read as two's complement. *)
Definition to_int (x : Z) : Z := (x + 2 ^ 31) mod 2 ^ 32 - 2 ^ 31.

(** [size_t % size_t]: a zero divisor is undefined. *)
Definition size_t_rem (a b : Z) : Res Z :=
  if b =? 0 then Stop Undefined else Ok (a mod b).

(** ** Addresses *)

Definition addr : Type := Z.
Definition NULL : addr := 0.

(** ** The ready queue ([struct FutQue], executor.c) *)

Module FutQue.
Record t : Type := mk {
  futs : gmap Z addr;   (* the malloc'ed array: absent cells are indeterminate *)
  size : Z;             (* size_t *)
  max_size : Z;         (* size_t *)
  front : Z;            (* int *)
  back : Z              (* int *)
}.

Definition set_futs (v : gmap Z addr) (q : t) : t :=
  mk v (size q) (max_size q) (front q) (back q).
Definition set_size (v : Z) (q : t) : t :=
  mk (futs q) v (max_size q) (front q) (back q).
Definition set_front (v : Z) (q : t) : t :=
  mk (futs q) (size q) (max_size q) v (back q).
Definition set_back (v : Z) (q : t) : t :=
  mk (futs q) (size q) (max_size q) (front q) v.
End FutQue.

Definition futque_create (max_size : Z) : FutQue.t :=
  FutQue.mk ∅ 0 max_size 0 (-1).

Definition isEmpty (que : FutQue.t) : bool :=
  FutQue.size que =? 0.

(** [que->futs[i] = fut] and [que->futs[i]]: the index must lie inside the
    array of [max_size] cells, and a cell is read only after it was written. *)
Definition futs_store (que : FutQue.t) (i : Z) (fut : addr) : Res FutQue.t :=
  if (0 <=? i) && (i <? FutQue.max_size que)
  then Ok (FutQue.set_futs (<[i := fut]> (FutQue.futs que)) que)
  else Stop Undefined.

Definition futs_load (que : FutQue.t) (i : Z) : Res addr :=
  if (0 <=? i) && (i <? FutQue.max_size que)
  then match FutQue.futs que !! i with
       | Some fut => Ok fut
       | None => Stop Undefined
       end
  else Stop Undefined.

(** [(i + 1) % que->max_size], stored back into an [int]. *)
Definition next_index (que : FutQue.t) (i : Z) : Res Z :=
  s ← int_add i 1;
  r ← size_t_rem (to_size_t s) (FutQue.max_size que);
  mret (to_int r).

Definition push (que : FutQue.t) (fut : addr) : Res FutQue.t :=
  if FutQue.size que =? FutQue.max_size que then Ok que
  else
    b ← next_index que (FutQue.back que);
    que1 ← futs_store (FutQue.set_back b que) b fut;
    mret (FutQue.set_size (to_size_t (FutQue.size que1 + 1)) que1).

Definition pop (que : FutQue.t) : Res (addr * FutQue.t) :=
  if isEmpty que then Ok (NULL, que)
  else
    fut ← futs_load que (FutQue.front que);
    f ← next_index que (FutQue.front que);
    let que1 := FutQue.set_front f que in
    mret (fut, FutQue.set_size (to_size_t (FutQue.size que1 - 1)) que1).

(** The futures held by the queue, oldest first. *)
Definition que_contents (que : FutQue.t) : list addr :=
  (λ i, default NULL (FutQue.futs que !! ((FutQue.front que + i) mod FutQue.max_size que)))
    <$> seqZ 0 (FutQue.size que).

(** A bounded FIFO as the specification words it: a list that [push]
    extends at the tail unless it already holds [cap] elements and that [pop]
    shortens at the head. *)
Inductive QueOp : Type :=
| OpPush (fut : addr)
| OpPop.

Definition fifo_push (cap : Z) (l : list addr) (fut : addr) : list addr :=
  if Z.of_nat (length l) =? cap then l else l ++ [fut].

Definition fifo_pop (l : list addr) : addr * list addr :=
  match l with
  | [] => (NULL, [])
  | fut :: l' => (fut, l')
  end.

(** Runs the operations on the abstract FIFO; the results of the pops are
    collected in order. *)
Fixpoint fifo_run (cap : Z) (ops : list QueOp) (l : list addr) : list addr * list addr :=
  match ops with
  | [] => ([], l)
  | OpPush fut :: ops' => fifo_run cap ops' (fifo_push cap l fut)
  | OpPop :: ops' =>
      let '(fut, l') := fifo_pop l in
      let '(outs, lf) := fifo_run cap ops' l' in
      (fut :: outs, lf)
  end.

(** The same operations on the circular buffer of the source. *)
Fixpoint que_run (ops : list QueOp) (que : FutQue.t) : Res (list addr * FutQue.t) :=
  match ops with
  | [] => Ok ([], que)
  | OpPush fut :: ops' => que1 ← push que fut; que_run ops' que1
  | OpPop :: ops' =>
      '(fut, que1) ← pop que;
      '(outs, quef) ← que_run ops' que1;
      mret (fut :: outs, quef)
  end.

(** Representation invariant of the circular buffer: [que] holds exactly the
    list [l], oldest first, and all its indices are in the range where the C
    arithmetic is defined. *)
Definition que_repr (que : FutQue.t) (l : list addr) : Prop :=
  FutQue.size que = Z.of_nat (length l) ∧
  FutQue.size que ≤ FutQue.max_size que ∧
  FutQue.max_size que ≤ INT_MAX ∧
  0 ≤ FutQue.front que ∧
  -1 ≤ FutQue.back que ∧
  (0 < FutQue.max_size que →
     FutQue.front que < FutQue.max_size que ∧
     FutQue.back que < FutQue.max_size que ∧
     (FutQue.back que + 1) mod FutQue.max_size que
       = (FutQue.front que + FutQue.size que) mod FutQue.max_size que) ∧
  ∀ (i : nat) (fut : addr), l !! i = Some fut →
     FutQue.futs que !! ((FutQue.front que + Z.of_nat i) mod FutQue.max_size que) = Some fut.

(** ** Futures ([future.h], used by all three source files)

    Modelled from the spec: the declarations of [future.h],
    [future_combinators.h], [waker.h] and [mio.h] are not in src/. The
    members of the structures are those the source reads and writes; the
    enumerations are taken to have distinct values; FUTURE_SUCCESS is 0 as in
    section 6 of the specification; the error codes of the combinators,
    whose values the specification leaves open, are parameters. *)

Inductive FutureState : Type :=
| FUTURE_PENDING
| FUTURE_COMPLETED
| FUTURE_FAILURE.

#[global] Instance FutureState_eq_dec : EqDecision FutureState.
Proof. solve_decision. Defined.

(** The values a [progress] member can hold: the three progress functions of
    future_combinators.c, or the code of a leaf future. *)
Inductive ProgressFn : Type :=
| then_progress_fn
| join_progress_fn
| select_progress_fn
| leaf_progress_fn (code : Z).

Definition FUTURE_SUCCESS : Z := 0.

Class ErrCodes : Type := {
  THEN_FUTURE_ERR_FUT1_FAILED : Z;
  THEN_FUTURE_ERR_FUT2_FAILED : Z;
  JOIN_FUTURE_ERR_FUT1_FAILED : Z;
  JOIN_FUTURE_ERR_FUT2_FAILED : Z;
  JOIN_FUTURE_ERR_BOTH_FUTS_FAILED : Z
}.

Module Future.
Record t : Type := mk {
  progress : ProgressFn;
  is_active : bool;
  arg : addr;
  ok : addr;
  errcode : Z
}.

Definition set_progress (v : ProgressFn) (f : t) : t :=
  mk v (is_active f) (arg f) (ok f) (errcode f).
Definition set_is_active (v : bool) (f : t) : t :=
  mk (progress f) v (arg f) (ok f) (errcode f).
Definition set_arg (v : addr) (f : t) : t :=
  mk (progress f) (is_active f) v (ok f) (errcode f).
Definition set_ok (v : addr) (f : t) : t :=
  mk (progress f) (is_active f) (arg f) v (errcode f).
Definition set_errcode (v : Z) (f : t) : t :=
  mk (progress f) (is_active f) (arg f) (ok f) v.
End Future.

Module Waker.
(** The [executor] member always names the one executor of the world and
    is not represented. *)
Record t : Type := mk { future : addr }.
End Waker.

Module ThenFuture.
Record t : Type := mk {
  base : Future.t;
  fut1 : addr;
  fut2 : addr;
  fut1_completed : bool
}.

Definition set_base (v : Future.t) (s : t) : t :=
  mk v (fut1 s) (fut2 s) (fut1_completed s).
Definition set_fut1_completed (v : bool) (s : t) : t :=
  mk (base s) (fut1 s) (fut2 s) v.
End ThenFuture.

Module JoinFuture.
(** One member of [result]: what a child left when it finished. *)
Record res : Type := mk_res { ok : addr; errcode : Z }.

Record t : Type := mk {
  base : Future.t;
  fut1 : addr;
  fut2 : addr;
  fut1_completed : FutureState;
  fut2_completed : FutureState;
  result_fut1 : res;
  result_fut2 : res
}.

Definition set_base (v : Future.t) (s : t) : t :=
  mk v (fut1 s) (fut2 s) (fut1_completed s) (fut2_completed s)
     (result_fut1 s) (result_fut2 s).
Definition set_fut1_completed (v : FutureState) (s : t) : t :=
  mk (base s) (fut1 s) (fut2 s) v (fut2_completed s)
     (result_fut1 s) (result_fut2 s).
Definition set_fut2_completed (v : FutureState) (s : t) : t :=
  mk (base s) (fut1 s) (fut2 s) (fut1_completed s) v
     (result_fut1 s) (result_fut2 s).
Definition set_result_fut1 (v : res) (s : t) : t :=
  mk (base s) (fut1 s) (fut2 s) (fut1_completed s) (fut2_completed s)
     v (result_fut2 s).
Definition set_result_fut2 (v : res) (s : t) : t :=
  mk (base s) (fut1 s) (fut2 s) (fut1_completed s) (fut2_completed s)
     (result_fut1 s) v.
End JoinFuture.

Inductive SelectTag : Type :=
| SELECT_COMPLETED_NONE
| SELECT_COMPLETED_FUT1
| SELECT_COMPLETED_FUT2
| SELECT_FAILED_FUT1
| SELECT_FAILED_FUT2
| SELECT_FAILED_BOTH.

#[global] Instance SelectTag_eq_dec : EqDecision SelectTag.
Proof. solve_decision. Defined.

Module SelectFuture.
Record t : Type := mk {
  base : Future.t;
  fut1 : addr;
  fut2 : addr;
  which_completed : SelectTag
}.

Definition set_base (v : Future.t) (s : t) : t :=
  mk v (fut1 s) (fut2 s) (which_completed s).
Definition set_which_completed (v : SelectTag) (s : t) : t :=
  mk (base s) (fut1 s) (fut2 s) v.
End SelectFuture.

(** ** Memory: the futures the caller owns

    Every future is an object at an address; the first member of a
    combinator is its [Future], so the address of the object is also the
    address of its base. A leaf future carries one word of private state. *)

Inductive Obj : Type :=
| LeafObj (base : Future.t) (priv : Z)
| ThenObj (s : ThenFuture.t)
| JoinObj (s : JoinFuture.t)
| SelectObj (s : SelectFuture.t).

Definition obj_base (o : Obj) : Future.t :=
  match o with
  | LeafObj b _ => b
  | ThenObj s => ThenFuture.base s
  | JoinObj s => JoinFuture.base s
  | SelectObj s => SelectFuture.base s
  end.

Definition obj_set_base (b : Future.t) (o : Obj) : Obj :=
  match o with
  | LeafObj _ p => LeafObj b p
  | ThenObj s => ThenObj (ThenFuture.set_base b s)
  | JoinObj s => JoinObj (JoinFuture.set_base b s)
  | SelectObj s => SelectObj (SelectFuture.set_base b s)
  end.

(** ** The reactor ([struct Mio], mio.c) and the executor *)

Definition MAX_EVENTS : Z := 64.

Module Mio.
(** The [executor] member points back to the executor that owns the
    reactor; the [events] array is the buffer [epoll_wait] fills. *)
Record t : Type := mk {
  epoll_fd : Z;
  registered_count : Z   (* int *)
}.

Definition set_registered_count (v : Z) (m : t) : t := mk (epoll_fd m) v.
End Mio.

Module Executor.
Record t : Type := mk {
  mio : Mio.t;
  que : FutQue.t
}.

Definition set_mio (v : Mio.t) (e : t) : t := mk v (que e).
Definition set_que (v : FutQue.t) (e : t) : t := mk (mio e) v.
End Executor.

(** What [epoll_wait] with an infinite timeout does: fail with -1, never
    return, or fill the buffer with the [data.ptr] of the events that fired
    and return their number. *)
Inductive WaitResult : Type :=
| WaitError
| WaitBlocks
| WaitEvents (ptrs : list addr).

(** The kernel is outside the program: its state is abstract and its calls
    are parameters. Each returns what the system call returns and the new
    kernel state. *)
Class Kernel (K : Type) : Type := {
  epoll_create1 : K → Z * K;
  epoll_ctl_add : Z → Z → Z → addr → K → Z * K;   (* epfd, fd, events, data.ptr *)
  epoll_ctl_del : Z → Z → K → Z * K;               (* epfd, fd *)
  epoll_wait : Z → Z → K → WaitResult * K          (* epfd, maxevents *)
}.

(** What the run of the executor leaves behind for an observer: every call of
    [executor_spawn], with whether the queue had room for the future, and
    every [progress] call made by the drive loop. *)
Inductive Event : Type :=
| EvSpawn (fut : addr) (queued : bool)
| EvProgress (fut : addr).

#[global] Instance Event_eq_dec : EqDecision Event.
Proof. solve_decision. Defined.

(** The two children of a combinator. *)
Inductive Child : Type :=
| Fut1
| Fut2.

#[global] Instance Child_eq_dec : EqDecision Child.
Proof. solve_decision. Defined.

(** ** The world and the monad of the model

    The world is the memory holding the caller's futures, the one executor
    with its queue and reactor, and the kernel. A computation takes a world
    and returns a value, the new world and a log, or stops. *)

Record World (K : Type) : Type := mkWorld {
  heap : gmap addr Obj;
  executor : Executor.t;
  kernel : K
}.

Arguments mkWorld {K} heap executor kernel.
Arguments heap {K} w.
Arguments executor {K} w.
Arguments kernel {K} w.

Definition set_heap {K} (v : gmap addr Obj) (w : World K) : World K :=
  mkWorld v (executor w) (kernel w).
Definition set_executor {K} (v : Executor.t) (w : World K) : World K :=
  mkWorld (heap w) v (kernel w).
Definition set_kernel {K} (v : K) (w : World K) : World K :=
  mkWorld (heap w) (executor w) v.

Definition M (K L A : Type) : Type := World K → Res (A * World K * list L).

#[global] Instance M_ret {K L} : MRet (M K L) := λ A a w, Ok (a, w, []).

#[global] Instance M_bind {K L} : MBind (M K L) := λ A B f m w,
  match m w with
  | Ok (a, w1, l1) =>
      match f a w1 with
      | Ok (b, w2, l2) => Ok (b, w2, l1 ++ l2)
      | Stop h => Stop h
      end
  | Stop h => Stop h
  end.

Definition stop {K L A} (h : Halt) : M K L A := λ _, Stop h.

Definition emit {K L} (e : L) : M K L unit := λ w, Ok (tt, w, [e]).

Definition lift_res {K L A} (r : Res A) : M K L A := λ w,
  match r with
  | Ok a => Ok (a, w, [])
  | Stop h => Stop h
  end.

Definition get_world {K L} : M K L (World K) := λ w, Ok (w, w, []).

Definition put_world {K L} (w' : World K) : M K L unit := λ _, Ok (tt, w', []).

(** Reads and writes through a [Future*]: the address must hold a future. *)
Definition load_obj {K L} (a : addr) : M K L Obj := λ w,
  match heap w !! a with
  | Some o => Ok (o, w, [])
  | None => Stop Undefined
  end.

Definition load_base {K L} (a : addr) : M K L Future.t :=
  o ← load_obj a; mret (obj_base o).

(** A write to members of the object at [a]: [f] gives the new contents. *)
Definition upd_obj {K} (a : addr) (f : Obj → Obj) (w : World K) : World K :=
  set_heap (alter f a (heap w)) w.

Definition on_base (f : Future.t → Future.t) (o : Obj) : Obj :=
  obj_set_base (f (obj_base o)) o.

Definition on_then (f : ThenFuture.t → ThenFuture.t) (o : Obj) : Obj :=
  match o with
  | ThenObj s => ThenObj (f s)
  | _ => o
  end.

Definition on_join (f : JoinFuture.t → JoinFuture.t) (o : Obj) : Obj :=
  match o with
  | JoinObj s => JoinObj (f s)
  | _ => o
  end.

Definition on_select (f : SelectFuture.t → SelectFuture.t) (o : Obj) : Obj :=
  match o with
  | SelectObj s => SelectObj (f s)
  | _ => o
  end.

Definition on_priv (v : Z) (o : Obj) : Obj :=
  match o with
  | LeafObj b _ => LeafObj b v
  | _ => o
  end.

Definition modify_base {K L} (a : addr) (f : Future.t → Future.t) : M K L unit :=
  load_obj a;; w ← get_world; put_world (upd_obj a (on_base f) w).

(** The casts [(ThenFuture* ) base], [(JoinFuture* ) base] and
    [(SelectFuture* ) base]: the object must be of that type. *)
Definition load_then {K L} (a : addr) : M K L ThenFuture.t :=
  o ← load_obj a;
  match o with
  | ThenObj s => mret s
  | _ => stop Undefined
  end.

Definition load_join {K L} (a : addr) : M K L JoinFuture.t :=
  o ← load_obj a;
  match o with
  | JoinObj s => mret s
  | _ => stop Undefined
  end.

Definition load_select {K L} (a : addr) : M K L SelectFuture.t :=
  o ← load_obj a;
  match o with
  | SelectObj s => mret s
  | _ => stop Undefined
  end.

Definition modify_then {K L} (a : addr) (f : ThenFuture.t → ThenFuture.t) : M K L unit :=
  load_then a;; w ← get_world; put_world (upd_obj a (on_then f) w).

Definition modify_join {K L} (a : addr) (f : JoinFuture.t → JoinFuture.t) : M K L unit :=
  load_join a;; w ← get_world; put_world (upd_obj a (on_join f) w).

Definition modify_select {K L} (a : addr) (f : SelectFuture.t → SelectFuture.t) : M K L unit :=
  load_select a;; w ← get_world; put_world (upd_obj a (on_select f) w).

(** What the memory holds at an address, read as a [Future], a
    [ThenFuture], a [JoinFuture] or a [SelectFuture]. *)
Definition base_at {K} (w : World K) (a : addr) : option Future.t :=
  obj_base <$> heap w !! a.

Definition then_at {K} (w : World K) (a : addr) : option ThenFuture.t :=
  match heap w !! a with
  | Some (ThenObj s) => Some s
  | _ => None
  end.

Definition join_at {K} (w : World K) (a : addr) : option JoinFuture.t :=
  match heap w !! a with
  | Some (JoinObj s) => Some s
  | _ => None
  end.

Definition select_at {K} (w : World K) (a : addr) : option SelectFuture.t :=
  match heap w !! a with
  | Some (SelectObj s) => Some s
  | _ => None
  end.

(** The members of an object other than those of its base [Future]. *)
Definition obj_shape (o : Obj) : Obj :=
  obj_set_base (Future.mk then_progress_fn false NULL NULL 0) o.

(** [keeps base w w']: going from [w] to [w'] freed no future and left the
    members of the combinator at [base], other than those of its base,
    as they were. This is what the [progress] of a child is expected to
    respect. *)
Definition keeps {K} (base : addr) (w w' : World K) : Prop :=
  (∀ a, is_Some (heap w !! a) → is_Some (heap w' !! a)) ∧
  obj_shape <$> heap w' !! base = obj_shape <$> heap w !! base.

(** One [progress] call a combinator makes on a child: which child, at which
    address, what it returned, and the events it caused. *)
Record Invocation : Type := mkInvocation {
  inv_child : Child;
  inv_fut : addr;
  inv_state : FutureState;
  inv_events : list Event
}.

(** [fut->progress(fut, mio, waker)] made by a combinator. The meaning of the
    call through the function pointer is the parameter [call]. *)
Definition invoke {K} (call : addr → Waker.t → M K Event FutureState)
    (c : Child) (fut : addr) (waker : Waker.t) : M K Invocation FutureState := λ w,
  match call fut waker w with
  | Ok (st, w', evs) => Ok (st, w', [mkInvocation c fut st evs])
  | Stop h => Stop h
  end.

(** Forgets which child was progressed and keeps the events. *)
Definition run_combinator {K A} (m : M K Invocation A) : M K Event A := λ w,
  match m w with
  | Ok (a, w', invs) => Ok (a, w', concat (inv_events <$> invs))
  | Stop h => Stop h
  end.

(** [n] consecutive [progress] calls on one future: the states they
    returned, in order. *)
Fixpoint repeat_progress {K L} (step : M K L FutureState) (n : nat) : M K L (list FutureState) :=
  match n with
  | O => mret []
  | S n' => st ← step; sts ← repeat_progress step n'; mret (st :: sts)
  end.

(** ** The combinators (future_combinators.c)

    The reactor passed to every [progress] function is the one of the world's
    executor, so the [mio] argument is not written. *)

Section Combinators.
Context {K : Type} `{!ErrCodes}.
Variable call : addr → Waker.t → M K Event FutureState.

(** The second half of [then_progress], from "Now progress the second
    future". *)
Definition then_progress_fut2 (base : addr) (waker : Waker.t) : M K Invocation FutureState :=
  self ← load_then base;
  state2 ← invoke call Fut2 (ThenFuture.fut2 self) waker;
  match state2 with
  | FUTURE_PENDING => mret FUTURE_PENDING
  | FUTURE_FAILURE =>
      modify_base base (Future.set_errcode THEN_FUTURE_ERR_FUT2_FAILED);;
      mret FUTURE_FAILURE
  | FUTURE_COMPLETED =>
      self ← load_then base;
      fut2 ← load_base (ThenFuture.fut2 self);
      modify_base base (Future.set_ok (Future.ok fut2));;
      mret FUTURE_COMPLETED
  end.

Definition then_progress (base : addr) (waker : Waker.t) : M K Invocation FutureState :=
  self ← load_then base;
  if negb (ThenFuture.fut1_completed self) then
    state1 ← invoke call Fut1 (ThenFuture.fut1 self) waker;
    match state1 with
    | FUTURE_PENDING => mret FUTURE_PENDING
    | FUTURE_FAILURE =>
        modify_base base (Future.set_errcode THEN_FUTURE_ERR_FUT1_FAILED);;
        mret FUTURE_FAILURE
    | FUTURE_COMPLETED =>
        modify_then base (ThenFuture.set_fut1_completed true);;
        self ← load_then base;
        fut1 ← load_base (ThenFuture.fut1 self);
        modify_base (ThenFuture.fut2 self) (Future.set_arg (Future.ok fut1));;
        then_progress_fut2 base waker
    end
  else then_progress_fut2 base waker.

Definition future_then (fut1 fut2 : addr) : ThenFuture.t :=
  ThenFuture.mk (Future.mk then_progress_fn false NULL NULL FUTURE_SUCCESS) fut1 fut2 false.

(** "Progress fut1 if not already completed or failed." *)
Definition join_progress_fut1 (base : addr) (waker : Waker.t) : M K Invocation unit :=
  self ← load_join base;
  if decide (JoinFuture.fut1_completed self = FUTURE_PENDING) then
    state1 ← invoke call Fut1 (JoinFuture.fut1 self) waker;
    match state1 with
    | FUTURE_PENDING => mret tt
    | FUTURE_COMPLETED =>
        modify_join base (JoinFuture.set_fut1_completed FUTURE_COMPLETED);;
        self ← load_join base;
        fut1 ← load_base (JoinFuture.fut1 self);
        modify_join base (λ s, JoinFuture.set_result_fut1
          (JoinFuture.mk_res (Future.ok fut1) (JoinFuture.errcode (JoinFuture.result_fut1 s))) s);;
        modify_join base (λ s, JoinFuture.set_result_fut1
          (JoinFuture.mk_res (JoinFuture.ok (JoinFuture.result_fut1 s)) FUTURE_SUCCESS) s)
    | FUTURE_FAILURE =>
        modify_join base (JoinFuture.set_fut1_completed FUTURE_FAILURE);;
        self ← load_join base;
        fut1 ← load_base (JoinFuture.fut1 self);
        modify_join base (λ s, JoinFuture.set_result_fut1
          (JoinFuture.mk_res (JoinFuture.ok (JoinFuture.result_fut1 s)) (Future.errcode fut1)) s);;
        modify_join base (λ s, JoinFuture.set_result_fut1
          (JoinFuture.mk_res NULL (JoinFuture.errcode (JoinFuture.result_fut1 s))) s)
    end
  else mret tt.

(** "Progress fut2 if not already completed or failed." *)
Definition join_progress_fut2 (base : addr) (waker : Waker.t) : M K Invocation unit :=
  self ← load_join base;
  if decide (JoinFuture.fut2_completed self = FUTURE_PENDING) then
    state2 ← invoke call Fut2 (JoinFuture.fut2 self) waker;
    match state2 with
    | FUTURE_PENDING => mret tt
    | FUTURE_COMPLETED =>
        modify_join base (JoinFuture.set_fut2_completed FUTURE_COMPLETED);;
        self ← load_join base;
        fut2 ← load_base (JoinFuture.fut2 self);
        modify_join base (λ s, JoinFuture.set_result_fut2
          (JoinFuture.mk_res (Future.ok fut2) (JoinFuture.errcode (JoinFuture.result_fut2 s))) s);;
        modify_join base (λ s, JoinFuture.set_result_fut2
          (JoinFuture.mk_res (JoinFuture.ok (JoinFuture.result_fut2 s)) FUTURE_SUCCESS) s)
    | FUTURE_FAILURE =>
        modify_join base (JoinFuture.set_fut2_completed FUTURE_FAILURE);;
        self ← load_join base;
        fut2 ← load_base (JoinFuture.fut2 self);
        modify_join base (λ s, JoinFuture.set_result_fut2
          (JoinFuture.mk_res (JoinFuture.ok (JoinFuture.result_fut2 s)) (Future.errcode fut2)) s);;
        modify_join base (λ s, JoinFuture.set_result_fut2
          (JoinFuture.mk_res NULL (JoinFuture.errcode (JoinFuture.result_fut2 s))) s)
    end
  else mret tt.

(** The end of [join_progress], from "If either future is still pending". *)
Definition join_progress_result (base : addr) : M K Invocation FutureState :=
  self ← load_join base;
  if bool_decide (JoinFuture.fut1_completed self = FUTURE_PENDING)
     || bool_decide (JoinFuture.fut2_completed self = FUTURE_PENDING)
  then mret FUTURE_PENDING
  else if bool_decide (JoinFuture.fut1_completed self = FUTURE_FAILURE)
          && bool_decide (JoinFuture.fut2_completed self = FUTURE_FAILURE)
  then modify_base base (Future.set_errcode JOIN_FUTURE_ERR_BOTH_FUTS_FAILED);;
       mret FUTURE_FAILURE
  else if bool_decide (JoinFuture.fut1_completed self = FUTURE_FAILURE)
  then modify_base base (Future.set_errcode JOIN_FUTURE_ERR_FUT1_FAILED);;
       mret FUTURE_FAILURE
  else if bool_decide (JoinFuture.fut2_completed self = FUTURE_FAILURE)
  then modify_base base (Future.set_errcode JOIN_FUTURE_ERR_FUT2_FAILED);;
       mret FUTURE_FAILURE
  else
    modify_base base (Future.set_ok (JoinFuture.ok (JoinFuture.result_fut1 self)));;
    mret FUTURE_COMPLETED.

Definition join_progress (base : addr) (waker : Waker.t) : M K Invocation FutureState :=
  join_progress_fut1 base waker;;
  join_progress_fut2 base waker;;
  join_progress_result base.

(** [jf] is a local variable: the members [future_join] does not assign
    ([is_active] and [arg] of the base) keep what [junk] holds. *)
Definition future_join (junk : JoinFuture.t) (fut1 fut2 : addr) : JoinFuture.t :=
  JoinFuture.mk
    (Future.mk join_progress_fn (Future.is_active (JoinFuture.base junk))
       (Future.arg (JoinFuture.base junk)) NULL FUTURE_SUCCESS)
    fut1 fut2 FUTURE_PENDING FUTURE_PENDING
    (JoinFuture.mk_res NULL FUTURE_SUCCESS) (JoinFuture.mk_res NULL FUTURE_SUCCESS).

(** The end of [select_progress], from "Progress fut2 if it hasn't failed
    yet". *)
Definition select_progress_fut2 (base : addr) (waker : Waker.t) : M K Invocation FutureState :=
  self ← load_select base;
  if bool_decide (SelectFuture.which_completed self = SELECT_COMPLETED_NONE)
     || bool_decide (SelectFuture.which_completed self = SELECT_FAILED_FUT1)
  then
    state2 ← invoke call Fut2 (SelectFuture.fut2 self) waker;
    match state2 with
    | FUTURE_COMPLETED =>
        modify_select base (SelectFuture.set_which_completed SELECT_COMPLETED_FUT2);;
        self ← load_select base;
        fut2 ← load_base (SelectFuture.fut2 self);
        modify_base base (Future.set_ok (Future.ok fut2));;
        mret FUTURE_COMPLETED
    | FUTURE_FAILURE =>
        self ← load_select base;
        (if bool_decide (SelectFuture.which_completed self = SELECT_FAILED_FUT1)
         then modify_select base (SelectFuture.set_which_completed SELECT_FAILED_BOTH)
         else modify_select base (SelectFuture.set_which_completed SELECT_FAILED_FUT2));;
        mret FUTURE_PENDING
    | FUTURE_PENDING => mret FUTURE_PENDING
    end
  else mret FUTURE_PENDING.

(** The middle of [select_progress], from "Progress fut1 if it hasn't
    failed yet". *)
Definition select_progress_fut1 (base : addr) (waker : Waker.t) : M K Invocation FutureState :=
  self ← load_select base;
  if bool_decide (SelectFuture.which_completed self = SELECT_COMPLETED_NONE)
     || bool_decide (SelectFuture.which_completed self = SELECT_FAILED_FUT2)
  then
    state1 ← invoke call Fut1 (SelectFuture.fut1 self) waker;
    match state1 with
    | FUTURE_COMPLETED =>
        modify_select base (SelectFuture.set_which_completed SELECT_COMPLETED_FUT1);;
        self ← load_select base;
        fut1 ← load_base (SelectFuture.fut1 self);
        modify_base base (Future.set_ok (Future.ok fut1));;
        mret FUTURE_COMPLETED
    | FUTURE_FAILURE =>
        self ← load_select base;
        (if bool_decide (SelectFuture.which_completed self = SELECT_FAILED_FUT2)
         then modify_select base (SelectFuture.set_which_completed SELECT_FAILED_BOTH)
         else modify_select base (SelectFuture.set_which_completed SELECT_FAILED_FUT1));;
        select_progress_fut2 base waker
    | FUTURE_PENDING => select_progress_fut2 base waker
    end
  else select_progress_fut2 base waker.

Definition select_progress (base : addr) (waker : Waker.t) : M K Invocation FutureState :=
  self ← load_select base;
  match SelectFuture.which_completed self with
  | SELECT_COMPLETED_FUT1 =>
      fut1 ← load_base (SelectFuture.fut1 self);
      modify_base base (Future.set_ok (Future.ok fut1));;
      mret FUTURE_COMPLETED
  | SELECT_COMPLETED_FUT2 =>
      fut2 ← load_base (SelectFuture.fut2 self);
      modify_base base (Future.set_ok (Future.ok fut2));;
      mret FUTURE_COMPLETED
  | SELECT_FAILED_BOTH =>
      fut1 ← load_base (SelectFuture.fut1 self);
      modify_base base (Future.set_errcode (Future.errcode fut1));;
      mret FUTURE_FAILURE
  | _ => select_progress_fut1 base waker
  end.

(** [sf] is a local variable: [future_select] assigns the two children, the
    tag and [base.progress]; the other members of the base keep what
    [junk] holds. *)
Definition future_select (junk : SelectFuture.t) (fut1 fut2 : addr) : SelectFuture.t :=
  SelectFuture.mk
    (Future.set_progress select_progress_fn (SelectFuture.base junk))
    fut1 fut2 SELECT_COMPLETED_NONE.
End Combinators.

(** What [join_progress] records in the JoinFuture when the child [c],
    whose base is [b] after its [progress], returned [st]: nothing while the
    child is pending; otherwise its state and the snapshot of its [ok] (with
    FUTURE_SUCCESS) or of its [errcode] (with a NULL [ok]). *)
Definition join_cache (c : Child) (st : FutureState) (b : Future.t)
    (s : JoinFuture.t) : JoinFuture.t :=
  let snapshot :=
    match st with
    | FUTURE_FAILURE => JoinFuture.mk_res NULL (Future.errcode b)
    | _ => JoinFuture.mk_res (Future.ok b) FUTURE_SUCCESS
    end in
  match st, c with
  | FUTURE_PENDING, _ => s
  | _, Fut1 => JoinFuture.set_result_fut1 snapshot (JoinFuture.set_fut1_completed st s)
  | _, Fut2 => JoinFuture.set_result_fut2 snapshot (JoinFuture.set_fut2_completed st s)
  end.

(** The step [join_progress] makes for the child [c] at [fut], whose
    recorded state is [status], in the world [wa]: a child that has already
    finished is left alone; a pending child is progressed once, and what it
    returned is recorded. The step ends in [wb] with the recorded state
    [status'], having made the invocations [invs]. *)
Definition join_child_step {K} (call : addr → Waker.t → M K Event FutureState)
    (base : addr) (waker : Waker.t) (c : Child) (fut : addr) (status : FutureState)
    (wa : World K) (status' : FutureState) (wb : World K) (invs : list Invocation) : Prop :=
  (status ≠ FUTURE_PENDING ∧ status' = status ∧ wb = wa ∧ invs = []) ∨
  (status = FUTURE_PENDING ∧
   ∃ w1 ev b,
     call fut waker wa = Ok (status', w1, ev) ∧
     keeps base wa w1 ∧
     base_at w1 fut = Some b ∧
     wb = upd_obj base (on_join (join_cache c status' b)) w1 ∧
     invs = [mkInvocation c fut status' ev]).





(** The child that won a select whose tag is [t]. *)
Definition select_winner (s : SelectFuture.t) : option addr :=
  match SelectFuture.which_completed s with
  | SELECT_COMPLETED_FUT1 => Some (SelectFuture.fut1 s)
  | SELECT_COMPLETED_FUT2 => Some (SelectFuture.fut2 s)
  | _ => None
  end.

(** [select_settled base w v]: in [w] the tag of the select at [base] is
    SELECT_COMPLETED_FUT1 or SELECT_COMPLETED_FUT2 and the [ok] of the
    winning child is [v]. *)
Definition select_settled {K} (base : addr) (w : World K) (v : addr) : Prop :=
  ∃ s fut b, select_at w base = Some s ∧ select_winner s = Some fut ∧
             base_at w fut = Some b ∧ Future.ok b = v.

(** ** Leaf futures

    Modelled from the spec: leaf futures are supplied by the user (section
    6). The body of a leaf's [progress] is a finite tree of the operations
    the runtime offers to it: it reads its [arg], writes its [ok] and
    [errcode], keeps one private word, registers and unregisters descriptors
    with the reactor under the waker it was given, wakes that waker, spawns
    futures, and returns a state. *)

Inductive LeafProg : Type :=
| LReturn (st : FutureState)
| LGetArg (k : addr → LeafProg)
| LGetPriv (k : Z → LeafProg)
| LSetPriv (v : Z) (k : LeafProg)
| LSetOk (v : addr) (k : LeafProg)
| LSetErrcode (v : Z) (k : LeafProg)
| LRegister (fd events : Z) (k : Z → LeafProg)
| LUnregister (fd : Z) (k : Z → LeafProg)
| LWake (k : LeafProg)
| LSpawn (fut : addr) (k : LeafProg).

(** ** The reactor and the executor (mio.c, executor.c) *)

Section Runtime.
Context {K : Type} `{!Kernel K} `{!ErrCodes}.

Definition get_mio {L} : M K L Mio.t :=
  w ← get_world; mret (Executor.mio (executor w)).

Definition put_mio {L} (mio : Mio.t) : M K L unit :=
  w ← get_world; put_world (set_executor (Executor.set_mio mio (executor w)) w).

Definition get_que {L} : M K L FutQue.t :=
  w ← get_world; mret (Executor.que (executor w)).

Definition put_que {L} (que : FutQue.t) : M K L unit :=
  w ← get_world; put_world (set_executor (Executor.set_que que (executor w)) w).

(** A system call: the kernel moves on and gives a result. *)
Definition syscall {L A} (f : K → A * K) : M K L A := λ w,
  let '(r, k') := f (kernel w) in Ok (r, set_kernel k' w, []).

Definition mio_create (k : K) : Res (Mio.t * K) :=
  let '(fd, k') := epoll_create1 k in
  if fd =? -1 then Stop Exited else Ok (Mio.mk fd 0, k').

Definition mio_register {L} (fd events : Z) (waker : Waker.t) : M K L Z :=
  mio ← get_mio;
  r ← syscall (epoll_ctl_add (Mio.epoll_fd mio) fd events (Waker.future waker));
  if r =? -1 then mret (-1)
  else
    mio ← get_mio;
    c ← lift_res (int_add (Mio.registered_count mio) 1);
    put_mio (Mio.set_registered_count c mio);;
    mret 0.

Definition mio_unregister {L} (fd : Z) : M K L Z :=
  mio ← get_mio;
  r ← syscall (epoll_ctl_del (Mio.epoll_fd mio) fd);
  if r =? -1 then mret (-1)
  else
    mio ← get_mio;
    c ← lift_res (int_sub (Mio.registered_count mio) 1);
    put_mio (Mio.set_registered_count c mio);;
    mret 0.

Definition executor_create (max_queue_size : Z) (h : gmap addr Obj) (k : K) : Res (World K) :=
  '(mio, k') ← mio_create k;
  mret (mkWorld h (Executor.mk mio (futque_create max_queue_size)) k').

Definition executor_spawn (fut : addr) : M K Event unit :=
  modify_base fut (Future.set_is_active true);;
  que ← get_que;
  que' ← lift_res (push que fut);
  put_que que';;
  emit (EvSpawn fut (negb (FutQue.size que =? FutQue.max_size que))).

Definition waker_wake (waker : Waker.t) : M K Event unit :=
  executor_spawn (Waker.future waker).

(** The loop of [mio_poll] over the events the kernel returned. *)
Fixpoint wake_events (ptrs : list addr) : M K Event unit :=
  match ptrs with
  | [] => mret tt
  | future :: ptrs' => waker_wake (Waker.mk future);; wake_events ptrs'
  end.

Definition mio_poll : M K Event unit :=
  mio ← get_mio;
  if Mio.registered_count mio =? 0 then mret tt
  else
    r ← syscall (epoll_wait (Mio.epoll_fd mio) MAX_EVENTS);
    match r with
    | WaitError => stop Exited
    | WaitBlocks => stop Blocked
    | WaitEvents ptrs => wake_events ptrs
    end.

(** The body of each leaf, by the code its [progress] member names. *)
Variable leaf_code : Z → LeafProg.

Definition load_priv (a : addr) : M K Event Z :=
  o ← load_obj a;
  match o with
  | LeafObj _ p => mret p
  | _ => stop Undefined
  end.

Definition store_priv (a : addr) (v : Z) : M K Event unit :=
  load_priv a;; w ← get_world; put_world (upd_obj a (on_priv v) w).

Fixpoint run_leaf (p : LeafProg) (self : addr) (waker : Waker.t) : M K Event FutureState :=
  match p with
  | LReturn st => mret st
  | LGetArg k => b ← load_base self; run_leaf (k (Future.arg b)) self waker
  | LGetPriv k => v ← load_priv self; run_leaf (k v) self waker
  | LSetPriv v k => store_priv self v;; run_leaf k self waker
  | LSetOk v k => modify_base self (Future.set_ok v);; run_leaf k self waker
  | LSetErrcode v k => modify_base self (Future.set_errcode v);; run_leaf k self waker
  | LRegister fd events k => r ← mio_register fd events waker; run_leaf (k r) self waker
  | LUnregister fd k => r ← mio_unregister fd; run_leaf (k r) self waker
  | LWake k => waker_wake waker;; run_leaf k self waker
  | LSpawn fut k => executor_spawn fut;; run_leaf k self waker
  end.

(** [fut->progress(fut, mio, waker)]: the call through the function
    pointer. The fuel bounds the nesting of combinators. *)
Fixpoint progress (fuel : nat) (fut : addr) (waker : Waker.t) : M K Event FutureState :=
  match fuel with
  | O => stop OutOfFuel
  | S n =>
      b ← load_base fut;
      match Future.progress b with
      | then_progress_fn => run_combinator (then_progress (progress n) fut waker)
      | join_progress_fn => run_combinator (join_progress (progress n) fut waker)
      | select_progress_fn => run_combinator (select_progress (progress n) fut waker)
      | leaf_progress_fn code => run_leaf (leaf_code code) fut waker
      end
  end.

Definition pop_que : M K Event addr :=
  que ← get_que;
  '(fut, que') ← lift_res (pop que);
  put_que que';;
  mret fut.

(** The inner loop of [executor_run]. *)
Fixpoint drain (fuel : nat) : M K Event unit :=
  match fuel with
  | O => stop OutOfFuel
  | S n =>
      que ← get_que;
      if isEmpty que then mret tt
      else
        fut ← pop_que;
        emit (EvProgress fut);;
        state ← progress n fut (Waker.mk fut);
        (if bool_decide (state = FUTURE_COMPLETED) || bool_decide (state = FUTURE_FAILURE)
         then modify_base fut (Future.set_is_active false)
         else mret tt);;
        drain n
  end.

Fixpoint executor_run (fuel : nat) : M K Event unit :=
  match fuel with
  | O => stop OutOfFuel
  | S n =>
      que ← get_que;
      if isEmpty que then mret tt
      else
        drain n;;
        mio_poll;;
        executor_run n
  end.
End Runtime.

(** The number of descriptors the reactor of [w] counts as registered. *)
Definition count {K} (w : World K) : Z :=
  Mio.registered_count (Executor.mio (executor w)).

(** ** Traces of the executor *)

(** [spawn_all futs]: the calls [executor_spawn(executor, fut)] a program
    makes, in order, before it calls [executor_run]. *)
Fixpoint spawn_all {K} (futs : list addr) : M K Event unit :=
  match futs with
  | [] => mret tt
  | fut :: futs' => executor_spawn fut;; spawn_all futs'
  end.

(** The events a log entry stands for. *)
Class Flat (L : Type) : Type := flat : L → list Event.

#[global] Instance Flat_Event : Flat Event := λ e, [e].
#[global] Instance Flat_Invocation : Flat Invocation := inv_events.

Definition events_of {L} `{!Flat L} (l : list L) : list Event := concat (flat <$> l).

(** The contents of the ready queue after the events [evs], from the contents
    [l]: a spawn that found room appends its future, a spawn that found the
    queue full changes nothing, and a progress call of the drive loop is made
    on the future just popped from the head. *)
Fixpoint replay (evs : list Event) (l : list addr) : option (list addr) :=
  match evs with
  | [] => Some l
  | EvSpawn fut true :: evs' => replay evs' (l ++ [fut])
  | EvSpawn fut false :: evs' => replay evs' l
  | EvProgress fut :: evs' =>
      match l with
      | fut' :: l' => if decide (fut = fut') then replay evs' l' else None
      | [] => None
      end
  end.

(** [tracks w evs w']: from [w] to [w'] the capacity of the ready queue is
    the same, and its contents changed as the events [evs] say. *)
Definition tracks {K} (w : World K) (evs : list Event) (w' : World K) : Prop :=
  FutQue.max_size (Executor.que (executor w')) = FutQue.max_size (Executor.que (executor w)) ∧
  ∀ l, que_repr (Executor.que (executor w)) l →
       ∃ l', que_repr (Executor.que (executor w')) l' ∧ replay evs l = Some l'.

(** A computation is [sound] when every run of it that returns changes the
    queue as its events say. *)
Definition sound {K L A} `{!Flat L} (m : M K L A) : Prop :=
  ∀ w a w' l, m w = Ok (a, w', l) → tracks w (events_of l) w'.

(** The claim that every future passed to [executor_spawn] is progressed
    afterwards, read on the events of a run; and the same for the futures
    that found room in the queue. *)
Definition every_spawn_progressed (evs : list Event) : Prop :=
  ∀ i fut queued, evs !! i = Some (EvSpawn fut queued) →
    ∃ j, (i < j)%nat ∧ evs !! j = Some (EvProgress fut).

Definition every_queued_spawn_progressed (evs : list Event) : Prop :=
  ∀ i fut, evs !! i = Some (EvSpawn fut true) →
    ∃ j, (i < j)%nat ∧ evs !! j = Some (EvProgress fut).

(** ** The states an executor goes through

    One step is a call of [executor_spawn], a call of [waker_wake], or a pop
    by the drive loop. [guard w fut] says which futures may be spawned or
    woken in [w]. *)
Inductive exec_step {K} (guard : World K → addr → Prop) : World K → World K → Prop :=
| step_spawn w fut w' evs :
    guard w fut →
    executor_spawn fut w = Ok (tt, w', evs) →
    exec_step guard w w'
| step_wake w waker w' evs :
    guard w (Waker.future waker) →
    waker_wake waker w = Ok (tt, w', evs) →
    exec_step guard w w'
| step_pop w fut w' evs :
    pop_que w = Ok (fut, w', evs) →
    exec_step guard w w'.

(** No restriction, and the caller's contract of section 4.2: the future is
    not in the queue already. *)
Definition any_future {K} (w : World K) (fut : addr) : Prop := True.

Definition not_queued {K} (w : World K) (fut : addr) : Prop :=
  fut ∉ que_contents (Executor.que (executor w)).

(** ** What a run leaves to observe *)

(** The futures the drive loop progressed and the futures that found room in
    the queue when they were spawned, each in the order of the events. *)
Definition progressed (evs : list Event) : list addr :=
  omap (λ e, match e with EvProgress fut => Some fut | _ => None end) evs.

Definition enqueued (evs : list Event) : list addr :=
  omap (λ e, match e with EvSpawn fut true => Some fut | _ => None end) evs.

(** The memory after [executor_spawn] was called for each of [ptrs]. *)
Definition mark_active (ptrs : list addr) (h : gmap addr Obj) : gmap addr Obj :=
  foldl (λ h p, alter (on_base (Future.set_is_active true)) p h) h ptrs.

(** What a future is for good: its kind, the function its [progress]
    member points to and, for a combinator, its two children. The other
    members are blanked. *)
Definition obj_layout (o : Obj) : Obj :=
  let blank (b : Future.t) := Future.mk (Future.progress b) false NULL NULL 0 in
  match o with
  | LeafObj b _ => LeafObj (blank b) 0
  | ThenObj s =>
      ThenObj (ThenFuture.mk (blank (ThenFuture.base s))
                 (ThenFuture.fut1 s) (ThenFuture.fut2 s) false)
  | JoinObj s =>
      JoinObj (JoinFuture.mk (blank (JoinFuture.base s))
                 (JoinFuture.fut1 s) (JoinFuture.fut2 s) FUTURE_PENDING FUTURE_PENDING
                 (JoinFuture.mk_res NULL 0) (JoinFuture.mk_res NULL 0))
  | SelectObj s =>
      SelectObj (SelectFuture.mk (blank (SelectFuture.base s))
                   (SelectFuture.fut1 s) (SelectFuture.fut2 s) SELECT_COMPLETED_NONE)
  end.

(** [same_layout w w']: the same addresses hold futures in [w] and [w'], and
    each future has the layout it had. *)
Definition same_layout {K} (w w' : World K) : Prop :=
  ∀ a, obj_layout <$> heap w' !! a = obj_layout <$> heap w !! a.

(** A computation is [stable] when every run of it that returns keeps the
    layout of the memory. *)
Definition stable {K L A} (m : M K L A) : Prop :=
  ∀ w a w' l, m w = Ok (a, w', l) → same_layout w w'.

(** ** A small world to run the model in

    A kernel in which every registered descriptor is always ready, error
    codes, five leaf futures and three combinators over them. *)

Module Demo.
(** The kernel state is the list of the registrations, oldest first. *)
#[export] Instance demo_kernel : Kernel (list (Z * addr)) := {|
  epoll_create1 k := (3, k);
  epoll_ctl_add epfd fd events ptr k :=
    if bool_decide (fd ∈ k.*1) then (-1, k) else (0, k ++ [(fd, ptr)]);
  epoll_ctl_del epfd fd k :=
    if bool_decide (fd ∈ k.*1) then (0, filter (λ p, p.1 ≠ fd) k) else (-1, k);
  epoll_wait epfd maxevents k :=
    match take (Z.to_nat maxevents) (k.*2) with
    | [] => (WaitBlocks, k)
    | ptrs => (WaitEvents ptrs, k)
    end
|}.

#[export] Instance demo_codes : ErrCodes := {|
  THEN_FUTURE_ERR_FUT1_FAILED := 1;
  THEN_FUTURE_ERR_FUT2_FAILED := 2;
  JOIN_FUTURE_ERR_FUT1_FAILED := 3;
  JOIN_FUTURE_ERR_FUT2_FAILED := 4;
  JOIN_FUTURE_ERR_BOTH_FUTS_FAILED := 5
|}.

(** Leaf 0 completes with [ok] 7; leaf 1 completes with its [arg] plus
    one; leaf 2 fails with errcode 11; leaf 3 waits for descriptor 9: its
    first call registers it and is pending, its second unregisters it and
    completes; leaf 4 is pending and arranges no wake. *)
Definition leaf_code (code : Z) : LeafProg :=
  if code =? 0 then LSetOk 7 (LReturn FUTURE_COMPLETED)
  else if code =? 1 then LGetArg (λ a, LSetOk (a + 1) (LReturn FUTURE_COMPLETED))
  else if code =? 2 then LSetErrcode 11 (LReturn FUTURE_FAILURE)
  else if code =? 3 then
    LGetPriv (λ p,
      if p =? 0 then LRegister 9 1 (λ _, LSetPriv 1 (LReturn FUTURE_PENDING))
      else LUnregister 9 (λ _, LSetOk 5 (LReturn FUTURE_COMPLETED)))
  else LReturn FUTURE_PENDING.

Definition leaf (code : Z) : Obj :=
  LeafObj (Future.mk (leaf_progress_fn code) false NULL NULL FUTURE_SUCCESS) 0.

(** What the stack held where [future_join] and [future_select] build
    their result. *)
Definition junk : Future.t := Future.mk then_progress_fn false NULL NULL 7.

Definition memory : gmap addr Obj :=
  <[10 := leaf 0]> (<[11 := leaf 2]> (<[12 := leaf 4]> (<[13 := leaf 3]> (<[20 := leaf 1]>
  (<[30 := ThenObj (future_then 10 20)]>
  (<[31 := JoinObj (future_join
             (JoinFuture.mk junk 0 0 FUTURE_PENDING FUTURE_PENDING
                (JoinFuture.mk_res 0 0) (JoinFuture.mk_res 0 0)) 10 20)]>
  (<[32 := SelectObj (future_select
             (SelectFuture.mk junk 0 0 SELECT_COMPLETED_NONE) 10 20)]>
  (<[33 := SelectObj (future_select
             (SelectFuture.mk junk 0 0 SELECT_COMPLETED_NONE) 12 20)]> ∅)))))))).

(** The world [executor_create cap memory []] returns. *)
Definition world (cap : Z) : World (list (Z * addr)) :=
  mkWorld memory (Executor.mk (Mio.mk 3 0) (futque_create cap)) [].

(** The [progress] call of the executor, with fuel for two levels of
    combinators. *)
Definition call : addr → Waker.t → M (list (Z * addr)) Event FutureState :=
  progress leaf_code 2.

(** The world after a computation that returns, [w] itself otherwise. *)
Definition after {L A} (m : M (list (Z * addr)) L A) (w : World (list (Z * addr)))
    : World (list (Z * addr)) :=
  match m w with
  | Ok (_, w', _) => w'
  | Stop _ => w
  end.

(** The worlds in which the addresses 10 and 20 still hold the leaves 0
    and 1, whatever their other members hold. *)
Definition leaves_in_place (w : World (list (Z * addr))) : Prop :=
  Future.progress <$> base_at w 10 = Some (leaf_progress_fn 0) ∧
  Future.progress <$> base_at w 20 = Some (leaf_progress_fn 1).

(** A world whose reactor counts [c] registered descriptors. *)
Definition world_counting (c : Z) : World (list (Z * addr)) :=
  mkWorld memory (Executor.mk (Mio.mk 3 c) (futque_create 4)) [].

(** The small world with one more future: at 34 a select whose two children
    are the failing leaf at 11. *)
Definition world_failing : World (list (Z * addr)) :=
  mkWorld
    (<[34 := SelectObj (future_select
               (SelectFuture.mk junk 0 0 SELECT_COMPLETED_NONE) 11 11)]> memory)
    (Executor.mk (Mio.mk 3 0) (futque_create 4)) [].
End Demo.

(* ------------------------------------------------------------------ *)
(** * Properties *)

(** Unfolds the binds of the result monad and the projections of the queue. *)
Ltac res_simpl :=
  cbn [mbind mret Res_bind Res_ret res_bind
       FutQue.futs FutQue.size FutQue.max_size FutQue.front FutQue.back
       FutQue.set_futs FutQue.set_size FutQue.set_front FutQue.set_back
       fst snd andb].

(** ** Arithmetic of the machine integers *)

Lemma to_size_t_small x : 0 ≤ x < SIZE_WIDTH → to_size_t x = x.
Proof. intros H. unfold to_size_t. by apply Z.mod_small. Qed.

Lemma to_int_small x : INT_MIN ≤ x ≤ INT_MAX → to_int x = x.
Proof.
  unfold to_int, INT_MIN, INT_MAX. intros H.
  rewrite Z.mod_small by lia. lia.
Qed.

Lemma int_add_small a b : INT_MIN ≤ a + b ≤ INT_MAX → int_add a b = Ok (a + b).
Proof.
  intros [H1 H2]. unfold int_add.
  apply Z.leb_le in H1, H2. by rewrite H1, H2.
Qed.

Lemma mod_window_inj m f i j :
  0 < m → 0 ≤ i < m → 0 ≤ j < m → (f + i) mod m = (f + j) mod m → i = j.
Proof.
  intros Hm Hi Hj Heq.
  assert (Hd : (i - j) mod m = 0).
  { replace (i - j) with ((f + i) - (f + j)) by lia.
    rewrite Zminus_mod, Heq, Z.sub_diag. by apply Z.mod_0_l; lia. }
  apply Z.mod_divide in Hd; [|lia]. destruct Hd as [k Hk].
  assert (k = 0) by nia. lia.
Qed.

Lemma next_index_spec que i :
  0 < FutQue.max_size que → FutQue.max_size que ≤ INT_MAX → -1 ≤ i < FutQue.max_size que →
  next_index que i = Ok ((i + 1) mod FutQue.max_size que).
Proof.
  intros Hm HM Hi. unfold next_index.
  rewrite int_add_small by (unfold INT_MIN, INT_MAX in *; lia). res_simpl.
  rewrite to_size_t_small by (unfold SIZE_WIDTH, INT_MAX in *; lia).
  unfold size_t_rem. destruct (Z.eqb_spec (FutQue.max_size que) 0) as [?|_]; [lia|].
  res_simpl. f_equal. apply to_int_small.
  pose proof (Z.mod_pos_bound (i + 1) (FutQue.max_size que) Hm).
  unfold INT_MIN, INT_MAX in *. lia.
Qed.

(** ** The ready queue refines a bounded FIFO *)

Lemma que_repr_create cap : 0 ≤ cap ≤ INT_MAX → que_repr (futque_create cap) [].
Proof.
  intros H. unfold que_repr, futque_create; simpl.
  repeat split; try lia; try done.
Qed.

Lemma que_repr_contents que l : que_repr que l → que_contents que = l.
Proof.
  intros (Hsz & _ & _ & _ & _ & _ & Hcells).
  unfold que_contents. apply list_eq. intros i.
  rewrite list_lookup_fmap.
  destruct (l !! i) as [fut|] eqn:Hl.
  - assert (Hlt : (i < length l)%nat) by (by eapply lookup_lt_Some).
    rewrite lookup_seqZ_lt by lia.
    rewrite Z.add_0_l. cbn [fmap option_fmap option_map].
    by rewrite (Hcells i fut Hl).
  - apply lookup_ge_None in Hl.
    rewrite lookup_seqZ_ge by lia. done.
Qed.

Lemma push_full que l fut :
  que_repr que l → Z.of_nat (length l) = FutQue.max_size que → push que fut = Ok que.
Proof.
  intros (Hsz & _) Hfull. unfold push.
  rewrite Hsz, Hfull, Z.eqb_refl. done.
Qed.

Lemma push_room que l fut :
  que_repr que l → Z.of_nat (length l) ≠ FutQue.max_size que →
  ∃ que', push que fut = Ok que' ∧ que_repr que' (l ++ [fut]) ∧
          FutQue.max_size que' = FutQue.max_size que.
Proof.
  intros (Hsz & Hle & HM & Hf & Hb & Hpos & Hcells) Hroom.
  assert (Hm : 0 < FutQue.max_size que) by lia.
  destruct (Hpos Hm) as (Hf' & Hb' & Hmod).
  unfold push. destruct (Z.eqb_spec (FutQue.size que) (FutQue.max_size que)) as [?|_]; [lia|].
  rewrite next_index_spec by lia. res_simpl.
  set (b := (FutQue.back que + 1) mod FutQue.max_size que).
  pose proof (Z.mod_pos_bound (FutQue.back que + 1) (FutQue.max_size que) Hm) as Hbb.
  fold b in Hbb.
  unfold futs_store; res_simpl.
  destruct (Z.leb_spec 0 b); [|lia]. destruct (Z.ltb_spec b (FutQue.max_size que)); [|lia].
  res_simpl. eexists; split; [reflexivity|]. split; [|done].
  unfold que_repr; res_simpl.
  rewrite to_size_t_small by (unfold SIZE_WIDTH, INT_MAX in *; lia).
  rewrite length_app; simpl.
  repeat split; try lia.
  - subst b. rewrite Hmod, Zplus_mod_idemp_l.
    f_equal. lia.
  - intros i x Hi.
    destruct (decide (i = length l)) as [->|Hne].
    + rewrite lookup_app_r, Nat.sub_diag in Hi by lia. simpl in Hi.
      inversion Hi; subst x.
      rewrite <- Hsz, <- Hmod. fold b. by rewrite lookup_insert_eq.
    + assert (Hlt : (i < length l)%nat).
      { apply lookup_lt_Some in Hi. rewrite length_app in Hi; simpl in Hi. lia. }
      rewrite lookup_app_l in Hi by done.
      rewrite lookup_insert_ne; [by apply Hcells|].
      subst b. rewrite Hmod. intros Heq.
      apply mod_window_inj in Heq; lia.
Qed.

Lemma pop_empty que : que_repr que [] → pop que = Ok (NULL, que).
Proof.
  intros (Hsz & _). unfold pop, isEmpty. simpl in Hsz. by rewrite Hsz.
Qed.

Lemma pop_cons que fut l :
  que_repr que (fut :: l) →
  ∃ que', pop que = Ok (fut, que') ∧ que_repr que' l ∧
          FutQue.max_size que' = FutQue.max_size que.
Proof.
  intros (Hsz & Hle & HM & Hf & Hb & Hpos & Hcells).
  simpl in Hsz.
  assert (Hm : 0 < FutQue.max_size que) by lia.
  destruct (Hpos Hm) as (Hf' & Hb' & Hmod).
  unfold pop, isEmpty. destruct (Z.eqb_spec (FutQue.size que) 0) as [?|_]; [lia|].
  unfold futs_load.
  destruct (Z.leb_spec 0 (FutQue.front que)); [|lia].
  destruct (Z.ltb_spec (FutQue.front que) (FutQue.max_size que)); [|lia].
  res_simpl.
  pose proof (Hcells 0%nat fut eq_refl) as Hhd. cbn [Z.of_nat] in Hhd.
  rewrite Z.add_0_r, Z.mod_small in Hhd by lia. rewrite Hhd. res_simpl.
  rewrite next_index_spec by lia. res_simpl.
  eexists; split; [reflexivity|]. split; [|done].
  pose proof (Z.mod_pos_bound (FutQue.front que + 1) (FutQue.max_size que) Hm) as Hfb.
  unfold que_repr; res_simpl.
  rewrite to_size_t_small by (unfold SIZE_WIDTH, INT_MAX in *; lia).
  repeat split; try lia.
  - rewrite Hmod, Zplus_mod_idemp_l. f_equal. lia.
  - intros i x Hi.
    rewrite Zplus_mod_idemp_l.
    replace (FutQue.front que + 1 + Z.of_nat i) with (FutQue.front que + Z.of_nat (S i)) by lia.
    by apply Hcells.
Qed.

Lemma que_repr_length que l : que_repr que l → Z.of_nat (length l) ≤ FutQue.max_size que.
Proof. intros (Hsz & Hle & _). lia. Qed.

Lemma que_run_refines ops :
  ∀ que l, que_repr que l →
  ∃ que', que_run ops que = Ok ((fifo_run (FutQue.max_size que) ops l).1, que') ∧
          que_repr que' (fifo_run (FutQue.max_size que) ops l).2 ∧
          FutQue.max_size que' = FutQue.max_size que.
Proof.
  induction ops as [|[fut|] ops IH]; intros que l Hr; simpl.
  - eauto.
  - unfold fifo_push.
    destruct (Z.eqb_spec (Z.of_nat (length l)) (FutQue.max_size que)) as [Hfull|Hroom].
    + rewrite (push_full que l fut Hr Hfull). simpl. by apply IH.
    + destruct (push_room que l fut Hr Hroom) as (que1 & -> & Hr1 & Hmax). simpl.
      destruct (IH que1 _ Hr1) as (que' & Hrun & Hr' & Hmax').
      rewrite Hmax in *. eauto.
  - destruct l as [|x l]; simpl.
    + rewrite (pop_empty que Hr). simpl.
      destruct (IH que [] Hr) as (que' & -> & Hr' & Hmax'). simpl.
      destruct (fifo_run (FutQue.max_size que) ops []) as [outs lf]; simpl in *. eauto.
    + destruct (pop_cons que x l Hr) as (que1 & -> & Hr1 & Hmax). simpl.
      destruct (IH que1 l Hr1) as (que' & -> & Hr' & Hmax'). simpl.
      rewrite Hmax in *.
      destruct (fifo_run (FutQue.max_size que) ops l) as [outs lf]; simpl in *. eauto.
Qed.

(** C8. A ready queue created with a capacity [cap] that its [int] indices
    can hold is a bounded FIFO under every sequence of [push] and [pop]: the
    operations never leave the defined range of C, the pops return exactly
    what the bounded list of the specification returns (the futures in the
    order they were pushed, NULL when the queue is empty), the queue never
    holds more than [cap] futures, a [push] on a queue holding [cap] futures
    returns the queue unchanged, and otherwise appends at the tail. *)
Theorem ready_queue_bounded_fifo (cap : Z) (ops : list QueOp) :
  0 ≤ cap ≤ INT_MAX →
  ∃ que,
    que_run ops (futque_create cap) = Ok ((fifo_run cap ops []).1, que) ∧
    que_contents que = (fifo_run cap ops []).2 ∧
    Z.of_nat (length (que_contents que)) ≤ cap ∧
    (que_contents que = [] → pop que = Ok (NULL, que)) ∧
    (∀ fut l, que_contents que = fut :: l →
       ∃ que', pop que = Ok (fut, que') ∧ que_contents que' = l) ∧
    (∀ fut, Z.of_nat (length (que_contents que)) = cap → push que fut = Ok que) ∧
    (∀ fut, Z.of_nat (length (que_contents que)) ≠ cap →
       ∃ que', push que fut = Ok que' ∧ que_contents que' = que_contents que ++ [fut]).
Proof.
  intros Hcap.
  destruct (que_run_refines ops (futque_create cap) [] (que_repr_create cap Hcap))
    as (que & Hrun & Hrepr & Hmax).
  change (FutQue.max_size (futque_create cap)) with cap in *.
  pose proof (que_repr_contents _ _ Hrepr) as Hc.
  exists que. rewrite Hc. repeat split.
  - exact Hrun.
  - pose proof (que_repr_length _ _ Hrepr). lia.
  - intros Hnil. rewrite Hnil in Hrepr. by apply pop_empty.
  - intros fut l Hl. rewrite Hl in Hrepr.
    destruct (pop_cons que fut l Hrepr) as (que' & Hp & Hr' & _).
    exists que'. split; [done|]. by apply que_repr_contents.
  - intros fut Hfull. eapply push_full; [done|]. by rewrite Hmax.
  - intros fut Hroom.
    destruct (push_room que _ fut Hrepr) as (que' & Hp & Hr' & _); [by rewrite Hmax|].
    exists que'. split; [done|]. by apply que_repr_contents.
Qed.

Lemma ready_queue_bounded_fifo_witness :
  0 ≤ 2 ≤ INT_MAX ∧
  ∃ que,
    que_run [OpPush 5; OpPush 6; OpPush 7; OpPop; OpPop; OpPop] (futque_create 2)
      = Ok ([5; 6; NULL], que) ∧
    que_contents que = [].
Proof.
  assert (H : 0 ≤ 2 ≤ INT_MAX) by (unfold INT_MAX; lia).
  split; [exact H|].
  destruct (ready_queue_bounded_fifo 2 [OpPush 5; OpPush 6; OpPush 7; OpPop; OpPop; OpPop] H)
    as (que & Hrun & Hc & _).
  exists que. split; [exact Hrun | exact Hc].
Defined.

(** ** The capacity the [int] indices of the queue can address *)

Section QueueRange.
Implicit Types (que : FutQue.t) (fut : addr).

Lemma que_run_app ops1 : ∀ ops2 que outs1 que1,
  que_run ops1 que = Ok (outs1, que1) →
  que_run (ops1 ++ ops2) que =
    match que_run ops2 que1 with
    | Ok (outs2, que2) => Ok (outs1 ++ outs2, que2)
    | Stop h => Stop h
    end.
Proof.
  induction ops1 as [|[fut|] ops1 IH]; intros ops2 que outs1 que1 H; cbn in H |- *.
  - injection H as <- <-. by destruct (que_run ops2 que) as [[]|].
  - destruct (push que fut) as [q|]; [|done]. cbn in *. by apply IH.
  - destruct (pop que) as [[x q]|]; [|done]. cbn in *.
    destruct (que_run ops1 q) as [[outs q']|] eqn:Hrun; [|done]. cbn in H.
    injection H as <- <-.
    rewrite (IH ops2 q outs q' Hrun).
    by destruct (que_run ops2 q') as [[]|].
Qed.

Lemma int_limits :
  INT_MIN = -2147483648 ∧ INT_MAX = 2147483647 ∧ SIZE_WIDTH = 18446744073709551616.
Proof. done. Qed.

(** The first pushes into a fresh queue fill the cells from 0 upwards. *)
Lemma que_run_pushes cap fut (n : nat) :
  INT_MAX < cap < SIZE_WIDTH → Z.of_nat n ≤ INT_MAX + 1 →
  ∃ futs, que_run (replicate n (OpPush fut)) (futque_create cap)
            = Ok ([], FutQue.mk futs (Z.of_nat n) cap 0 (Z.of_nat n - 1)) ∧
          ((0 < n)%nat → futs !! 0 = Some fut).
Proof.
  destruct int_limits as (Hmin & Hmax & Hwidth).
  intros Hcap. induction n as [|n IH]; intros Hn.
  - exists ∅. split; [done|]. lia.
  - destruct IH as (futs & Hrun & Hcell); [lia|].
    replace (S n) with (n + 1)%nat by lia. rewrite replicate_add.
    rewrite (que_run_app _ _ _ _ _ Hrun). cbn [replicate que_run].
    unfold push. res_simpl.
    destruct (Z.eqb_spec (Z.of_nat n) cap) as [?|_]; [lia|].
    unfold next_index. res_simpl.
    rewrite int_add_small by lia. res_simpl.
    replace (Z.of_nat n - 1 + 1) with (Z.of_nat n) by lia.
    rewrite to_size_t_small by lia.
    unfold size_t_rem. destruct (Z.eqb_spec cap 0) as [?|_]; [lia|].
    res_simpl. rewrite Z.mod_small by lia.
    rewrite to_int_small by lia.
    unfold futs_store. res_simpl.
    destruct (Z.leb_spec 0 (Z.of_nat n)); [|lia].
    destruct (Z.ltb_spec (Z.of_nat n) cap); [|lia].
    res_simpl.
    rewrite to_size_t_small by lia.
    exists (<[Z.of_nat n := fut]> futs). split.
    + unfold FutQue.set_size, FutQue.set_futs, FutQue.set_back. cbn.
      do 3 f_equal; lia.
    + intros _. destruct n as [|n].
      * by rewrite lookup_insert_eq.
      * rewrite lookup_insert_ne by lia. apply Hcell. lia.
Qed.

(** With a capacity above INT_MAX, INT_MAX + 1 pushes leave [back] at
    INT_MAX; after one pop the queue has room again, and the next push
    computes [que->back + 1]. *)
Lemma que_run_back_overflow cap fut :
  INT_MAX < cap < SIZE_WIDTH →
  que_run (replicate (Z.to_nat (INT_MAX + 1)) (OpPush fut) ++ [OpPop; OpPush fut])
    (futque_create cap) = Stop Undefined.
Proof.
  destruct int_limits as (Hmin & Hmax & Hwidth).
  intros Hcap.
  destruct (que_run_pushes cap fut (Z.to_nat (INT_MAX + 1)) Hcap) as (futs & Hrun & Hcell).
  { rewrite Z2Nat.id; lia. }
  rewrite (que_run_app _ _ _ _ _ Hrun).
  rewrite Z2Nat.id by lia.
  cbn [que_run]. unfold pop, isEmpty. res_simpl.
  destruct (Z.eqb_spec (INT_MAX + 1) 0) as [?|_]; [lia|].
  unfold futs_load. res_simpl.
  destruct (Z.ltb_spec 0 cap); [|lia]. change (0 <=? 0) with true. res_simpl.
  rewrite Hcell by lia. res_simpl.
  unfold next_index at 1. res_simpl.
  rewrite int_add_small by lia. res_simpl.
  rewrite to_size_t_small by lia.
  unfold size_t_rem. destruct (Z.eqb_spec cap 0) as [?|_]; [lia|].
  res_simpl.
  unfold push. res_simpl.
  rewrite to_size_t_small by lia.
  replace (INT_MAX + 1 - 1) with INT_MAX by lia.
  destruct (Z.eqb_spec INT_MAX cap) as [?|_]; [lia|].
  unfold next_index. res_simpl.
  unfold int_add.
  destruct (Z.leb_spec (INT_MAX + 1) INT_MAX) as [?|_]; [lia|].
  by rewrite andb_false_r.
Qed.
End QueueRange.

(** C8, as stated for every capacity, fails: a queue created with capacity
    INT_MAX + 1 takes INT_MAX + 1 pushes, which leave [back] at INT_MAX;
    one pop makes room, and the next push adds 1 to [back], an [int]. *)
Lemma ready_queue_index_overflow :
  que_run (replicate (Z.to_nat (INT_MAX + 1)) (OpPush 5) ++ [OpPop; OpPush 5])
    (futque_create (INT_MAX + 1)) = Stop Undefined.
Proof. apply que_run_back_overflow. unfold INT_MAX, SIZE_WIDTH. lia. Qed.

(** ** Memory *)

Ltac munfold :=
  unfold modify_base, modify_then, modify_join, modify_select,
    load_then, load_join, load_select, load_base, load_obj,
    get_world, put_world, invoke, stop, emit, lift_res,
    mbind, mret, M_bind, M_ret in *.

Section Memory.
Context {K : Type}.
Implicit Types (w : World K) (a base : addr).

Lemma heap_upd_obj a f w : heap (upd_obj a f w) = alter f a (heap w).
Proof. reflexivity. Qed.

Lemma obj_shape_on_base f o : obj_shape (on_base f o) = obj_shape o.
Proof. by destruct o. Qed.

Lemma base_at_upd_base a f w b :
  base_at w a = Some b → base_at (upd_obj a (on_base f) w) a = Some (f b).
Proof.
  unfold base_at. rewrite heap_upd_obj, lookup_alter_eq.
  destruct (heap w !! a) as [o|]; simpl; [|done].
  intros [= <-]. by destruct o.
Qed.

Lemma base_at_upd_ne a a' f w : a ≠ a' → base_at (upd_obj a f w) a' = base_at w a'.
Proof. intros Hne. unfold base_at. by rewrite heap_upd_obj, lookup_alter_ne. Qed.

Lemma is_Some_upd_obj a a' f w : is_Some (heap (upd_obj a f w) !! a') ↔ is_Some (heap w !! a').
Proof.
  rewrite heap_upd_obj. destruct (decide (a = a')) as [->|Hne].
  - rewrite lookup_alter_eq. by rewrite fmap_is_Some.
  - by rewrite lookup_alter_ne.
Qed.

Lemma upd_obj_twice a f g w : upd_obj a g (upd_obj a f w) = upd_obj a (g ∘ f) w.
Proof.
  unfold upd_obj, set_heap. cbn. f_equal. apply alter_alter_eq.
Qed.

Lemma upd_obj_ext a f g w :
  (∀ o, heap w !! a = Some o → f o = g o) → upd_obj a f w = upd_obj a g w.
Proof.
  intros Hfg. unfold upd_obj, set_heap. f_equal. by apply alter_ext.
Qed.

Lemma upd_obj_id a f w : (∀ o, heap w !! a = Some o → f o = o) → upd_obj a f w = w.
Proof.
  intros Hf. unfold upd_obj, set_heap. rewrite alter_id by done. by destruct w.
Qed.


Lemma keeps_trans base w1 w2 w3 : keeps base w1 w2 → keeps base w2 w3 → keeps base w1 w3.
Proof.
  intros [H1 H2] [H3 H4]. split; [by auto|]. by rewrite H4.
Qed.

(** A write that leaves the members outside the base of every object
    alone is kept. *)
Lemma keeps_upd_obj base a f w :
  (∀ o, obj_shape (f o) = obj_shape o) → keeps base w (upd_obj a f w).
Proof.
  intros Hf. split.
  - intros a'. by rewrite is_Some_upd_obj.
  - rewrite heap_upd_obj. destruct (decide (a = base)) as [->|Hne].
    + rewrite lookup_alter_eq. destruct (heap w !! base); simpl; [|done]. by rewrite Hf.
    + by rewrite lookup_alter_ne.
Qed.

Lemma keeps_upd_base base a f w : keeps base w (upd_obj a (on_base f) w).
Proof. apply keeps_upd_obj. apply obj_shape_on_base. Qed.

Lemma keeps_then_at base w w' s :
  keeps base w w' → then_at w base = Some s →
  ∃ s', heap w' !! base = Some (ThenObj s') ∧
        ThenFuture.fut1 s' = ThenFuture.fut1 s ∧
        ThenFuture.fut2 s' = ThenFuture.fut2 s ∧
        ThenFuture.fut1_completed s' = ThenFuture.fut1_completed s.
Proof.
  intros [_ Hsh]. unfold then_at.
  destruct (heap w !! base) as [[| s0 | |]|]; try done. intros [= ->].
  destruct (heap w' !! base) as [[| s' | |]|]; try done.
  simpl in Hsh. injection Hsh as H1 H2 H3. eauto.
Qed.

Lemma keeps_join_at base w w' s :
  keeps base w w' → join_at w base = Some s →
  ∃ s', heap w' !! base = Some (JoinObj s') ∧
        JoinFuture.set_base (JoinFuture.base s) s' = s.
Proof.
  intros [_ Hsh]. unfold join_at.
  destruct (heap w !! base) as [[| | s0 |]|]; try done. intros [= ->].
  destruct (heap w' !! base) as [[| | s' |]|]; try done.
  simpl in Hsh. injection Hsh as Hsh.
  exists s'. split; [done|]. destruct s, s'; simpl in *. unfold JoinFuture.set_base in *.
  simpl in *. congruence.
Qed.


Lemma then_at_heap w a s : then_at w a = Some s ↔ heap w !! a = Some (ThenObj s).
Proof.
  unfold then_at. destruct (heap w !! a) as [[]|]; naive_solver.
Qed.

Lemma join_at_heap w a s : join_at w a = Some s ↔ heap w !! a = Some (JoinObj s).
Proof.
  unfold join_at. destruct (heap w !! a) as [[]|]; naive_solver.
Qed.

Lemma select_at_heap w a s : select_at w a = Some s ↔ heap w !! a = Some (SelectObj s).
Proof.
  unfold select_at. destruct (heap w !! a) as [[]|]; naive_solver.
Qed.

Lemma base_at_heap w a b : base_at w a = Some b → ∃ o, heap w !! a = Some o ∧ obj_base o = b.
Proof.
  unfold base_at. destruct (heap w !! a) as [o|]; simpl; [|done].
  intros [= <-]. by exists o.
Qed.
End Memory.

Arguments upd_obj : simpl never.

(** Runs a computation of the model forward, using the reads of the memory and
    the results of the calls that the hypotheses give. *)
Ltac mrun :=
  repeat first
    [ progress cbn
    | match goal with
      | H : ?x = Ok _ |- context [?x] => rewrite H
      | H : ?x = Some _ |- context [?x] => rewrite H
      | |- context [heap (upd_obj ?a ?f ?w)] => rewrite (heap_upd_obj a f w)
      | |- context [alter ?f ?a ?m !! ?a] => rewrite (lookup_alter_eq f m a)
      | |- context [decide (?a = ?b)] =>
          first [ rewrite (decide_True (P := a = b)) by done
                | rewrite (decide_False (P := a = b)) by done ]
      | |- context [bool_decide (?a = ?b)] =>
          first [ rewrite (bool_decide_eq_true_2 (a = b)) by done
                | rewrite (bool_decide_eq_false_2 (a = b)) by done ]
      end ].

Lemma M_bind_inv {K L A B} (m : M K L A) (f : A → M K L B) w b w' l :
  (m ≫= f) w = Ok (b, w', l) →
  ∃ a w1 l1 l2, m w = Ok (a, w1, l1) ∧ f a w1 = Ok (b, w', l2) ∧ l = l1 ++ l2.
Proof.
  unfold mbind, M_bind. destruct (m w) as [[[a w1] l1]|]; [|done].
  destruct (f a w1) as [[[b' w2] l2]|] eqn:Hf; [|done].
  intros [= <- <- <-]. by exists a, w1, l1, l2.
Qed.

Lemma M_ret_inv {K L A} (a b : A) (w w' : World K) (l : list L) :
  (mret a : M K L A) w = Ok (b, w', l) → b = a ∧ w' = w ∧ l = [].
Proof. unfold mret, M_ret. by intros [= <- <- <-]. Qed.

Lemma M_bind_ok {K L A B} (m : M K L A) (f : A → M K L B) w a w1 l1 :
  m w = Ok (a, w1, l1) →
  (m ≫= f) w = match f a w1 with
               | Ok (b, w2, l2) => Ok (b, w2, l1 ++ l2)
               | Stop h => Stop h
               end.
Proof. intros Hm. unfold mbind, M_bind. by rewrite Hm. Qed.

Lemma repeat_progress_S_inv {K L} (step : M K L FutureState) n w sts w' l :
  repeat_progress step (S n) w = Ok (sts, w', l) →
  ∃ st w1 l1 sts' l2,
    step w = Ok (st, w1, l1) ∧ repeat_progress step n w1 = Ok (sts', w', l2) ∧
    sts = st :: sts' ∧ l = l1 ++ l2.
Proof.
  cbn [repeat_progress]. intros H.
  apply M_bind_inv in H as (st & w1 & l1 & l2 & Hstep & H & ->).
  apply M_bind_inv in H as (sts' & w2 & l3 & l4 & Hrep & H & ->).
  apply M_ret_inv in H as (-> & -> & ->).
  exists st, w1, l1, sts', l3. by rewrite app_nil_r.
Qed.

(** Inversion of the primitive computations. *)
Section Inversion.
Context {K L : Type}.
Implicit Types (w : World K) (a : addr).

Lemma load_obj_inv a w o w' (l : list L) :
  load_obj a w = Ok (o, w', l) → heap w !! a = Some o ∧ w' = w ∧ l = [].
Proof. unfold load_obj. destruct (heap w !! a); [|done]. by intros [= <- <- <-]. Qed.

Lemma load_base_inv a w b w' (l : list L) :
  load_base a w = Ok (b, w', l) →
  ∃ o, heap w !! a = Some o ∧ b = obj_base o ∧ w' = w ∧ l = [].
Proof.
  unfold load_base. munfold. destruct (heap w !! a) as [o|]; [|done].
  cbn. intros [= <- <- <-]. by exists o.
Qed.

Lemma load_then_inv a w s w' (l : list L) :
  load_then a w = Ok (s, w', l) → heap w !! a = Some (ThenObj s) ∧ w' = w ∧ l = [].
Proof.
  unfold load_then. munfold. destruct (heap w !! a) as [[]|]; try done.
  cbn. by intros [= <- <- <-].
Qed.

Lemma load_join_inv a w s w' (l : list L) :
  load_join a w = Ok (s, w', l) → heap w !! a = Some (JoinObj s) ∧ w' = w ∧ l = [].
Proof.
  unfold load_join. munfold. destruct (heap w !! a) as [[]|]; try done.
  cbn. by intros [= <- <- <-].
Qed.

Lemma load_select_inv a w s w' (l : list L) :
  load_select a w = Ok (s, w', l) → heap w !! a = Some (SelectObj s) ∧ w' = w ∧ l = [].
Proof.
  unfold load_select. munfold. destruct (heap w !! a) as [[]|]; try done.
  cbn. by intros [= <- <- <-].
Qed.

Lemma modify_base_inv a f w u w' (l : list L) :
  modify_base a f w = Ok (u, w', l) →
  is_Some (heap w !! a) ∧ w' = upd_obj a (on_base f) w ∧ l = [].
Proof.
  unfold modify_base. munfold. destruct (heap w !! a) as [o|]; [|done].
  cbn. intros [= <- <-]. eauto.
Qed.

Lemma modify_then_inv a f w u w' (l : list L) :
  modify_then a f w = Ok (u, w', l) →
  (∃ s, heap w !! a = Some (ThenObj s)) ∧ w' = upd_obj a (on_then f) w ∧ l = [].
Proof.
  unfold modify_then. munfold. destruct (heap w !! a) as [[]|]; try done.
  cbn. intros [= <- <-]. eauto.
Qed.

Lemma modify_join_inv a f w u w' (l : list L) :
  modify_join a f w = Ok (u, w', l) →
  (∃ s, heap w !! a = Some (JoinObj s)) ∧ w' = upd_obj a (on_join f) w ∧ l = [].
Proof.
  unfold modify_join. munfold. destruct (heap w !! a) as [[]|]; try done.
  cbn. intros [= <- <-]. eauto.
Qed.

Lemma modify_select_inv a f w u w' (l : list L) :
  modify_select a f w = Ok (u, w', l) →
  (∃ s, heap w !! a = Some (SelectObj s)) ∧ w' = upd_obj a (on_select f) w ∧ l = [].
Proof.
  unfold modify_select. munfold. destruct (heap w !! a) as [[]|]; try done.
  cbn. intros [= <- <-]. eauto.
Qed.

Lemma emit_inv (e : L) w u w' l : emit e w = Ok (u, w', l) → w' = w ∧ l = [e].
Proof. unfold emit. by intros [= <- <-]. Qed.

Lemma get_world_inv w w0 w' (l : list L) :
  get_world w = Ok (w0, w', l) → w0 = w ∧ w' = w ∧ l = [].
Proof. unfold get_world. by intros [= <- <- <-]. Qed.

Lemma put_world_inv w1 w u w' (l : list L) :
  put_world w1 w = Ok (u, w', l) → w' = w1 ∧ l = [].
Proof. unfold put_world. by intros [= <- <-]. Qed.

Lemma lift_res_inv {A} (r : Res A) w (x : A) w' (l : list L) :
  lift_res r w = Ok (x, w', l) → r = Ok x ∧ w' = w ∧ l = [].
Proof. unfold lift_res. destruct r; [|done]. by intros [= <- <- <-]. Qed.

Lemma stop_inv {A} h w (r : A * World K * list L) : stop h w = Ok r → False.
Proof. done. Qed.
End Inversion.

Lemma invoke_inv {K} (call : addr → Waker.t → M K Event FutureState) c fut wk
    (w : World K) st w' l :
  invoke call c fut wk w = Ok (st, w', l) →
  ∃ evs, call fut wk w = Ok (st, w', evs) ∧ l = [mkInvocation c fut st evs].
Proof.
  unfold invoke. destruct (call fut wk w) as [[[st0 w0] evs]|]; [|done].
  intros [= <- <- <-]. by exists evs.
Qed.

(** Takes apart a hypothesis saying that a computation returned. *)
Ltac minv1 :=
  match goal with
  | H : (_ ≫= _) _ = Ok _ |- _ =>
      let a := fresh "a" in let w := fresh "w" in
      let l1 := fresh "l" in let l2 := fresh "l" in let H1 := fresh "H" in
      apply M_bind_inv in H as (a & w & l1 & l2 & H1 & H & ?)
  | H : mret _ _ = Ok _ |- _ => apply M_ret_inv in H as (? & ? & ?)
  | H : load_obj _ _ = Ok _ |- _ => apply load_obj_inv in H as (? & ? & ?)
  | H : load_base _ _ = Ok _ |- _ => apply load_base_inv in H as (? & ? & ? & ? & ?)
  | H : load_then _ _ = Ok _ |- _ => apply load_then_inv in H as (? & ? & ?)
  | H : load_join _ _ = Ok _ |- _ => apply load_join_inv in H as (? & ? & ?)
  | H : load_select _ _ = Ok _ |- _ => apply load_select_inv in H as (? & ? & ?)
  | H : modify_base _ _ _ = Ok _ |- _ => apply modify_base_inv in H as (? & ? & ?)
  | H : modify_then _ _ _ = Ok _ |- _ => apply modify_then_inv in H as ([? ?] & ? & ?)
  | H : modify_join _ _ _ = Ok _ |- _ => apply modify_join_inv in H as ([? ?] & ? & ?)
  | H : modify_select _ _ _ = Ok _ |- _ => apply modify_select_inv in H as ([? ?] & ? & ?)
  | H : emit _ _ = Ok _ |- _ => apply emit_inv in H as (? & ?)
  | H : get_world _ = Ok _ |- _ => apply get_world_inv in H as (? & ? & ?)
  | H : put_world _ _ = Ok _ |- _ => apply put_world_inv in H as (? & ?)
  | H : lift_res _ _ = Ok _ |- _ => apply lift_res_inv in H as (? & ? & ?)
  | H : stop _ _ = Ok _ |- _ => by destruct (stop_inv _ _ _ H)
  | H : invoke _ _ _ _ _ = Ok _ |- _ => apply invoke_inv in H as (? & ? & ?)
  end.

Ltac minv := repeat (minv1; simplify_eq).

(** ** The Then combinator *)

Section ThenProperties.
Context {K : Type} {codes : ErrCodes}.
Variable call : addr → Waker.t → M K Event FutureState.
Variables (base : addr) (waker : Waker.t).
Implicit Types (w : World K) (s : ThenFuture.t).

(** The second half, run in a world where the combinator is [s]. *)
Lemma then_progress_fut2_spec w s st2 w3 ev2 b2 :
  then_at w base = Some s →
  call (ThenFuture.fut2 s) waker w = Ok (st2, w3, ev2) →
  keeps base w w3 →
  base_at w3 (ThenFuture.fut2 s) = Some b2 →
  then_progress_fut2 call base waker w =
    Ok (match st2 with
        | FUTURE_PENDING => (FUTURE_PENDING, w3)
        | FUTURE_FAILURE =>
            (FUTURE_FAILURE,
             upd_obj base (on_base (Future.set_errcode THEN_FUTURE_ERR_FUT2_FAILED)) w3)
        | FUTURE_COMPLETED =>
            (FUTURE_COMPLETED, upd_obj base (on_base (Future.set_ok (Future.ok b2))) w3)
        end, [mkInvocation Fut2 (ThenFuture.fut2 s) st2 ev2]).
Proof.
  intros Hs Hc Hk Hb2.
  destruct (keeps_then_at _ _ _ _ Hk Hs) as (s3 & Hs3 & _ & Hf2 & _).
  apply then_at_heap in Hs.
  apply base_at_heap in Hb2 as (o2 & Ho2 & <-).
  unfold then_progress_fut2. munfold. mrun.
  destruct st2; mrun; [done| |done].
  rewrite Hf2. by mrun.
Qed.

Lemma then_progress_completed w s :
  then_at w base = Some s → ThenFuture.fut1_completed s = true →
  then_progress call base waker w = then_progress_fut2 call base waker w.
Proof.
  intros Hs Hflag. apply then_at_heap in Hs.
  unfold then_progress. munfold. mrun. rewrite Hflag. cbn.
  by destruct (then_progress_fut2 call base waker w) as [[[]]|].
Qed.

(** The world in which fut2 is progressed once fut1 has completed in [w1]:
    the flag is set and the [ok] of fut1 is in the [arg] of fut2. *)
Lemma then_handoff_at w1 s1 fut2 g :
  heap w1 !! base = Some (ThenObj s1) →
  ∃ s2, then_at (upd_obj fut2 (on_base g)
                  (upd_obj base (on_then (ThenFuture.set_fut1_completed true)) w1)) base
          = Some s2 ∧
        ThenFuture.fut1 s2 = ThenFuture.fut1 s1 ∧
        ThenFuture.fut2 s2 = ThenFuture.fut2 s1 ∧
        ThenFuture.fut1_completed s2 = true.
Proof.
  intros Hs1. unfold then_at.
  rewrite heap_upd_obj, lookup_alter. case_decide; subst.
  - rewrite heap_upd_obj, lookup_alter_eq, Hs1. cbn. eauto.
  - rewrite heap_upd_obj, lookup_alter_eq, Hs1. cbn. eauto.
Qed.

Lemma then_progress_fut1_spec w s st1 w1 ev1 :
  then_at w base = Some s → ThenFuture.fut1_completed s = false →
  call (ThenFuture.fut1 s) waker w = Ok (st1, w1, ev1) →
  keeps base w w1 →
  match st1 with
  | FUTURE_PENDING =>
      then_progress call base waker w =
        Ok (FUTURE_PENDING, w1, [mkInvocation Fut1 (ThenFuture.fut1 s) st1 ev1])
  | FUTURE_FAILURE =>
      then_progress call base waker w =
        Ok (FUTURE_FAILURE,
            upd_obj base (on_base (Future.set_errcode THEN_FUTURE_ERR_FUT1_FAILED)) w1,
            [mkInvocation Fut1 (ThenFuture.fut1 s) st1 ev1])
  | FUTURE_COMPLETED =>
      ∀ b1, base_at w1 (ThenFuture.fut1 s) = Some b1 →
      is_Some (heap w1 !! ThenFuture.fut2 s) →
      then_progress call base waker w =
        match then_progress_fut2 call base waker
                (upd_obj (ThenFuture.fut2 s) (on_base (Future.set_arg (Future.ok b1)))
                   (upd_obj base (on_then (ThenFuture.set_fut1_completed true)) w1)) with
        | Ok (st, w', invs) =>
            Ok (st, w', mkInvocation Fut1 (ThenFuture.fut1 s) st1 ev1 :: invs)
        | Stop h => Stop h
        end
  end.
Proof.
  intros Hs Hflag Hc Hk.
  destruct (keeps_then_at _ _ _ _ Hk Hs) as (s1 & Hs1 & Hf1 & Hf2 & _).
  apply then_at_heap in Hs.
  destruct st1.
  - unfold then_progress. munfold. mrun. rewrite Hflag. by mrun.
  - intros b1 Hb1 [o2 Ho2].
    apply base_at_heap in Hb1 as (o1 & Ho1 & <-).
    unfold then_progress. munfold. mrun. rewrite Hflag. mrun.
    rewrite Hf1, Hf2.
    assert (Hr1 : obj_base <$> (alter (on_then (ThenFuture.set_fut1_completed true)) base
                         (heap w1) !! ThenFuture.fut1 s) = Some (obj_base o1)).
    { rewrite lookup_alter. case_decide; subst.
      - rewrite Ho1. cbn. rewrite Ho1 in Hs1. by injection Hs1 as ->.
      - by rewrite Ho1. }
    destruct (alter (on_then (ThenFuture.set_fut1_completed true)) base (heap w1)
                !! ThenFuture.fut1 s) as [o1'|] eqn:Ho1'; [|done].
    injection Hr1 as Hr1. mrun. rewrite Hr1.
    assert (Hr2 : is_Some (alter (on_then (ThenFuture.set_fut1_completed true)) base
                         (heap w1) !! ThenFuture.fut2 s)).
    { rewrite lookup_alter_is_Some. by rewrite Ho2. }
    destruct Hr2 as [o2' Ho2']. rewrite Ho2'. mrun.
    match goal with
    | |- context [then_progress_fut2 call base waker ?w2] =>
        destruct (then_progress_fut2 call base waker w2) as [[[st w'] invs]|]
    end; by mrun.
  - unfold then_progress. munfold. mrun. rewrite Hflag. by mrun.
Qed.

Section Framed.
(** Here the calls on the two children [f1] and [f2] of the combinator,
    made in a world where [P] holds, leave the members of the combinator
    alone and keep [P]; and [P] does not depend on what [then_progress]
    itself writes: the object at [base] and the [arg] of [f2]. *)
Variables (f1 f2 : addr) (P : World K → Prop).
Hypothesis call_keeps :
  ∀ fut wa st wb evs, fut = f1 ∨ fut = f2 → P wa →
    call fut waker wa = Ok (st, wb, evs) → keeps base wa wb ∧ P wb.
Hypothesis P_base : ∀ wa f, P wa → P (upd_obj base f wa).
Hypothesis P_arg : ∀ wa v, P wa → P (upd_obj f2 (on_base (Future.set_arg v)) wa).

Lemma then_progress_fut2_inv w s st w' invs :
  P w → then_at w base = Some s → ThenFuture.fut2 s = f2 →
  then_progress_fut2 call base waker w = Ok (st, w', invs) →
  keeps base w w' ∧ P w' ∧
  ∃ st2 ev2, invs = [mkInvocation Fut2 f2 st2 ev2].
Proof.
  intros HP Hs Hf. pose proof Hs as Hs'. apply then_at_heap in Hs'.
  unfold then_progress_fut2. munfold. mrun. rewrite Hf.
  destruct (call f2 waker w) as [[[st2 w3] ev2]|] eqn:Hc; [|done].
  destruct (call_keeps f2 _ _ _ _ (or_intror eq_refl) HP Hc) as [Hk HP3].
  destruct (keeps_then_at _ _ _ _ Hk Hs) as (s3 & Hs3 & _ & Hf2 & _).
  mrun. destruct st2; mrun.
  - intros [= <- <- <-]. eauto.
  - destruct (heap w3 !! ThenFuture.fut2 s3) as [o2|]; [|done]. mrun.
    intros [= <- <- <-]. split; [|split; [by apply P_base|eauto]].
    eapply keeps_trans; [done|]. apply keeps_upd_base.
  - intros [= <- <- <-]. split; [|split; [by apply P_base|eauto]].
    eapply keeps_trans; [done|]. apply keeps_upd_base.
Qed.

Lemma then_progress_inv w s st w' invs :
  P w → then_at w base = Some s →
  ThenFuture.fut1 s = f1 → ThenFuture.fut2 s = f2 →
  then_progress call base waker w = Ok (st, w', invs) →
  P w' ∧
  ∃ s', then_at w' base = Some s' ∧
    ThenFuture.fut1 s' = f1 ∧ ThenFuture.fut2 s' = f2 ∧
    if ThenFuture.fut1_completed s
    then ThenFuture.fut1_completed s' = true ∧
         ∃ st2 ev2, invs = [mkInvocation Fut2 f2 st2 ev2]
    else ∃ st1 ev1,
         (st1 ≠ FUTURE_COMPLETED ∧ ThenFuture.fut1_completed s' = false ∧
          invs = [mkInvocation Fut1 f1 st1 ev1]) ∨
         (st1 = FUTURE_COMPLETED ∧ ThenFuture.fut1_completed s' = true ∧
          ∃ st2 ev2, invs = [mkInvocation Fut1 f1 st1 ev1;
                             mkInvocation Fut2 f2 st2 ev2]).
Proof.
  intros HP Hs Hfa Hfb H.
  destruct (ThenFuture.fut1_completed s) eqn:Hflag.
  - rewrite (then_progress_completed w s) in H by done.
    apply then_progress_fut2_inv with (s := s) in H as (Hk & HP' & Hinv); [|done..].
    destruct (keeps_then_at _ _ _ _ Hk Hs) as (s' & Hs' & Hg1 & Hg2 & Hfl).
    split; [done|].
    exists s'. rewrite then_at_heap. split; [done|].
    split; [congruence|]. split; [congruence|]. split; [congruence|done].
  - destruct (call (ThenFuture.fut1 s) waker w) as [[[st1 w1] ev1]|] eqn:Hc.
    2:{ revert H. pose proof Hs as Hs'. apply then_at_heap in Hs'.
        unfold then_progress. munfold. mrun. rewrite Hflag. mrun. by rewrite Hc. }
    destruct (call_keeps (ThenFuture.fut1 s) _ _ _ _ (or_introl Hfa) HP Hc) as [Hk HP1].
    destruct (keeps_then_at _ _ _ _ Hk Hs) as (s1 & Hs1 & Hf1 & Hf2 & Hfl).
    pose proof (then_progress_fut1_spec w s st1 w1 ev1 Hs Hflag Hc Hk) as Hspec.
    destruct st1.
    + rewrite Hspec in H. injection H as <- <- <-.
      split; [done|].
      exists s1. rewrite then_at_heap. split; [done|].
      split; [congruence|]. split; [congruence|].
      exists FUTURE_PENDING, ev1. left. split; [done|]. split; [congruence|].
      by rewrite Hfa.
    + clear Hspec. revert H. pose proof Hs as Hs'. apply then_at_heap in Hs'.
      unfold then_progress. munfold. mrun. rewrite Hflag. mrun.
      rewrite Hf1, Hf2.
      destruct (alter (on_then (ThenFuture.set_fut1_completed true)) base (heap w1)
                  !! ThenFuture.fut1 s) as [o1|] eqn:Ho1; [|done].
      mrun.
      destruct (alter (on_then (ThenFuture.set_fut1_completed true)) base (heap w1)
                  !! ThenFuture.fut2 s) as [o2|] eqn:Ho2; [|done].
      mrun.
      destruct (then_handoff_at w1 s1 (ThenFuture.fut2 s)
                  (Future.set_arg (Future.ok (obj_base o1))) Hs1)
        as (s2 & Hs2 & Hg1 & Hg2 & Hgfl).
      match goal with
      | |- context [then_progress_fut2 call base waker ?w2] =>
          destruct (then_progress_fut2 call base waker w2) as [[[st2 w2'] invs2]|] eqn:H2
      end; [|done].
      mrun. intros [= <- <- <-].
      apply then_progress_fut2_inv with (s := s2) in H2
        as (Hk2 & HP2 & st2' & ev2 & ->); [|by rewrite Hfb; apply P_arg, P_base|done|congruence].
      destruct (keeps_then_at _ _ _ _ Hk2 Hs2) as (s' & Hsf & Hh1 & Hh2 & Hfl').
      split; [done|].
      exists s'. rewrite then_at_heap. split; [done|].
      split; [congruence|]. split; [congruence|].
      exists FUTURE_COMPLETED, ev1. right. split; [done|]. split; [congruence|].
      exists st2', ev2. by rewrite Hfa.
    + rewrite Hspec in H. injection H as <- <- <-.
      destruct (keeps_then_at base w
                  (upd_obj base (on_base (Future.set_errcode THEN_FUTURE_ERR_FUT1_FAILED)) w1) s)
        as (s' & Hs' & Hh1 & Hh2 & Hfl'); [|done|].
      { eapply keeps_trans; [done|]. apply keeps_upd_base. }
      split; [by apply P_base|].
      exists s'. rewrite then_at_heap. split; [done|].
      split; [congruence|]. split; [congruence|].
      exists FUTURE_FAILURE, ev1. left. split; [done|]. split; [congruence|].
      by rewrite Hfa.
Qed.

(** In the invocations of any number of consecutive calls, fut2 is
    progressed only after fut1 has returned FUTURE_COMPLETED, unless the
    flag was already set at the start. *)
Lemma then_repeat_ordered n : ∀ w s sts w' invs,
  P w → then_at w base = Some s →
  ThenFuture.fut1 s = f1 → ThenFuture.fut2 s = f2 →
  repeat_progress (then_progress call base waker) n w = Ok (sts, w', invs) →
  ∀ i inv, invs !! i = Some inv → inv_child inv = Fut2 →
    ThenFuture.fut1_completed s = true ∨
    ∃ j inv1, (j < i)%nat ∧ invs !! j = Some inv1 ∧
              inv_child inv1 = Fut1 ∧ inv_state inv1 = FUTURE_COMPLETED.
Proof.
  induction n as [|n IH]; intros w s sts w' invs HP Hs Hfa Hfb Hrep i inv Hi Hc.
  - apply M_ret_inv in Hrep as (_ & _ & ->). done.
  - apply repeat_progress_S_inv in Hrep
      as (st & w1 & l1 & sts' & l2 & Hstep & Hrep & -> & ->).
    destruct (then_progress_inv _ _ _ _ _ HP Hs Hfa Hfb Hstep)
      as (HP1 & s1 & Hs1 & Hga & Hgb & Hcase).
    destruct (ThenFuture.fut1_completed s) eqn:Hflag; [by left|]. right.
    destruct Hcase as (st1 & ev1 & [(Hne & Hfl1 & ->)|(-> & Hfl1 & st2 & ev2 & ->)]).
    + destruct i as [|i]; simpl in Hi.
      { injection Hi as <-. done. }
      destruct (IH _ _ _ _ _ HP1 Hs1 Hga Hgb Hrep i inv Hi Hc)
        as [Habs|(j & inv1 & Hj & Hl & H1 & H2)].
      { congruence. }
      exists (S j), inv1. split; [lia|done].
    + exists 0%nat, (mkInvocation Fut1 f1 FUTURE_COMPLETED ev1).
      split; [|done].
      destruct i as [|i]; [|lia]. simpl in Hi. injection Hi as <-. done.
Qed.
End Framed.

(** C4. One call of [then_progress] on the ThenFuture [s] at [base], and
    any number of consecutive calls. While fut1 has not completed, the call
    progresses fut1: if fut1 returns FUTURE_PENDING so does the call, and
    fut2 is not progressed; if fut1 returns FUTURE_FAILURE the call
    returns FUTURE_FAILURE with errcode THEN_FUTURE_ERR_FUT1_FAILED and
    fut2 is not progressed; if fut1 returns FUTURE_COMPLETED the flag is
    set and [fut1.ok] is copied into [fut2.arg], and fut2 is progressed in
    the world so obtained. When fut2 is progressed: FUTURE_PENDING is
    passed on, FUTURE_FAILURE gives errcode THEN_FUTURE_ERR_FUT2_FAILED, and
    FUTURE_COMPLETED copies [fut2.ok] into the [ok] of the combinator.
    Over consecutive calls starting with the flag unset, every progress of
    fut2 comes after a progress of fut1 that returned FUTURE_COMPLETED,
    provided the progress calls on the two children leave the members of
    the combinator alone in the worlds of the run: the worlds where [P]
    holds, [P] being kept by these calls and by what [then_progress] itself
    writes (the object at [base] and the [arg] of fut2). *)
Theorem then_progress_sequential (w : World K) (s : ThenFuture.t) :
  then_at w base = Some s →
  let fut1 := ThenFuture.fut1 s in
  let fut2 := ThenFuture.fut2 s in
  (* fut2 is progressed in the world [w2], after the invocations [pre] *)
  let second (w2 : World K) (pre : list Invocation) : Prop :=
    ∀ st2 w3 ev2 b2,
      call fut2 waker w2 = Ok (st2, w3, ev2) → keeps base w2 w3 →
      base_at w3 fut2 = Some b2 →
      then_progress call base waker w =
        Ok (match st2 with
            | FUTURE_PENDING => (FUTURE_PENDING, w3)
            | FUTURE_FAILURE =>
                (FUTURE_FAILURE,
                 upd_obj base (on_base (Future.set_errcode THEN_FUTURE_ERR_FUT2_FAILED)) w3)
            | FUTURE_COMPLETED =>
                (FUTURE_COMPLETED,
                 upd_obj base (on_base (Future.set_ok (Future.ok b2))) w3)
            end, pre ++ [mkInvocation Fut2 fut2 st2 ev2]) in
  (ThenFuture.fut1_completed s = true → second w []) ∧
  (ThenFuture.fut1_completed s = false →
     ∀ st1 w1 ev1,
       call fut1 waker w = Ok (st1, w1, ev1) → keeps base w w1 →
       match st1 with
       | FUTURE_PENDING =>
           then_progress call base waker w =
             Ok (FUTURE_PENDING, w1, [mkInvocation Fut1 fut1 st1 ev1])
       | FUTURE_FAILURE =>
           then_progress call base waker w =
             Ok (FUTURE_FAILURE,
                 upd_obj base (on_base (Future.set_errcode THEN_FUTURE_ERR_FUT1_FAILED)) w1,
                 [mkInvocation Fut1 fut1 st1 ev1])
       | FUTURE_COMPLETED =>
           ∀ b1, base_at w1 fut1 = Some b1 → is_Some (heap w1 !! fut2) →
             let w2 := upd_obj fut2 (on_base (Future.set_arg (Future.ok b1)))
                         (upd_obj base (on_then (ThenFuture.set_fut1_completed true)) w1) in
             Future.arg <$> base_at w2 fut2 = Some (Future.ok b1) ∧
             ThenFuture.fut1_completed <$> then_at w2 base = Some true ∧
             second w2 [mkInvocation Fut1 fut1 st1 ev1]
       end) ∧
  (ThenFuture.fut1_completed s = false →
     ∀ P : World K → Prop,
       P w →
       (∀ fut wa st wb evs, fut = fut1 ∨ fut = fut2 → P wa →
          call fut waker wa = Ok (st, wb, evs) → keeps base wa wb ∧ P wb) →
       (∀ wa f, P wa → P (upd_obj base f wa)) →
       (∀ wa v, P wa → P (upd_obj fut2 (on_base (Future.set_arg v)) wa)) →
       ∀ n sts w' invs,
         repeat_progress (then_progress call base waker) n w = Ok (sts, w', invs) →
         ∀ i inv, invs !! i = Some inv → inv_child inv = Fut2 →
           ∃ j inv1, (j < i)%nat ∧ invs !! j = Some inv1 ∧
                     inv_child inv1 = Fut1 ∧ inv_state inv1 = FUTURE_COMPLETED).
Proof.
  intros Hs fut1 fut2 second. split; [|split].
  - intros Hflag st2 w3 ev2 b2 Hc Hk Hb2.
    rewrite (then_progress_completed w s Hs Hflag).
    by rewrite (then_progress_fut2_spec w s st2 w3 ev2 b2).
  - intros Hflag st1 w1 ev1 Hc Hk.
    pose proof (then_progress_fut1_spec w s st1 w1 ev1 Hs Hflag Hc Hk) as Hspec.
    destruct st1; [done| |done].
    intros b1 Hb1 Hf2 w2.
    destruct (keeps_then_at _ _ _ _ Hk Hs) as (s1 & Hs1 & Hf1' & Hf2' & _).
    destruct (then_handoff_at w1 s1 fut2 (Future.set_arg (Future.ok b1)) Hs1)
      as (s2 & Hs2 & Hg1 & Hg2 & Hgfl).
    fold w2 in Hs2.
    split; [|split].
    + destruct Hf2 as [o2 Ho2]. subst w2.
      unfold base_at. rewrite heap_upd_obj, lookup_alter_eq, heap_upd_obj, lookup_alter.
      case_decide; subst; rewrite Ho2; cbn; f_equal; [by destruct o2 as [| [] | |]|by destruct o2].
    + rewrite Hs2. cbn. by rewrite Hgfl.
    + intros st2 w3 ev2 b2 Hc2 Hk2 Hb2.
      rewrite (Hspec b1 Hb1 Hf2). fold fut1 fut2 w2.
      assert (Hfut2 : ThenFuture.fut2 s2 = fut2) by (by rewrite Hg2, Hf2').
      rewrite <- Hfut2 in Hc2, Hb2.
      rewrite (then_progress_fut2_spec w2 s2 st2 w3 ev2 b2 Hs2 Hc2 Hk2 Hb2).
      rewrite Hfut2. by destruct st2.
  - intros Hflag P HP Hframe Hbase Harg n sts w' invs Hrep i inv Hi Hc.
    destruct (then_repeat_ordered fut1 fut2 P Hframe Hbase Harg n w s sts w' invs
                HP Hs eq_refl eq_refl Hrep i inv Hi Hc)
      as [Habs|Hex]; [congruence|done].
Qed.
End ThenProperties.


(** ** The Join combinator *)

Section JoinProperties.
Context {K : Type} {codes : ErrCodes}.
Variable call : addr → Waker.t → M K Event FutureState.
Variables (base : addr) (waker : Waker.t).
Implicit Types (w : World K) (s : JoinFuture.t).

Lemma join_progress_fut1_skip w s :
  join_at w base = Some s → JoinFuture.fut1_completed s ≠ FUTURE_PENDING →
  join_progress_fut1 call base waker w = Ok (tt, w, []).
Proof.
  intros Hs Hne. apply join_at_heap in Hs.
  unfold join_progress_fut1. munfold. by mrun.
Qed.

Lemma join_progress_fut2_skip w s :
  join_at w base = Some s → JoinFuture.fut2_completed s ≠ FUTURE_PENDING →
  join_progress_fut2 call base waker w = Ok (tt, w, []).
Proof.
  intros Hs Hne. apply join_at_heap in Hs.
  unfold join_progress_fut2. munfold. by mrun.
Qed.

Lemma join_progress_fut1_run w s st1 w1 ev1 b1 :
  join_at w base = Some s → JoinFuture.fut1_completed s = FUTURE_PENDING →
  call (JoinFuture.fut1 s) waker w = Ok (st1, w1, ev1) →
  keeps base w w1 →
  base_at w1 (JoinFuture.fut1 s) = Some b1 →
  join_progress_fut1 call base waker w =
    Ok (tt, upd_obj base (on_join (join_cache Fut1 st1 b1)) w1,
        [mkInvocation Fut1 (JoinFuture.fut1 s) st1 ev1]).
Proof.
  intros Hs Hp Hc Hk Hb1.
  destruct (keeps_join_at _ _ _ _ Hk Hs) as (s1 & Hs1 & Heq).
  assert (Hf1 : JoinFuture.fut1 s1 = JoinFuture.fut1 s) by (by rewrite <- Heq).
  apply join_at_heap in Hs.
  apply base_at_heap in Hb1 as (o1 & Ho1 & <-).
  unfold join_progress_fut1. munfold. mrun.
  destruct st1; mrun.
  - rewrite upd_obj_id; [done|]. by intros [].
  - rewrite Hf1.
    assert (Hr1 : obj_base <$> (alter (on_join (JoinFuture.set_fut1_completed FUTURE_COMPLETED))
                     base (heap w1) !! JoinFuture.fut1 s) = Some (obj_base o1)).
    { rewrite lookup_alter. case_decide; subst.
      - rewrite Ho1. cbn. rewrite Ho1 in Hs1. by injection Hs1 as ->.
      - by rewrite Ho1. }
    destruct (alter (on_join (JoinFuture.set_fut1_completed FUTURE_COMPLETED)) base (heap w1)
                !! JoinFuture.fut1 s) as [o1'|] eqn:Ho1'; [|done].
    injection Hr1 as Hr1. mrun. rewrite Hr1.
    f_equal. f_equal. f_equal.
    rewrite !upd_obj_twice. apply upd_obj_ext.
    intros o Ho. rewrite Hs1 in Ho. injection Ho as <-. done.
  - rewrite Hf1.
    assert (Hr1 : obj_base <$> (alter (on_join (JoinFuture.set_fut1_completed FUTURE_FAILURE))
                     base (heap w1) !! JoinFuture.fut1 s) = Some (obj_base o1)).
    { rewrite lookup_alter. case_decide; subst.
      - rewrite Ho1. cbn. rewrite Ho1 in Hs1. by injection Hs1 as ->.
      - by rewrite Ho1. }
    destruct (alter (on_join (JoinFuture.set_fut1_completed FUTURE_FAILURE)) base (heap w1)
                !! JoinFuture.fut1 s) as [o1'|] eqn:Ho1'; [|done].
    injection Hr1 as Hr1. mrun. rewrite Hr1.
    f_equal. f_equal. f_equal.
    rewrite !upd_obj_twice. apply upd_obj_ext.
    intros o Ho. rewrite Hs1 in Ho. injection Ho as <-. done.
Qed.

Lemma join_progress_fut2_run w s st2 w1 ev2 b2 :
  join_at w base = Some s → JoinFuture.fut2_completed s = FUTURE_PENDING →
  call (JoinFuture.fut2 s) waker w = Ok (st2, w1, ev2) →
  keeps base w w1 →
  base_at w1 (JoinFuture.fut2 s) = Some b2 →
  join_progress_fut2 call base waker w =
    Ok (tt, upd_obj base (on_join (join_cache Fut2 st2 b2)) w1,
        [mkInvocation Fut2 (JoinFuture.fut2 s) st2 ev2]).
Proof.
  intros Hs Hp Hc Hk Hb2.
  destruct (keeps_join_at _ _ _ _ Hk Hs) as (s1 & Hs1 & Heq).
  assert (Hf2 : JoinFuture.fut2 s1 = JoinFuture.fut2 s) by (by rewrite <- Heq).
  apply join_at_heap in Hs.
  apply base_at_heap in Hb2 as (o2 & Ho2 & <-).
  unfold join_progress_fut2. munfold. mrun.
  destruct st2; mrun.
  - rewrite upd_obj_id; [done|]. by intros [].
  - rewrite Hf2.
    assert (Hr2 : obj_base <$> (alter (on_join (JoinFuture.set_fut2_completed FUTURE_COMPLETED))
                     base (heap w1) !! JoinFuture.fut2 s) = Some (obj_base o2)).
    { rewrite lookup_alter. case_decide; subst.
      - rewrite Ho2. cbn. rewrite Ho2 in Hs1. by injection Hs1 as ->.
      - by rewrite Ho2. }
    destruct (alter (on_join (JoinFuture.set_fut2_completed FUTURE_COMPLETED)) base (heap w1)
                !! JoinFuture.fut2 s) as [o2'|] eqn:Ho2'; [|done].
    injection Hr2 as Hr2. mrun. rewrite Hr2.
    f_equal. f_equal. f_equal.
    rewrite !upd_obj_twice. apply upd_obj_ext.
    intros o Ho. rewrite Hs1 in Ho. injection Ho as <-. done.
  - rewrite Hf2.
    assert (Hr2 : obj_base <$> (alter (on_join (JoinFuture.set_fut2_completed FUTURE_FAILURE))
                     base (heap w1) !! JoinFuture.fut2 s) = Some (obj_base o2)).
    { rewrite lookup_alter. case_decide; subst.
      - rewrite Ho2. cbn. rewrite Ho2 in Hs1. by injection Hs1 as ->.
      - by rewrite Ho2. }
    destruct (alter (on_join (JoinFuture.set_fut2_completed FUTURE_FAILURE)) base (heap w1)
                !! JoinFuture.fut2 s) as [o2'|] eqn:Ho2'; [|done].
    injection Hr2 as Hr2. mrun. rewrite Hr2.
    f_equal. f_equal. f_equal.
    rewrite !upd_obj_twice. apply upd_obj_ext.
    intros o Ho. rewrite Hs1 in Ho. injection Ho as <-. done.
Qed.

Lemma join_progress_result_spec w s :
  join_at w base = Some s →
  join_progress_result base w =
    Ok (match JoinFuture.fut1_completed s, JoinFuture.fut2_completed s with
        | FUTURE_PENDING, _ | _, FUTURE_PENDING => (FUTURE_PENDING, w)
        | FUTURE_FAILURE, FUTURE_FAILURE =>
            (FUTURE_FAILURE,
             upd_obj base (on_base (Future.set_errcode JOIN_FUTURE_ERR_BOTH_FUTS_FAILED)) w)
        | FUTURE_FAILURE, FUTURE_COMPLETED =>
            (FUTURE_FAILURE,
             upd_obj base (on_base (Future.set_errcode JOIN_FUTURE_ERR_FUT1_FAILED)) w)
        | FUTURE_COMPLETED, FUTURE_FAILURE =>
            (FUTURE_FAILURE,
             upd_obj base (on_base (Future.set_errcode JOIN_FUTURE_ERR_FUT2_FAILED)) w)
        | FUTURE_COMPLETED, FUTURE_COMPLETED =>
            (FUTURE_COMPLETED,
             upd_obj base
               (on_base (Future.set_ok (JoinFuture.ok (JoinFuture.result_fut1 s)))) w)
        end, []).
Proof.
  intros Hs. apply join_at_heap in Hs.
  unfold join_progress_result. munfold. mrun.
  destruct (JoinFuture.fut1_completed s), (JoinFuture.fut2_completed s); by mrun.
Qed.

(** What the JoinFuture holds after the outcome of a child was recorded. *)
Lemma join_same_members s s1 :
  JoinFuture.set_base (JoinFuture.base s) s1 = s →
  JoinFuture.fut1 s1 = JoinFuture.fut1 s ∧
  JoinFuture.fut2 s1 = JoinFuture.fut2 s ∧
  JoinFuture.fut1_completed s1 = JoinFuture.fut1_completed s ∧
  JoinFuture.fut2_completed s1 = JoinFuture.fut2_completed s ∧
  JoinFuture.result_fut1 s1 = JoinFuture.result_fut1 s ∧
  JoinFuture.result_fut2 s1 = JoinFuture.result_fut2 s.
Proof. intros <-. by destruct s1. Qed.

Lemma join_at_cached w1 s1 f :
  heap w1 !! base = Some (JoinObj s1) →
  join_at (upd_obj base (on_join f) w1) base = Some (f s1).
Proof.
  intros Hs1. unfold join_at. by rewrite heap_upd_obj, lookup_alter_eq, Hs1.
Qed.

Lemma join_child_step_fut1 w s c1 wa ia :
  join_at w base = Some s →
  join_child_step call base waker Fut1 (JoinFuture.fut1 s) (JoinFuture.fut1_completed s)
    w c1 wa ia →
  join_progress_fut1 call base waker w = Ok (tt, wa, ia) ∧
  ∃ sa, join_at wa base = Some sa ∧
    JoinFuture.fut1 sa = JoinFuture.fut1 s ∧
    JoinFuture.fut2 sa = JoinFuture.fut2 s ∧
    JoinFuture.fut1_completed sa = c1 ∧
    JoinFuture.fut2_completed sa = JoinFuture.fut2_completed s ∧
    JoinFuture.result_fut2 sa = JoinFuture.result_fut2 s ∧
    (JoinFuture.fut1_completed s ≠ FUTURE_PENDING →
       JoinFuture.result_fut1 sa = JoinFuture.result_fut1 s).
Proof.
  intros Hs [(Hne & -> & -> & ->)|(Hp & w1 & ev & b & Hc & Hk & Hb & -> & ->)].
  - split; [by eapply join_progress_fut1_skip|]. exists s. by repeat split.
  - split; [by apply join_progress_fut1_run|].
    destruct (keeps_join_at _ _ _ _ Hk Hs) as (s1 & Hs1 & Heq).
    destruct (join_same_members _ _ Heq) as (E1 & E2 & E3 & E4 & E5 & E6).
    eexists. split; [by apply join_at_cached|].
    destruct c1; repeat split; cbn; congruence.
Qed.

Lemma join_child_step_fut2 w s c2 wb ib :
  join_at w base = Some s →
  join_child_step call base waker Fut2 (JoinFuture.fut2 s) (JoinFuture.fut2_completed s)
    w c2 wb ib →
  join_progress_fut2 call base waker w = Ok (tt, wb, ib) ∧
  ∃ sb, join_at wb base = Some sb ∧
    JoinFuture.fut1_completed sb = JoinFuture.fut1_completed s ∧
    JoinFuture.fut2_completed sb = c2 ∧
    JoinFuture.result_fut1 sb = JoinFuture.result_fut1 s ∧
    (JoinFuture.fut2_completed s ≠ FUTURE_PENDING →
       JoinFuture.result_fut2 sb = JoinFuture.result_fut2 s).
Proof.
  intros Hs [(Hne & -> & -> & ->)|(Hp & w1 & ev & b & Hc & Hk & Hb & -> & ->)].
  - split; [by eapply join_progress_fut2_skip|]. exists s. by repeat split.
  - split; [by apply join_progress_fut2_run|].
    destruct (keeps_join_at _ _ _ _ Hk Hs) as (s1 & Hs1 & Heq).
    destruct (join_same_members _ _ Heq) as (E1 & E2 & E3 & E4 & E5 & E6).
    eexists. split; [by apply join_at_cached|].
    destruct c2; repeat split; cbn; congruence.
Qed.

(** C5. One call of [join_progress] on the JoinFuture [s] at [base]. Each
    child is dealt with by one [join_child_step], fut1 first: a child whose
    recorded state is not FUTURE_PENDING is not progressed and its cached
    result stays; a pending child is progressed exactly once and, if it
    returned a terminal state, that state and the snapshot of its
    [ok]/[errcode] are recorded. The call then returns FUTURE_PENDING while
    a recorded state is FUTURE_PENDING, FUTURE_FAILURE with errcode
    JOIN_FUTURE_ERR_BOTH_FUTS_FAILED, JOIN_FUTURE_ERR_FUT1_FAILED or
    JOIN_FUTURE_ERR_FUT2_FAILED when both, only fut1 or only fut2 failed,
    and FUTURE_COMPLETED with [ok] set to the cached [ok] of fut1 when both
    completed. *)
Theorem join_progress_concurrent (w : World K) (s : JoinFuture.t) :
  join_at w base = Some s →
  ∀ c1 wa ia c2 wb ib,
    join_child_step call base waker Fut1 (JoinFuture.fut1 s) (JoinFuture.fut1_completed s)
      w c1 wa ia →
    join_child_step call base waker Fut2 (JoinFuture.fut2 s) (JoinFuture.fut2_completed s)
      wa c2 wb ib →
    ∃ sb, join_at wb base = Some sb ∧
      JoinFuture.fut1_completed sb = c1 ∧
      JoinFuture.fut2_completed sb = c2 ∧
      (JoinFuture.fut1_completed s ≠ FUTURE_PENDING →
         JoinFuture.result_fut1 sb = JoinFuture.result_fut1 s) ∧
      (JoinFuture.fut2_completed s ≠ FUTURE_PENDING →
         JoinFuture.result_fut2 sb = JoinFuture.result_fut2 s) ∧
      join_progress call base waker w =
        Ok (match c1, c2 with
            | FUTURE_PENDING, _ | _, FUTURE_PENDING => (FUTURE_PENDING, wb)
            | FUTURE_FAILURE, FUTURE_FAILURE =>
                (FUTURE_FAILURE,
                 upd_obj base
                   (on_base (Future.set_errcode JOIN_FUTURE_ERR_BOTH_FUTS_FAILED)) wb)
            | FUTURE_FAILURE, FUTURE_COMPLETED =>
                (FUTURE_FAILURE,
                 upd_obj base (on_base (Future.set_errcode JOIN_FUTURE_ERR_FUT1_FAILED)) wb)
            | FUTURE_COMPLETED, FUTURE_FAILURE =>
                (FUTURE_FAILURE,
                 upd_obj base (on_base (Future.set_errcode JOIN_FUTURE_ERR_FUT2_FAILED)) wb)
            | FUTURE_COMPLETED, FUTURE_COMPLETED =>
                (FUTURE_COMPLETED,
                 upd_obj base
                   (on_base (Future.set_ok (JoinFuture.ok (JoinFuture.result_fut1 sb)))) wb)
            end, ia ++ ib).
Proof.
  intros Hs c1 wa ia c2 wb ib H1 H2.
  destruct (join_child_step_fut1 w s c1 wa ia Hs H1)
    as (Hrun1 & sa & Hsa & Hf1 & Hf2 & Hc1 & Hc2 & Hr2 & Hr1).
  rewrite <- Hf2, <- Hc2 in H2.
  destruct (join_child_step_fut2 wa sa c2 wb ib Hsa H2)
    as (Hrun2 & sb & Hsb & Hd1 & Hd2 & Hq1 & Hq2).
  exists sb. split; [done|]. split; [congruence|]. split; [done|].
  split; [intros Hne; rewrite Hq1; by apply Hr1|].
  split; [intros Hne; rewrite Hq2, Hr2; [done|congruence]|].
  unfold join_progress.
  rewrite (M_bind_ok _ _ _ _ _ _ Hrun1), (M_bind_ok _ _ _ _ _ _ Hrun2).
  rewrite (join_progress_result_spec wb sb Hsb).
  rewrite Hd1, Hc1, Hd2, app_nil_r.
  by destruct c1, c2.
Qed.
End JoinProperties.

(** ** The Select combinator *)

Section SelectProperties.
Context {K : Type} {codes : ErrCodes}.
Variable call : addr → Waker.t → M K Event FutureState.
Variables (base : addr) (waker : Waker.t).
Implicit Types (w : World K) (s : SelectFuture.t).





(** A select whose tag is terminal returns at once. *)
Lemma select_progress_terminal w s fut b :
  select_at w base = Some s →
  base_at w fut = Some b →
  match SelectFuture.which_completed s with
  | SELECT_COMPLETED_FUT1 =>
      fut = SelectFuture.fut1 s →
      select_progress call base waker w =
        Ok (FUTURE_COMPLETED, upd_obj base (on_base (Future.set_ok (Future.ok b))) w, [])
  | SELECT_COMPLETED_FUT2 =>
      fut = SelectFuture.fut2 s →
      select_progress call base waker w =
        Ok (FUTURE_COMPLETED, upd_obj base (on_base (Future.set_ok (Future.ok b))) w, [])
  | SELECT_FAILED_BOTH =>
      fut = SelectFuture.fut1 s →
      select_progress call base waker w =
        Ok (FUTURE_FAILURE,
            upd_obj base (on_base (Future.set_errcode (Future.errcode b))) w, [])
  | _ => select_progress call base waker w = select_progress_fut1 call base waker w
  end.
Proof.
  intros Hs Hb. apply select_at_heap in Hs.
  apply base_at_heap in Hb as (o & Ho & <-).
  unfold select_progress. munfold. mrun.
  destruct (SelectFuture.which_completed s); try (intros ->); mrun; try done;
    by destruct (select_progress_fut1 call base waker w) as [[[]]|].
Qed.

(** The last steps of every path that returns FUTURE_COMPLETED: under a
    completed tag, the [ok] of the winner is copied. *)
Lemma select_finish_settled w s fut o :
  heap w !! base = Some (SelectObj s) →
  select_winner s = Some fut →
  heap w !! fut = Some o →
  let w1 := upd_obj base (on_base (Future.set_ok (Future.ok (obj_base o)))) w in
  select_settled base w1 (Future.ok (obj_base o)) ∧
  Future.ok <$> base_at w1 base = Some (Future.ok (obj_base o)).
Proof.
  intros Hs Hwin Ho w1. split.
  - exists (SelectFuture.set_base
              (Future.set_ok (Future.ok (obj_base o)) (SelectFuture.base s)) s), fut.
    destruct (decide (base = fut)) as [<-|Hne].
    + rewrite Hs in Ho. injection Ho as <-.
      exists (Future.set_ok (Future.ok (SelectFuture.base s)) (SelectFuture.base s)).
      repeat split.
      * unfold select_at, w1. rewrite heap_upd_obj, lookup_alter_eq, Hs. by cbn.
      * done.
      * unfold base_at, w1. rewrite heap_upd_obj, lookup_alter_eq, Hs. by cbn.
    + exists (obj_base o). repeat split.
      * unfold select_at, w1. rewrite heap_upd_obj, lookup_alter_eq, Hs. by cbn.
      * done.
      * unfold base_at, w1. by rewrite heap_upd_obj, lookup_alter_ne, Ho.
  - unfold base_at, w1. rewrite heap_upd_obj, lookup_alter_eq, Hs. by cbn.
Qed.


Lemma select_progress_fut2_completed_inv w w1 invs :
  select_progress_fut2 call base waker w = Ok (FUTURE_COMPLETED, w1, invs) →
  ∃ v, Future.ok <$> base_at w1 base = Some v ∧ select_settled base w1 v.
Proof.
  unfold select_progress_fut2. intros H. minv.
  destruct (_ || _); [|by minv]. minv.
  match goal with H : context [match ?st with _ => _ end] |- _ => destruct st end.
  - by minv.
  - minv.
    match goal with
    | Hs : heap (upd_obj base _ ?w0) !! base = Some (SelectObj ?s1),
      Ho : heap (upd_obj base _ ?w0) !! SelectFuture.fut2 ?s1 = Some ?o |- _ =>
        rename Hs into Hsel; rename Ho into Hwin
    end.
    pose proof Hsel as Hs'. rewrite heap_upd_obj, lookup_alter_eq in Hs'.
    match goal with H : heap _ !! base = Some (SelectObj ?s0) |- _ =>
      rewrite H in Hs'; cbn in Hs'; injection Hs' as <-;
      destruct (select_finish_settled _ _ (SelectFuture.fut2 s0) _ Hsel eq_refl Hwin)
        as [Hset Hok]
    end.
    eauto.
  - by minv.
Qed.

Lemma select_progress_fut1_completed_inv w w1 invs :
  select_progress_fut1 call base waker w = Ok (FUTURE_COMPLETED, w1, invs) →
  ∃ v, Future.ok <$> base_at w1 base = Some v ∧ select_settled base w1 v.
Proof.
  unfold select_progress_fut1. intros H. minv.
  destruct (_ || _); [|by eapply select_progress_fut2_completed_inv]. minv.
  match goal with H : context [match ?st with _ => _ end] |- _ => destruct st end.
  - by eapply select_progress_fut2_completed_inv.
  - minv.
    match goal with
    | Hs : heap (upd_obj base _ ?w0) !! base = Some (SelectObj ?s1),
      Ho : heap (upd_obj base _ ?w0) !! SelectFuture.fut1 ?s1 = Some ?o |- _ =>
        rename Hs into Hsel; rename Ho into Hwin
    end.
    pose proof Hsel as Hs'. rewrite heap_upd_obj, lookup_alter_eq in Hs'.
    match goal with H : heap _ !! base = Some (SelectObj ?s0) |- _ =>
      rewrite H in Hs'; cbn in Hs'; injection Hs' as <-;
      destruct (select_finish_settled _ _ (SelectFuture.fut1 s0) _ Hsel eq_refl Hwin)
        as [Hset Hok]
    end.
    eauto.
  - minv. match goal with H : context [if ?b then _ else _] |- _ => destruct b end;
      minv; by eapply select_progress_fut2_completed_inv.
Qed.

Lemma select_progress_completed_inv w w1 invs :
  select_progress call base waker w = Ok (FUTURE_COMPLETED, w1, invs) →
  ∃ v, Future.ok <$> base_at w1 base = Some v ∧ select_settled base w1 v.
Proof.
  unfold select_progress. intros H. minv.
  match goal with
  | Hs : heap ?w !! base = Some (SelectObj ?s) |- _ =>
      destruct (SelectFuture.which_completed s) eqn:Htag
  end; minv; try by eapply select_progress_fut1_completed_inv.
  - match goal with
    | Hs : heap ?w !! base = Some (SelectObj ?s),
      Ho : heap ?w !! SelectFuture.fut1 ?s = Some ?o |- _ =>
        destruct (select_finish_settled w s (SelectFuture.fut1 s) o Hs) as [Hset Hok];
          [by unfold select_winner; rewrite Htag|done|]
    end. eauto.
  - match goal with
    | Hs : heap ?w !! base = Some (SelectObj ?s),
      Ho : heap ?w !! SelectFuture.fut2 ?s = Some ?o |- _ =>
        destruct (select_finish_settled w s (SelectFuture.fut2 s) o Hs) as [Hset Hok];
          [by unfold select_winner; rewrite Htag|done|]
    end. eauto.
Qed.

(** A settled select returns FUTURE_COMPLETED without progressing a child,
    and stays settled. *)
Lemma select_progress_settled w v :
  select_settled base w v →
  select_progress call base waker w =
    Ok (FUTURE_COMPLETED, upd_obj base (on_base (Future.set_ok v)) w, []) ∧
  select_settled base (upd_obj base (on_base (Future.set_ok v)) w) v.
Proof.
  intros (s & fut & b & Hs & Hwin & Hb & <-).
  pose proof (select_progress_terminal w s fut b Hs Hb) as Hrun.
  apply select_at_heap in Hs. apply base_at_heap in Hb as (o & Ho & <-).
  destruct (select_finish_settled w s fut o Hs Hwin Ho) as [Hset _].
  split; [|done].
  unfold select_winner in Hwin.
  destruct (SelectFuture.which_completed s); simplify_eq; by apply Hrun.
Qed.

Lemma upd_ok_same w v :
  Future.ok <$> base_at w base = Some v →
  upd_obj base (on_base (Future.set_ok v)) w = w.
Proof.
  intros Hok. apply upd_obj_id. intros o Ho.
  unfold base_at in Hok. rewrite Ho in Hok. cbn in Hok. injection Hok as <-.
  by destruct o as [[] ?|[[] ? ? ?]|[[] ? ? ? ? ? ?]|[[] ? ? ?]].
Qed.

Lemma select_repeat_settled w v n :
  Future.ok <$> base_at w base = Some v →
  select_settled base w v →
  repeat_progress (select_progress call base waker) n w
    = Ok (replicate n FUTURE_COMPLETED, w, []).
Proof.
  intros Hok Hset. induction n as [|n IH]; [done|].
  cbn [repeat_progress replicate].
  destruct (select_progress_settled w v Hset) as [Hrun _].
  rewrite (upd_ok_same w v Hok) in Hrun.
  rewrite (M_bind_ok _ _ _ _ _ _ Hrun), (M_bind_ok _ _ _ _ _ _ IH). done.
Qed.


(** C7. A completed select copies the [ok] of its winner again at every
    call. In any world where the tag is SELECT_COMPLETED_FUT1 or
    SELECT_COMPLETED_FUT2 and the [ok] of the winning child is [v],
    [select_progress] returns FUTURE_COMPLETED with [ok] set to [v] and
    progresses neither child: it returns the [ok] of the completing call as
    long as nothing wrote the [ok] of the winning child in between. In
    particular, after any call that returned FUTURE_COMPLETED, the calls
    that follow it directly return FUTURE_COMPLETED, progress neither child
    and leave the world, hence the [ok] the completing call set, as it
    is. *)
Theorem select_completion_idempotent :
  (∀ w v, select_settled base w v →
     select_progress call base waker w =
       Ok (FUTURE_COMPLETED, upd_obj base (on_base (Future.set_ok v)) w, []) ∧
     select_settled base (upd_obj base (on_base (Future.set_ok v)) w) v) ∧
  (∀ w w1 invs,
     select_progress call base waker w = Ok (FUTURE_COMPLETED, w1, invs) →
     ∃ v, Future.ok <$> base_at w1 base = Some v ∧
          select_settled base w1 v ∧
          ∀ n, repeat_progress (select_progress call base waker) n w1
               = Ok (replicate n FUTURE_COMPLETED, w1, [])).
Proof.
  split.
  - intros w v Hset. by apply select_progress_settled.
  - intros w w1 invs Hrun.
    destruct (select_progress_completed_inv w w1 invs Hrun) as (v & Hok & Hset).
    exists v. split; [done|]. split; [done|].
    intros n. by apply select_repeat_settled with (v := v).
Qed.
End SelectProperties.

(** ** The queue of the executor and the events of a run *)

Section Executor.
Context {K : Type}.
Implicit Types (w : World K) (fut : addr).

Lemma get_que_inv {L} w que w' (l : list L) :
  get_que w = Ok (que, w', l) → que = Executor.que (executor w) ∧ w' = w ∧ l = [].
Proof. unfold get_que. intros H. by minv. Qed.

Lemma put_que_inv {L} que w u w' (l : list L) :
  put_que que w = Ok (u, w', l) →
  w' = set_executor (Executor.set_que que (executor w)) w ∧ l = [].
Proof. unfold put_que. intros H. by minv. Qed.

Lemma get_mio_inv {L} w mio w' (l : list L) :
  get_mio w = Ok (mio, w', l) → mio = Executor.mio (executor w) ∧ w' = w ∧ l = [].
Proof. unfold get_mio. intros H. by minv. Qed.

Lemma put_mio_inv {L} mio w u w' (l : list L) :
  put_mio mio w = Ok (u, w', l) →
  w' = set_executor (Executor.set_mio mio (executor w)) w ∧ l = [].
Proof. unfold put_mio. intros H. by minv. Qed.

Lemma syscall_inv {L A} (f : K → A * K) w r w' (l : list L) :
  syscall f w = Ok (r, w', l) → w' = set_kernel (f (kernel w)).2 w ∧ r = (f (kernel w)).1 ∧ l = [].
Proof. unfold syscall. destruct (f (kernel w)) as [r' k']. by intros [= <- <- <-]. Qed.
End Executor.

Ltac xinv1 :=
  first
  [ minv1
  | match goal with
    | H : get_que _ = Ok _ |- _ => apply get_que_inv in H as (? & ? & ?)
    | H : put_que _ _ = Ok _ |- _ => apply put_que_inv in H as (? & ?)
    | H : get_mio _ = Ok _ |- _ => apply get_mio_inv in H as (? & ? & ?)
    | H : put_mio _ _ = Ok _ |- _ => apply put_mio_inv in H as (? & ?)
    | H : syscall _ _ = Ok _ |- _ => apply syscall_inv in H as (? & ? & ?)
    end ].

Ltac xinv := repeat (xinv1; simplify_eq).

Section Tracking.
Context {K : Type}.
Implicit Types (w : World K) (fut : addr) (evs : list Event).

Lemma events_of_nil {L} `{!Flat L} : events_of (@nil L) = [].
Proof. done. Qed.

Lemma events_of_app {L} `{!Flat L} (l1 l2 : list L) :
  events_of (l1 ++ l2) = events_of l1 ++ events_of l2.
Proof. unfold events_of. by rewrite fmap_app, concat_app. Qed.

Lemma events_of_events (evs : list Event) : events_of evs = evs.
Proof.
  unfold events_of, flat, Flat_Event. induction evs as [|e evs IH]; [done|].
  cbn. by rewrite IH.
Qed.

Lemma replay_app evs1 evs2 l l1 :
  replay evs1 l = Some l1 → replay (evs1 ++ evs2) l = replay evs2 l1.
Proof.
  revert l. induction evs1 as [|[fut [|]|fut] evs1 IH]; intros l; cbn.
  - by intros [= ->].
  - apply IH.
  - apply IH.
  - destruct l as [|fut' l']; [done|]. case_decide; [|done]. apply IH.
Qed.

Lemma tracks_refl w : tracks w [] w.
Proof. split; [done|]. intros l Hl. by exists l. Qed.

Lemma tracks_trans w1 evs1 w2 evs2 w3 :
  tracks w1 evs1 w2 → tracks w2 evs2 w3 → tracks w1 (evs1 ++ evs2) w3.
Proof.
  intros [Hm1 H1] [Hm2 H2]. split; [congruence|].
  intros l Hl. destruct (H1 l Hl) as (l1 & Hl1 & Hr1).
  destruct (H2 l1 Hl1) as (l2 & Hl2 & Hr2).
  exists l2. split; [done|]. by rewrite (replay_app _ _ _ _ Hr1).
Qed.

(** Whatever leaves the queue alone is tracked by no event. *)
Lemma tracks_same_que w w' :
  Executor.que (executor w') = Executor.que (executor w) → tracks w [] w'.
Proof.
  intros Hq. split; [by rewrite Hq|]. intros l Hl. exists l. by rewrite Hq.
Qed.

Lemma sound_ret {L A} `{!Flat L} (a : A) : sound (mret a : M K L A).
Proof. intros w a' w' l H. minv. apply tracks_refl. Qed.

Lemma sound_bind {L A B} `{!Flat L} (m : M K L A) (f : A → M K L B) :
  sound m → (∀ a, sound (f a)) → sound (m ≫= f).
Proof.
  intros Hm Hf w b w' l H.
  apply M_bind_inv in H as (a & w1 & l1 & l2 & H1 & H2 & ->).
  rewrite events_of_app. eapply tracks_trans; [by eapply Hm|by eapply Hf].
Qed.

Lemma sound_stop {L A} `{!Flat L} h : sound (stop h : M K L A).
Proof. by intros w a w' l H. Qed.

Lemma sound_load_obj {L} `{!Flat L} a : sound (load_obj a : M K L Obj).
Proof. intros w o w' l H. minv. apply tracks_refl. Qed.

Lemma sound_load_base {L} `{!Flat L} a : sound (load_base a : M K L Future.t).
Proof. intros w o w' l H. minv. apply tracks_refl. Qed.

Lemma sound_load_then {L} `{!Flat L} a : sound (load_then a : M K L ThenFuture.t).
Proof. intros w o w' l H. minv. apply tracks_refl. Qed.

Lemma sound_load_join {L} `{!Flat L} a : sound (load_join a : M K L JoinFuture.t).
Proof. intros w o w' l H. minv. apply tracks_refl. Qed.

Lemma sound_load_select {L} `{!Flat L} a : sound (load_select a : M K L SelectFuture.t).
Proof. intros w o w' l H. minv. apply tracks_refl. Qed.

Lemma sound_modify_base {L} `{!Flat L} a f : sound (modify_base a f : M K L unit).
Proof. intros w o w' l H. minv. by apply tracks_same_que. Qed.

Lemma sound_modify_then {L} `{!Flat L} a f : sound (modify_then a f : M K L unit).
Proof. intros w o w' l H. minv. by apply tracks_same_que. Qed.

Lemma sound_modify_join {L} `{!Flat L} a f : sound (modify_join a f : M K L unit).
Proof. intros w o w' l H. minv. by apply tracks_same_que. Qed.

Lemma sound_modify_select {L} `{!Flat L} a f : sound (modify_select a f : M K L unit).
Proof. intros w o w' l H. minv. by apply tracks_same_que. Qed.

Lemma sound_invoke (call : addr → Waker.t → M K Event FutureState) c fut wk :
  sound (call fut wk) → sound (invoke call c fut wk).
Proof.
  intros Hc w st w' l H. minv.
  unfold events_of. cbn. rewrite app_nil_r.
  rewrite <- (events_of_events _). by eapply Hc.
Qed.

Lemma sound_run_combinator {A} (m : M K Invocation A) : sound m → sound (run_combinator m).
Proof.
  intros Hm w a w' l H. unfold run_combinator in H.
  destruct (m w) as [[[a0 w0] invs]|] eqn:Hmw; [|done].
  injection H as <- <- <-. rewrite events_of_events. by eapply Hm.
Qed.
End Tracking.

Create HintDb sound discriminated.

#[global] Hint Resolve sound_ret sound_stop sound_load_obj sound_load_base sound_load_then
  sound_load_join sound_load_select sound_modify_base sound_modify_then sound_modify_join
  sound_modify_select sound_invoke sound_run_combinator : sound.

(** Follows the structure of a computation down to its primitives. *)
Ltac sound_auto :=
  repeat first
    [ solve [eauto with sound]
    | apply sound_bind; [|intros ?]
    | match goal with
      | |- sound (match ?x with _ => _ end) => destruct x
      | |- sound (if ?b then _ else _) => destruct b
      end ].

Section Soundness.
Context {K : Type} {kernel_ops : Kernel K} {codes : ErrCodes}.
Implicit Types (w : World K) (fut : addr) (evs : list Event).

Lemma push_max_size que fut que' :
  push que fut = Ok que' → FutQue.max_size que' = FutQue.max_size que.
Proof.
  unfold push. destruct (_ =? _); [by intros [= <-]|].
  destruct (next_index que (FutQue.back que)) as [b|]; [|done]. cbn.
  unfold futs_store. destruct (_ && _); [|done]. cbn. by intros [= <-].
Qed.

Lemma pop_max_size que fut que' :
  pop que = Ok (fut, que') → FutQue.max_size que' = FutQue.max_size que.
Proof.
  unfold pop. destruct (isEmpty que); [by intros [= <- <-]|].
  destruct (futs_load que (FutQue.front que)) as [x|]; [|done]. cbn.
  destruct (next_index que (FutQue.front que)) as [f|]; [|done]. cbn.
  by intros [= <- <-].
Qed.

Lemma sound_executor_spawn fut : sound (executor_spawn (K := K) fut).
Proof.
  intros w u w' l H. unfold executor_spawn in H. xinv.
  rewrite events_of_events. cbn.
  match goal with H : push _ _ = Ok ?q |- _ => rename H into Hpush; rename q into que' end.
  unfold upd_obj in *. cbn in Hpush |- *.
  split; [by apply push_max_size in Hpush|].
  intros l Hl. cbn in *.
  pose proof Hl as (Hsz & _).
  destruct (Z.eqb_spec (FutQue.size (Executor.que (executor w)))
              (FutQue.max_size (Executor.que (executor w)))) as [Hfull|Hroom]; cbn.
  - rewrite (push_full _ l fut Hl) in Hpush by lia. injection Hpush as <-.
    by exists l.
  - destruct (push_room _ l fut Hl) as (q & Hq & Hrq & _); [lia|].
    rewrite Hq in Hpush. injection Hpush as <-. by exists (l ++ [fut]).
Qed.

Lemma sound_waker_wake waker : sound (waker_wake (K := K) waker).
Proof. apply sound_executor_spawn. Qed.

Lemma sound_wake_events ptrs : sound (wake_events (K := K) ptrs).
Proof.
  induction ptrs as [|p ptrs IH]; cbn [wake_events]; [apply sound_ret|].
  apply sound_bind; [apply sound_waker_wake|done].
Qed.

Lemma sound_spawn_all futs : sound (spawn_all (K := K) futs).
Proof.
  induction futs as [|p futs IH]; cbn [spawn_all]; [apply sound_ret|].
  apply sound_bind; [apply sound_executor_spawn|done].
Qed.

Lemma sound_get_mio {L} `{!Flat L} : sound (get_mio : M K L Mio.t).
Proof. intros w o w' l H. xinv. apply tracks_refl. Qed.

Lemma sound_put_mio {L} `{!Flat L} mio : sound (put_mio mio : M K L unit).
Proof. intros w o w' l H. xinv. by apply tracks_same_que. Qed.

Lemma sound_get_que {L} `{!Flat L} : sound (get_que : M K L FutQue.t).
Proof. intros w o w' l H. xinv. apply tracks_refl. Qed.

Lemma sound_syscall {L A} `{!Flat L} (f : K → A * K) : sound (syscall f : M K L A).
Proof. intros w o w' l H. xinv. by apply tracks_same_que. Qed.

Lemma sound_lift_res {L A} `{!Flat L} (r : Res A) : sound (lift_res r : M K L A).
Proof. intros w o w' l H. xinv. apply tracks_refl. Qed.

Hint Resolve sound_executor_spawn sound_waker_wake sound_wake_events sound_get_mio
  sound_put_mio sound_get_que sound_syscall sound_lift_res : sound.

Lemma sound_mio_register fd events waker :
  sound (mio_register fd events waker : M K Event Z).
Proof. unfold mio_register. sound_auto. Qed.

Lemma sound_mio_unregister fd : sound (mio_unregister fd : M K Event Z).
Proof. unfold mio_unregister. sound_auto. Qed.

Lemma sound_mio_poll : sound (mio_poll (K := K)).
Proof. unfold mio_poll. sound_auto. Qed.

Section Call.
Variable call : addr → Waker.t → M K Event FutureState.
Hypothesis sound_call : ∀ fut wk, sound (call fut wk).

Lemma sound_then_progress base waker : sound (then_progress call base waker).
Proof. unfold then_progress, then_progress_fut2. sound_auto. Qed.

Lemma sound_join_progress base waker : sound (join_progress call base waker).
Proof.
  unfold join_progress, join_progress_fut1, join_progress_fut2, join_progress_result.
  sound_auto.
Qed.

Lemma sound_select_progress base waker : sound (select_progress call base waker).
Proof.
  unfold select_progress, select_progress_fut1, select_progress_fut2. sound_auto.
Qed.
End Call.

Variable leaf_code : Z → LeafProg.

Hint Resolve sound_mio_register sound_mio_unregister sound_mio_poll : sound.

Lemma sound_load_priv a : sound (load_priv (K := K) a).
Proof. unfold load_priv. sound_auto. Qed.

Lemma sound_store_priv a v : sound (store_priv (K := K) a v).
Proof.
  intros w u w' l H. unfold store_priv in H.
  apply M_bind_inv in H as (p & w1 & l1 & l2 & H1 & H2 & ->).
  pose proof (sound_load_priv a w p w1 l1 H1) as Ht.
  xinv. rewrite app_nil_r. rewrite <- (app_nil_r (events_of l1)).
  eapply tracks_trans; [done|]. by apply tracks_same_que.
Qed.

Hint Resolve sound_load_priv sound_store_priv : sound.

Lemma sound_run_leaf p self waker : sound (run_leaf (K := K) p self waker).
Proof. induction p; cbn [run_leaf]; sound_auto. Qed.

Lemma sound_progress fuel : ∀ fut waker, sound (progress leaf_code fuel fut waker).
Proof.
  induction fuel as [|n IH]; intros fut waker; cbn [progress]; [apply sound_stop|].
  apply sound_bind; [apply sound_load_base|]. intros b.
  destruct (Future.progress b).
  - apply sound_run_combinator. by apply sound_then_progress.
  - apply sound_run_combinator. by apply sound_join_progress.
  - apply sound_run_combinator. by apply sound_select_progress.
  - apply sound_run_leaf.
Qed.
End Soundness.

(** ** The drive loop *)

Section DriveLoop.
Context {K : Type} {kernel_ops : Kernel K} {codes : ErrCodes}.
Variable leaf_code : Z → LeafProg.
Implicit Types (w : World K) (fut : addr) (evs : list Event).

Lemma que_repr_empty que l : que_repr que l → isEmpty que = true → l = [].
Proof.
  intros (Hsz & _) He. unfold isEmpty in He. apply Z.eqb_eq in He.
  destruct l; [done|]. cbn in Hsz. lia.
Qed.

Lemma que_repr_nonempty que l : que_repr que l → isEmpty que = false → l ≠ [].
Proof.
  intros (Hsz & _) He. unfold isEmpty in He. apply Z.eqb_neq in He.
  intros ->. cbn in Hsz. lia.
Qed.

(** The pop of the drive loop and the progress call that follows it. *)
Lemma tracks_pop_que w fut w1 (l : list Event) :
  pop_que w = Ok (fut, w1, l) →
  isEmpty (Executor.que (executor w)) = false →
  l = [] ∧ tracks w [EvProgress fut] w1.
Proof.
  intros H He. unfold pop_que in H. xinv.
  match goal with H : pop _ = Ok ?a |- _ => rename H into Hpop; destruct a as [x que'] end.
  xinv.
  split; [done|]. split; [cbn; by apply pop_max_size in Hpop|].
  intros l Hl. cbn.
  destruct l as [|y l']; [by destruct (que_repr_nonempty _ _ Hl He)|].
  destruct (pop_cons _ y l' Hl) as (q & Hq & Hrq & _).
  rewrite Hq in Hpop. injection Hpop as <- <-.
  exists l'. split; [done|]. by rewrite decide_True.
Qed.

Lemma drain_tracks fuel : ∀ w u w' evs,
  drain leaf_code fuel w = Ok (u, w', evs) →
  tracks w evs w' ∧ isEmpty (Executor.que (executor w')) = true.
Proof.
  induction fuel as [|n IH]; intros w u w' evs H; [done|].
  cbn [drain] in H.
  apply M_bind_inv in H as (que & w0 & l0 & l1 & Hq & H & ->).
  apply get_que_inv in Hq as (-> & -> & ->).
  destruct (isEmpty (Executor.que (executor w))) eqn:He.
  { apply M_ret_inv in H as (_ & -> & ->). split; [apply tracks_refl|done]. }
  apply M_bind_inv in H as (fut & w1 & l1' & l2 & Hpop & H & ->).
  destruct (tracks_pop_que _ _ _ _ Hpop He) as [-> Hpt].
  apply M_bind_inv in H as (u1 & w2 & l3 & l4 & Hemit & H & ->).
  apply emit_inv in Hemit as (-> & ->).
  apply M_bind_inv in H as (st & w3 & l5 & l6 & Hprog & H & ->).
  pose proof (sound_progress leaf_code n fut (Waker.mk fut) _ _ _ _ Hprog) as Hp.
  rewrite events_of_events in Hp.
  apply M_bind_inv in H as (u2 & w4 & l7 & l8 & Hact & H & ->).
  assert (Ha : tracks w3 l7 w4).
  { destruct (_ || _).
    - pose proof (sound_modify_base (L := Event) _ _ _ _ _ _ Hact) as Ht.
      by rewrite events_of_events in Ht.
    - apply M_ret_inv in Hact as (_ & -> & ->). apply tracks_refl. }
  destruct (IH _ _ _ _ H) as [Hd Hempty].
  split; [|done]. cbn.
  change (EvProgress fut :: l5 ++ l7 ++ l8) with ([EvProgress fut] ++ l5 ++ l7 ++ l8).
  eapply tracks_trans; [done|]. eapply tracks_trans; [done|].
  by eapply tracks_trans.
Qed.

Lemma executor_run_tracks fuel : ∀ w u w' evs,
  executor_run leaf_code fuel w = Ok (u, w', evs) →
  tracks w evs w' ∧ isEmpty (Executor.que (executor w')) = true.
Proof.
  induction fuel as [|n IH]; intros w u w' evs H; [done|].
  cbn [executor_run] in H.
  apply M_bind_inv in H as (que & w0 & l0 & l1 & Hq & H & ->).
  apply get_que_inv in Hq as (-> & -> & ->).
  destruct (isEmpty (Executor.que (executor w))) eqn:He.
  { apply M_ret_inv in H as (_ & -> & ->). split; [apply tracks_refl|done]. }
  apply M_bind_inv in H as (u1 & w1 & l2 & l3 & Hdrain & H & ->).
  apply M_bind_inv in H as (u2 & w2 & l4 & l5 & Hpoll & H & ->).
  destruct (drain_tracks _ _ _ _ _ Hdrain) as [Hd _].
  pose proof (sound_mio_poll _ _ _ _ Hpoll) as Hp. rewrite events_of_events in Hp.
  destruct (IH _ _ _ _ H) as [Hr Hempty].
  split; [|done]. cbn.
  eapply tracks_trans; [done|]. by eapply tracks_trans.
Qed.

(** If the events take the queue from [l] to the empty queue, every
    future of [l] is progressed. *)
Lemma replay_empties evs : ∀ l fut,
  replay evs l = Some [] → fut ∈ l → ∃ j, evs !! j = Some (EvProgress fut).
Proof.
  induction evs as [|[f [|]|f] evs IH]; intros l fut Hr Hin; cbn in Hr.
  - injection Hr as ->. by apply elem_of_nil in Hin.
  - destruct (IH (l ++ [f]) fut Hr) as [j Hj]; [set_solver|]. by exists (S j).
  - destruct (IH l fut Hr Hin) as [j Hj]. by exists (S j).
  - destruct l as [|f' l']; [done|]. case_decide as Heq; [subst f'|done].
    apply elem_of_cons in Hin as [->|Hin]; [by exists 0%nat|].
    destruct (IH l' fut Hr Hin) as [j Hj]. by exists (S j).
Qed.

Lemma replay_spawn_progressed evs : ∀ l,
  replay evs l = Some [] → every_queued_spawn_progressed evs.
Proof.
  induction evs as [|e evs IH]; intros l Hr i fut Hi; [done|].
  destruct i as [|i]; cbn in Hi.
  - injection Hi as ->. cbn in Hr.
    destruct (replay_empties evs (l ++ [fut]) fut Hr) as [j Hj]; [set_solver|].
    exists (S j). split; [lia|done].
  - assert (∃ l1, replay evs l1 = Some []) as [l1 Hl1].
    { destruct e as [f [|]|f]; cbn in Hr; eauto.
      destruct l as [|f' l']; [done|]. case_decide; [eauto|done]. }
    destruct (IH l1 Hl1 i fut Hi) as (j & Hlt & Hj).
    exists (S j). split; [lia|done].
Qed.

(** C2. A program that passes the futures [futs] to [executor_spawn] and
    then calls [executor_run], in a world whose ready queue holds [l]. If
    [executor_run] returns, every future that was passed to
    [executor_spawn], before or during the run, while the queue had room was
    progressed by the drive loop after that spawn, and so was every future
    the queue held at the start. *)
Theorem executor_run_progresses_queued (w w' : World K) (futs : list addr)
    (fuel : nat) (l : list addr) (evs : list Event) :
  que_repr (Executor.que (executor w)) l →
  (spawn_all futs;; executor_run leaf_code fuel) w = Ok (tt, w', evs) →
  every_queued_spawn_progressed evs ∧
  (∀ fut, fut ∈ l → ∃ j, evs !! j = Some (EvProgress fut)).
Proof.
  intros Hl H.
  apply M_bind_inv in H as (u & w1 & l1 & l2 & Hsp & Hrun & ->).
  pose proof (sound_spawn_all futs _ _ _ _ Hsp) as Hs. rewrite events_of_events in Hs.
  destruct (executor_run_tracks _ _ _ _ _ Hrun) as [Hr Hempty].
  destruct (tracks_trans _ _ _ _ _ Hs Hr) as [_ Ht].
  destruct (Ht l Hl) as (l' & Hl' & Hrep).
  rewrite (que_repr_empty _ _ Hl' Hempty) in Hrep.
  split; [by eapply replay_spawn_progressed|].
  intros fut Hin. by eapply replay_empties.
Qed.

Lemma executor_spawn_que fut w u w' evs l :
  executor_spawn fut w = Ok (u, w', evs) →
  que_repr (Executor.que (executor w)) l →
  ∃ l', que_repr (Executor.que (executor w')) l' ∧
        (l' = l ++ [fut] ∨ l' = l ∧ Z.of_nat (length l) = FutQue.max_size (Executor.que (executor w))) ∧
        FutQue.max_size (Executor.que (executor w')) = FutQue.max_size (Executor.que (executor w)).
Proof.
  intros H Hl. unfold executor_spawn in H. xinv.
  match goal with H : push _ _ = Ok ?q |- _ => rename H into Hpush; rename q into que' end.
  unfold upd_obj in *. cbn in Hpush |- *.
  destruct (decide (Z.of_nat (length l) = FutQue.max_size (Executor.que (executor w))))
    as [Hfull|Hroom].
  - rewrite (push_full _ l fut Hl Hfull) in Hpush. injection Hpush as <-.
    exists l. eauto.
  - destruct (push_room _ l fut Hl Hroom) as (q & Hq & Hrq & Hmax).
    rewrite Hq in Hpush. injection Hpush as <-.
    exists (l ++ [fut]). eauto.
Qed.

Lemma wake_events_nonempty ptrs : ∀ w u w' evs l,
  wake_events ptrs w = Ok (u, w', evs) →
  que_repr (Executor.que (executor w)) l →
  0 < FutQue.max_size (Executor.que (executor w)) →
  ptrs ≠ [] ∨ l ≠ [] →
  ∃ l', que_repr (Executor.que (executor w')) l' ∧ l' ≠ [].
Proof.
  induction ptrs as [|p ptrs IH]; intros w u w' evs l H Hl Hmax Hne.
  - apply M_ret_inv in H as (_ & -> & _). destruct Hne as [?|?]; [done|]. by exists l.
  - cbn [wake_events] in H.
    apply M_bind_inv in H as (u1 & w1 & l1 & l2 & Hwake & H & ->).
    destruct (executor_spawn_que _ _ _ _ _ _ Hwake Hl) as (l1' & Hl1 & Hcase & Hm).
    eapply (IH _ _ _ _ l1' H Hl1); [by rewrite Hm|]. right.
    destruct Hcase as [->|[-> Hfull]].
    + by destruct l.
    + intros ->. cbn in Hfull. lia.
Qed.

Lemma mio_poll_idle w :
  count w = 0 → mio_poll w = Ok (tt, w, []).
Proof.
  intros Hc. unfold count in Hc. unfold mio_poll, get_mio. munfold. cbn.
  rewrite Hc. by cbn.
Qed.

Lemma mio_poll_waits w :
  count w ≠ 0 →
  mio_poll w =
    match epoll_wait (Mio.epoll_fd (Executor.mio (executor w))) MAX_EVENTS (kernel w) with
    | (WaitError, _) => Stop Exited
    | (WaitBlocks, _) => Stop Blocked
    | (WaitEvents ptrs, k') => wake_events ptrs (set_kernel k' w)
    end.
Proof.
  intros Hc. unfold count in Hc. unfold mio_poll, get_mio, syscall. munfold. cbn.
  destruct (Z.eqb_spec (Mio.registered_count (Executor.mio (executor w))) 0) as [?|_];
    [done|].
  destruct (epoll_wait _ _ _) as [[| |ptrs] k']; cbn; try done.
  by destruct (wake_events ptrs (set_kernel k' w)) as [[[[] ?] ?]|].
Qed.

Section Contract.
(** [epoll_wait] with an infinite timeout does not return without an
    event. *)
Hypothesis wait_some :
  ∀ epfd n (k : K) ptrs k', epoll_wait epfd n k = (WaitEvents ptrs, k') → ptrs ≠ [].

Lemma executor_run_unregistered fuel : ∀ w u w' evs l,
  que_repr (Executor.que (executor w)) l →
  l ≠ [] ∨ count w = 0 →
  executor_run leaf_code fuel w = Ok (u, w', evs) →
  count w' = 0.
Proof.
  induction fuel as [|n IH]; intros w u w' evs l Hl Hcase H; [done|].
  cbn [executor_run] in H.
  apply M_bind_inv in H as (que & w0 & l0 & l1 & Hq & H & ->).
  apply get_que_inv in Hq as (-> & -> & ->).
  destruct (isEmpty (Executor.que (executor w))) eqn:He.
  { apply M_ret_inv in H as (_ & -> & _).
    destruct Hcase as [Hne|Hc]; [|done].
    by destruct Hne; eapply que_repr_empty. }
  apply M_bind_inv in H as (u1 & w1 & l2 & l3 & Hdrain & H & ->).
  apply M_bind_inv in H as (u2 & w2 & l4 & l5 & Hpoll & H & ->).
  destruct (drain_tracks _ _ _ _ _ Hdrain) as [[Hmax Hd] Hempty].
  destruct (Hd l Hl) as (l1' & Hl1 & _).
  pose proof (que_repr_empty _ _ Hl1 Hempty) as ->.
  assert (Hpos : 0 < FutQue.max_size (Executor.que (executor w1))).
  { rewrite Hmax. pose proof (que_repr_nonempty _ _ Hl He) as Hne.
    pose proof (que_repr_length _ _ Hl). destruct l; [done|]. cbn in *. lia. }
  destruct (decide (count w1 = 0)) as [Hc|Hc].
  - rewrite (mio_poll_idle w1 Hc) in Hpoll. injection Hpoll as <- <-.
    eapply (IH _ _ _ _ [] Hl1); [by right|done].
  - rewrite (mio_poll_waits w1 Hc) in Hpoll.
    destruct (epoll_wait _ _ _) as [[| |ptrs] k'] eqn:Hw; try done.
    apply wait_some in Hw.
    destruct (wake_events_nonempty ptrs _ _ _ _ [] Hpoll) as (l2' & Hl2 & Hne2);
      [done|done|by left|].
    eapply (IH _ _ _ _ l2' Hl2); [by left|done].
Qed.
End Contract.

(** C9. [mio_poll] returns at once, changing nothing, when the registered
    count is zero; when it is not zero it calls [epoll_wait], which blocks
    or fails or returns events, and calls [waker_wake] for the future of
    each event in order. If [epoll_wait] never returns without an event,
    then [executor_run], entered with a ready queue that is not empty,
    returns only in a world where the registered count is zero. *)
Theorem executor_run_returns_unregistered (w w' : World K) (fuel : nat)
    (l : list addr) (evs : list Event) :
  (∀ epfd n (k : K) ptrs k', epoll_wait epfd n k = (WaitEvents ptrs, k') → ptrs ≠ []) →
  que_repr (Executor.que (executor w)) l →
  l ≠ [] →
  executor_run leaf_code fuel w = Ok (tt, w', evs) →
  count w' = 0 ∧
  (∀ w0 : World K, count w0 = 0 → mio_poll w0 = Ok (tt, w0, [])) ∧
  (∀ w0 : World K, count w0 ≠ 0 →
     mio_poll w0 =
       match epoll_wait (Mio.epoll_fd (Executor.mio (executor w0))) MAX_EVENTS (kernel w0) with
       | (WaitError, _) => Stop Exited
       | (WaitBlocks, _) => Stop Blocked
       | (WaitEvents ptrs, k') => wake_events ptrs (set_kernel k' w0)
       end).
Proof.
  intros Hwait Hl Hne Hrun. split; [|split].
  - eapply executor_run_unregistered; [done|done|by left|done].
  - apply mio_poll_idle.
  - apply mio_poll_waits.
Qed.
End DriveLoop.

(** ** Duplicates in the ready queue *)

Section Duplicates.
Context {K : Type} {kernel_ops : Kernel K}.
Implicit Types (w : World K) (fut : addr).

Lemma not_queued_step w w' l :
  exec_step not_queued w w' →
  que_repr (Executor.que (executor w)) l → NoDup l →
  ∃ l', que_repr (Executor.que (executor w')) l' ∧ NoDup l'.
Proof.
  intros Hstep Hl Hnd.
  assert (Hspawn : ∀ fut evs, not_queued w fut →
            executor_spawn fut w = Ok (tt, w', evs) →
            ∃ l', que_repr (Executor.que (executor w')) l' ∧ NoDup l').
  { intros fut evs Hg Hs.
    destruct (executor_spawn_que _ _ _ _ _ _ Hs Hl) as (l' & Hl' & [->|[-> _]] & _).
    - exists (l ++ [fut]). split; [done|].
      unfold not_queued in Hg. rewrite (que_repr_contents _ _ Hl) in Hg.
      apply NoDup_app. split; [done|]. split; [|apply NoDup_singleton].
      intros x Hx Hx'. apply list_elem_of_singleton in Hx'. by subst x.
    - by exists l. }
  inversion Hstep as [w0 fut w0' evs Hg Hs|w0 waker w0' evs Hg Hs|w0 fut w0' evs Hp];
    subst.
  - by eapply Hspawn.
  - by eapply Hspawn.
  - unfold pop_que in Hp. xinv.
    match goal with H : pop _ = Ok ?a |- _ => rename H into Hpop; destruct a as [x que'] end.
    xinv. cbn.
    destruct l as [|y l'].
    + rewrite (pop_empty _ Hl) in Hpop. injection Hpop as <- <-. by exists [].
    + destruct (pop_cons _ y l' Hl) as (q & Hq & Hrq & _).
      rewrite Hq in Hpop. injection Hpop as <- <-.
      exists l'. split; [done|]. by apply NoDup_cons in Hnd as [_ ?].
Qed.

(** C3. From the state [executor_create] returns, through any sequence of
    [executor_spawn] calls, [waker_wake] calls and pops of the drive loop
    in which no future is spawned or woken while it is in the ready queue,
    no future occupies two slots of the ready queue. The code itself does
    not check that condition. *)
Theorem ready_queue_no_duplicates (cap : Z) (h : gmap addr Obj) (k : K) (w0 w : World K) :
  0 ≤ cap ≤ INT_MAX →
  executor_create cap h k = Ok w0 →
  rtc (exec_step not_queued) w0 w →
  NoDup (que_contents (Executor.que (executor w))).
Proof.
  intros Hcap Hcreate Hsteps.
  assert (Hinit : ∃ l, que_repr (Executor.que (executor w0)) l ∧ NoDup l).
  { unfold executor_create, mio_create in Hcreate.
    destruct (epoll_create1 k) as [fd k']. destruct (fd =? -1); [done|].
    cbn in Hcreate. injection Hcreate as <-. cbn.
    exists []. split; [by apply que_repr_create|apply NoDup_nil_2]. }
  clear Hcreate.
  induction Hsteps as [w|w1 w2 w3 Hstep Hsteps IH].
  - destruct Hinit as (l & Hl & Hnd). by rewrite (que_repr_contents _ _ Hl).
  - apply IH. destruct Hinit as (l & Hl & Hnd). by eapply not_queued_step.
Qed.
End Duplicates.

(** ** The registration counter of the reactor *)

Section Reactor.
Context {K : Type} {kernel_ops : Kernel K}.
Implicit Types (w : World K).

(** C10. [mio_register] and [mio_unregister] return 0 or -1 and nothing
    else, and move the counter with the answer of the kernel, except at the
    limits of [int]. A call that [epoll_ctl] refuses returns -1 whatever the
    counter holds, and the executor (the counter, hence what [mio_poll] does
    next, and the queue) and the memory are as before. A call that
    [epoll_ctl] accepts returns 0 with the counter one more, when it was
    below INT_MAX, respectively one less, when it was above INT_MIN, and
    the descriptor of the reactor, the queue and the memory as before. An
    accepted [mio_register] at INT_MAX and an accepted [mio_unregister] at
    INT_MIN overflow the counter, which is undefined. *)
Theorem mio_registration_counter (w : World K) (fd events : Z) (waker : Waker.t) :
  let add := epoll_ctl_add (Mio.epoll_fd (Executor.mio (executor w))) fd events
               (Waker.future waker) (kernel w) in
  let del := epoll_ctl_del (Mio.epoll_fd (Executor.mio (executor w))) fd (kernel w) in
  (add.1 = -1 →
     mio_register (L := Event) fd events waker w = Ok (-1, set_kernel add.2 w, [])) ∧
  (del.1 = -1 →
     mio_unregister (L := Event) fd w = Ok (-1, set_kernel del.2 w, [])) ∧
  (add.1 ≠ -1 → INT_MIN ≤ count w < INT_MAX →
     ∃ w', mio_register (L := Event) fd events waker w = Ok (0, w', []) ∧
       count w' = count w + 1 ∧
       Mio.epoll_fd (Executor.mio (executor w')) = Mio.epoll_fd (Executor.mio (executor w)) ∧
       Executor.que (executor w') = Executor.que (executor w) ∧
       heap w' = heap w ∧
       kernel w' = add.2) ∧
  (del.1 ≠ -1 → INT_MIN < count w ≤ INT_MAX →
     ∃ w', mio_unregister (L := Event) fd w = Ok (0, w', []) ∧
       count w' = count w - 1 ∧
       Mio.epoll_fd (Executor.mio (executor w')) = Mio.epoll_fd (Executor.mio (executor w)) ∧
       Executor.que (executor w') = Executor.que (executor w) ∧
       heap w' = heap w ∧
       kernel w' = del.2) ∧
  (add.1 ≠ -1 → count w = INT_MAX →
     mio_register (L := Event) fd events waker w = Stop Undefined) ∧
  (del.1 ≠ -1 → count w = INT_MIN →
     mio_unregister (L := Event) fd w = Stop Undefined).
Proof.
  intros add del. unfold count.
  assert (Hreg : mio_register (L := Event) fd events waker w =
            if add.1 =? -1 then Ok (-1, set_kernel add.2 w, [])
            else match int_add (Mio.registered_count (Executor.mio (executor w))) 1 with
                 | Ok c => Ok (0, set_executor (Executor.set_mio (Mio.set_registered_count c
                                 (Executor.mio (executor w))) (executor w))
                                 (set_kernel add.2 w), [])
                 | Stop h => Stop h
                 end).
  { unfold mio_register, get_mio, put_mio, syscall. munfold. cbn. fold add.
    destruct add as [r k']. cbn. destruct (r =? -1); [done|]. cbn.
    by destruct (int_add _ 1). }
  assert (Hunreg : mio_unregister (L := Event) fd w =
            if del.1 =? -1 then Ok (-1, set_kernel del.2 w, [])
            else match int_sub (Mio.registered_count (Executor.mio (executor w))) 1 with
                 | Ok c => Ok (0, set_executor (Executor.set_mio (Mio.set_registered_count c
                                 (Executor.mio (executor w))) (executor w))
                                 (set_kernel del.2 w), [])
                 | Stop h => Stop h
                 end).
  { unfold mio_unregister, get_mio, put_mio, syscall. munfold. cbn. fold del.
    destruct del as [r k']. cbn. destruct (r =? -1); [done|]. cbn.
    by destruct (int_sub _ 1). }
  rewrite Hreg, Hunreg. clear Hreg Hunreg.
  split; [|split; [|split; [|split; [|split]]]].
  - intros ->. done.
  - intros ->. done.
  - intros Hr Hc. destruct (Z.eqb_spec add.1 (-1)) as [?|_]; [done|].
    unfold int_add.
    destruct (Z.leb_spec INT_MIN (Mio.registered_count (Executor.mio (executor w)) + 1));
      [|unfold INT_MIN in *; lia].
    destruct (Z.leb_spec (Mio.registered_count (Executor.mio (executor w)) + 1) INT_MAX);
      [|lia].
    cbn. eexists. split; [reflexivity|]. done.
  - intros Hr Hc. destruct (Z.eqb_spec del.1 (-1)) as [?|_]; [done|].
    unfold int_sub.
    destruct (Z.leb_spec INT_MIN (Mio.registered_count (Executor.mio (executor w)) - 1));
      [|lia].
    destruct (Z.leb_spec (Mio.registered_count (Executor.mio (executor w)) - 1) INT_MAX);
      [|unfold INT_MAX in *; lia].
    cbn. eexists. split; [reflexivity|]. done.
  - intros Hr Hc. destruct (Z.eqb_spec add.1 (-1)) as [?|_]; [done|].
    unfold int_add. rewrite Hc.
    destruct (Z.leb_spec (INT_MAX + 1) INT_MAX) as [?|_]; [lia|].
    by rewrite andb_false_r.
  - intros Hr Hc. destruct (Z.eqb_spec del.1 (-1)) as [?|_]; [done|].
    unfold int_sub. rewrite Hc.
    destruct (Z.leb_spec INT_MIN (INT_MIN - 1)) as [?|_]; [lia|]. done.
Qed.
End Reactor.

(** ** The model at work *)

Section Examples.
Import Demo.
Lemma INT_MAX_pos : 0 ≤ 4 ≤ INT_MAX.
Proof. unfold INT_MAX. lia. Qed.

Lemma world_que_repr cap : 0 ≤ cap ≤ INT_MAX → que_repr (Executor.que (executor (world cap))) [].
Proof. apply que_repr_create. Qed.

Lemma demo_wait_some :
  ∀ epfd n (k : list (Z * addr)) ptrs k',
    epoll_wait epfd n k = (WaitEvents ptrs, k') → ptrs ≠ [].
Proof.
  intros epfd n k ptrs k'. cbn.
  destruct (take (Z.to_nat n) k.*2); [done|]. by intros [= <- <-].
Qed.

Lemma ready_queue_no_duplicates_witness :
  0 ≤ 4 ≤ INT_MAX ∧
  executor_create 4 memory [] = Ok (world 4) ∧
  rtc (exec_step not_queued) (world 4)
    (after (executor_spawn 10;; executor_spawn 20) (world 4)) ∧
  NoDup (que_contents (Executor.que (executor
    (after (executor_spawn 10;; executor_spawn 20) (world 4))))).
Proof.
  assert (Hsteps : rtc (exec_step not_queued) (world 4)
            (after (executor_spawn 10;; executor_spawn 20) (world 4))).
  { eapply (rtc_l _ _ (after (executor_spawn 10) (world 4))).
    - eapply (step_spawn _ _ 10); [|vm_compute; reflexivity].
      unfold not_queued. vm_compute. apply not_elem_of_nil.
    - eapply rtc_l; [|apply rtc_refl].
      eapply (step_spawn _ _ 20); [|vm_compute; reflexivity].
      unfold not_queued. vm_compute. intros Hin.
      apply list_elem_of_singleton in Hin. discriminate Hin. }
  split; [exact INT_MAX_pos|]. split; [reflexivity|]. split; [exact Hsteps|].
  exact (ready_queue_no_duplicates 4 memory [] (world 4) _ INT_MAX_pos eq_refl Hsteps).
Defined.

(** C3, as stated, fails: a future spawned and then woken while it is
    still in the queue occupies two slots. *)
Lemma ready_queue_duplicates :
  executor_create 4 memory [] = Ok (world 4) ∧
  rtc (exec_step any_future) (world 4)
    (after (executor_spawn 10;; waker_wake (Waker.mk 10)) (world 4)) ∧
  que_contents (Executor.que (executor
    (after (executor_spawn 10;; waker_wake (Waker.mk 10)) (world 4)))) = [10; 10] ∧
  ¬ NoDup (que_contents (Executor.que (executor
    (after (executor_spawn 10;; waker_wake (Waker.mk 10)) (world 4))))).
Proof.
  split; [reflexivity|]. split; [|split].
  - eapply (rtc_l _ _ (after (executor_spawn 10) (world 4))).
    + by eapply (step_spawn _ _ 10); [|vm_compute; reflexivity].
    + eapply rtc_l; [|apply rtc_refl].
      by eapply (step_wake _ _ (Waker.mk 10)); [|vm_compute; reflexivity].
  - vm_compute. reflexivity.
  - intros Hnd.
    assert (Hc : que_contents (Executor.que (executor
                   (after (executor_spawn 10;; waker_wake (Waker.mk 10)) (world 4))))
                 = [10; 10]) by (vm_compute; reflexivity).
    rewrite Hc in Hnd. apply NoDup_cons in Hnd as [Hnin _].
    apply Hnin. apply list_elem_of_singleton. reflexivity.
Qed.

(** The progress calls of the runtime on the leaves at 10 and 20 write only
    the base of the leaf they are called on. *)
Lemma progress_at_upd {K} a f (w : World K) x :
  (∀ o, Future.progress (obj_base (f o)) = Future.progress (obj_base o)) →
  Future.progress <$> base_at (upd_obj a f w) x = Future.progress <$> base_at w x.
Proof.
  intros Hf. unfold base_at. rewrite heap_upd_obj, lookup_alter.
  case_decide; [subst|done]. destruct (heap w !! x); [|done]. cbn. by rewrite Hf.
Qed.

Lemma leaves_in_place_upd a f w :
  (∀ o, Future.progress (obj_base (f o)) = Future.progress (obj_base o)) →
  leaves_in_place w → leaves_in_place (upd_obj a f w).
Proof.
  intros Hf [H1 H2]. unfold leaves_in_place. by rewrite !progress_at_upd.
Qed.

Lemma leaves_in_place_base w (f : Obj → Obj) :
  leaves_in_place w → leaves_in_place (upd_obj 30 f w).
Proof.
  intros [H1 H2]. unfold leaves_in_place. by rewrite !base_at_upd_ne.
Qed.

Lemma leaves_in_place_arg w (v : addr) :
  leaves_in_place w → leaves_in_place (upd_obj 20 (on_base (Future.set_arg v)) w).
Proof. apply leaves_in_place_upd. by intros [[]|[[]]|[[]]|[[]]]. Qed.

Lemma leaves_keep (fut : addr) wa st wb evs :
  fut = 10 ∨ fut = 20 → leaves_in_place wa →
  call fut (Waker.mk 30) wa = Ok (st, wb, evs) →
  keeps 30 wa wb ∧ leaves_in_place wb.
Proof.
  intros Hfut HP. pose proof HP as [H1 H2].
  assert (Hleaf : ∃ o code, heap wa !! fut = Some o ∧
            Future.progress (obj_base o) = leaf_progress_fn code ∧ (code = 0 ∨ code = 1)).
  { destruct Hfut as [-> | ->].
    - destruct (base_at wa 10) as [b|] eqn:Hb; [|done].
      apply base_at_heap in Hb as (o & Ho & <-). injection H1 as H1. eauto 6.
    - destruct (base_at wa 20) as [b|] eqn:Hb; [|done].
      apply base_at_heap in Hb as (o & Ho & <-). injection H2 as H2. eauto 6. }
  destruct Hleaf as (o & code & Ho & Hp & Hcode).
  unfold call. cbn [progress]. unfold load_base. munfold. rewrite Ho. cbn. rewrite Hp.
  destruct Hcode as [-> | ->]; cbn; unfold load_base; munfold; rewrite ?Ho; cbn;
    rewrite ?Ho; cbn.
  - intros [= <- <- <-]. split; [apply keeps_upd_base|].
    apply leaves_in_place_upd; [|done]. by intros [[]|[[]]|[[]]|[[]]].
  - intros [= <- <- <-]. split; [apply keeps_upd_base|].
    apply leaves_in_place_upd; [|done]. by intros [[]|[[]]|[[]]|[[]]].
Qed.

Lemma then_progress_sequential_witness :
  then_at (world 4) 30 = Some (future_then 10 20) ∧
  (∃ w', then_progress call 30 (Waker.mk 30) (world 4) =
           Ok (FUTURE_COMPLETED, w',
               [mkInvocation Fut1 10 FUTURE_COMPLETED [];
                mkInvocation Fut2 20 FUTURE_COMPLETED []]) ∧
         base_at w' 30 = Some (Future.mk then_progress_fn false NULL 8 FUTURE_SUCCESS) ∧
         Future.arg <$> base_at w' 20 = Some 7) ∧
  leaves_in_place (world 4) ∧
  ∃ sts w',
    repeat_progress (then_progress call 30 (Waker.mk 30)) 2 (world 4) =
      Ok (sts, w',
          [mkInvocation Fut1 10 FUTURE_COMPLETED [];
           mkInvocation Fut2 20 FUTURE_COMPLETED [];
           mkInvocation Fut2 20 FUTURE_COMPLETED []]) ∧
    ∃ j inv1, (j < 2)%nat ∧
      [mkInvocation Fut1 10 FUTURE_COMPLETED [];
       mkInvocation Fut2 20 FUTURE_COMPLETED [];
       mkInvocation Fut2 20 FUTURE_COMPLETED []] !! j = Some inv1 ∧
      inv_child inv1 = Fut1 ∧ inv_state inv1 = FUTURE_COMPLETED.
Proof.
  assert (Hs : then_at (world 4) 30 = Some (future_then 10 20)) by reflexivity.
  split; [exact Hs|].
  pose proof (then_progress_sequential call 30 (Waker.mk 30) (world 4) _ Hs) as H.
  cbv zeta in H. destruct H as (_ & Hfirst & Hseq).
  split; [|split].
  - pose (w1 := upd_obj 10 (on_base (Future.set_ok 7)) (world 4)).
    assert (Hc1 : call 10 (Waker.mk 30) (world 4) = Ok (FUTURE_COMPLETED, w1, []))
      by (vm_compute; reflexivity).
    pose proof (Hfirst eq_refl FUTURE_COMPLETED w1 [] Hc1 (keeps_upd_base _ _ _ _)
                  (Future.mk (leaf_progress_fn 0) false NULL 7 FUTURE_SUCCESS)
                  ltac:(vm_compute; reflexivity)
                  ltac:(eexists; vm_compute; reflexivity)) as (_ & _ & Hsecond).
    cbn [ThenFuture.fut1 ThenFuture.fut2 future_then Future.ok] in Hsecond.
    pose (w2 := upd_obj 20 (on_base (Future.set_arg 7))
                  (upd_obj 30 (on_then (ThenFuture.set_fut1_completed true)) w1)).
    pose (w3 := upd_obj 20 (on_base (Future.set_ok 8)) w2).
    assert (Hc2 : call 20 (Waker.mk 30) w2 = Ok (FUTURE_COMPLETED, w3, []))
      by (vm_compute; reflexivity).
    pose proof (Hsecond FUTURE_COMPLETED w3 []
                  (Future.mk (leaf_progress_fn 1) false 7 8 FUTURE_SUCCESS)
                  Hc2 (keeps_upd_base _ _ _ _) ltac:(vm_compute; reflexivity)) as Hrun.
    eexists. split; [exact Hrun|]. split; vm_compute; reflexivity.
  - split; reflexivity.
  - assert (Hrep : ∃ sts w',
              repeat_progress (then_progress call 30 (Waker.mk 30)) 2 (world 4) =
                Ok (sts, w',
                    [mkInvocation Fut1 10 FUTURE_COMPLETED [];
                     mkInvocation Fut2 20 FUTURE_COMPLETED [];
                     mkInvocation Fut2 20 FUTURE_COMPLETED []])).
    { eexists _, _. vm_compute. reflexivity. }
    destruct Hrep as (sts & w' & Hrep). exists sts, w'. split; [exact Hrep|].
    exact (Hseq eq_refl leaves_in_place (conj eq_refl eq_refl) leaves_keep
             leaves_in_place_base leaves_in_place_arg 2%nat sts w' _ Hrep
             2%nat _ eq_refl eq_refl).
Defined.

Lemma join_progress_concurrent_witness :
  join_at (world 4) 31 =
    Some (future_join (JoinFuture.mk junk 0 0 FUTURE_PENDING FUTURE_PENDING
                         (JoinFuture.mk_res 0 0) (JoinFuture.mk_res 0 0)) 10 20) ∧
  ∃ w', join_progress call 31 (Waker.mk 31) (world 4) =
          Ok (FUTURE_COMPLETED, w',
              [mkInvocation Fut1 10 FUTURE_COMPLETED [];
               mkInvocation Fut2 20 FUTURE_COMPLETED []]) ∧
        Future.ok <$> base_at w' 31 = Some 7.
Proof.
  split; [reflexivity|].
  pose (w1 := upd_obj 10 (on_base (Future.set_ok 7)) (world 4)).
  pose (b1 := Future.mk (leaf_progress_fn 0) false NULL 7 FUTURE_SUCCESS).
  pose (wa := upd_obj 31 (on_join (join_cache Fut1 FUTURE_COMPLETED b1)) w1).
  pose (w2 := upd_obj 20 (on_base (Future.set_ok 1)) wa).
  pose (b2 := Future.mk (leaf_progress_fn 1) false NULL 1 FUTURE_SUCCESS).
  pose (wb := upd_obj 31 (on_join (join_cache Fut2 FUTURE_COMPLETED b2)) w2).
  destruct (join_progress_concurrent call 31 (Waker.mk 31) (world 4) _ eq_refl
              FUTURE_COMPLETED wa [mkInvocation Fut1 10 FUTURE_COMPLETED []]
              FUTURE_COMPLETED wb [mkInvocation Fut2 20 FUTURE_COMPLETED []])
    as (sb & Hsb & _ & _ & _ & _ & Hrun).
  - right. split; [reflexivity|]. exists w1, [], b1.
    split; [vm_compute; reflexivity|]. split; [apply keeps_upd_base|].
    split; [vm_compute; reflexivity|]. split; reflexivity.
  - right. split; [reflexivity|]. exists w2, [], b2.
    split; [vm_compute; reflexivity|]. split; [apply keeps_upd_base|].
    split; [vm_compute; reflexivity|]. split; reflexivity.
  - eexists. split; [exact Hrun|].
    assert (Hsb' : join_at wb 31 = Some sb) by exact Hsb.
    vm_compute in Hsb'. injection Hsb' as <-. vm_compute. reflexivity.
Defined.


Lemma select_completion_idempotent_witness :
  ∃ w1, select_progress call 33 (Waker.mk 33) (world 4) =
          Ok (FUTURE_COMPLETED, w1,
              [mkInvocation Fut1 12 FUTURE_PENDING [];
               mkInvocation Fut2 20 FUTURE_COMPLETED []]) ∧
        Future.ok <$> base_at w1 33 = Some 1 ∧
        repeat_progress (select_progress call 33 (Waker.mk 33)) 3 w1 =
          Ok ([FUTURE_COMPLETED; FUTURE_COMPLETED; FUTURE_COMPLETED], w1, []).
Proof.
  assert (Hrun : ∃ w1, select_progress call 33 (Waker.mk 33) (world 4) =
            Ok (FUTURE_COMPLETED, w1,
                [mkInvocation Fut1 12 FUTURE_PENDING [];
                 mkInvocation Fut2 20 FUTURE_COMPLETED []]) ∧
            Future.ok <$> base_at w1 33 = Some 1).
  { eexists. split; vm_compute; reflexivity. }
  destruct Hrun as (w1 & Hrun & Hok). exists w1. split; [exact Hrun|]. split; [exact Hok|].
  destruct (proj2 (select_completion_idempotent call 33 (Waker.mk 33)) _ _ _ Hrun)
    as (v & _ & _ & Hrep).
  exact (Hrep 3%nat).
Defined.

(** C7, as stated, fails: the select at 33 completes by its second child,
    the leaf at 20, with [ok] 1; the Then at 30, which has the same leaf as
    its second child, then progresses it again, and the leaf leaves [ok] 8;
    the next call on the select returns FUTURE_COMPLETED with [ok] 8. The
    same happens under [executor_run] when 33, 30 and 33 are spawned. *)
Lemma select_completed_ok_changes :
  ∃ w1 w2 w3,
    select_progress call 33 (Waker.mk 33) (world 4) =
      Ok (FUTURE_COMPLETED, w1,
          [mkInvocation Fut1 12 FUTURE_PENDING [];
           mkInvocation Fut2 20 FUTURE_COMPLETED []]) ∧
    SelectFuture.which_completed <$> select_at w1 33 = Some SELECT_COMPLETED_FUT2 ∧
    Future.ok <$> base_at w1 33 = Some 1 ∧
    then_progress call 30 (Waker.mk 30) w1 =
      Ok (FUTURE_COMPLETED, w2,
          [mkInvocation Fut1 10 FUTURE_COMPLETED [];
           mkInvocation Fut2 20 FUTURE_COMPLETED []]) ∧
    select_progress call 33 (Waker.mk 33) w2 = Ok (FUTURE_COMPLETED, w3, []) ∧
    SelectFuture.which_completed <$> select_at w3 33 = Some SELECT_COMPLETED_FUT2 ∧
    Future.ok <$> base_at w3 33 = Some 8 ∧
    (1 : Z) ≠ 8 ∧
    ∃ w', (spawn_all [33; 30; 33];; executor_run leaf_code 20) (world 4) =
            Ok (tt, w', [EvSpawn 33 true; EvSpawn 30 true; EvSpawn 33 true;
                         EvProgress 33; EvProgress 30; EvProgress 33]) ∧
          Future.ok <$> base_at w' 33 = Some 8.
Proof.
  eexists _, _, _. split; [vm_compute; reflexivity|].
  split; [vm_compute; reflexivity|]. split; [vm_compute; reflexivity|].
  split; [vm_compute; reflexivity|]. split; [vm_compute; reflexivity|].
  split; [vm_compute; reflexivity|]. split; [vm_compute; reflexivity|].
  split; [done|].
  eexists. split; vm_compute; reflexivity.
Qed.

Lemma executor_run_progresses_queued_witness :
  que_repr (Executor.que (executor (world 4))) [] ∧
  ∃ w', (spawn_all [13];; executor_run leaf_code 20) (world 4) =
          Ok (tt, w', [EvSpawn 13 true; EvProgress 13; EvSpawn 13 true; EvProgress 13]) ∧
        every_queued_spawn_progressed
          [EvSpawn 13 true; EvProgress 13; EvSpawn 13 true; EvProgress 13].
Proof.
  pose proof (world_que_repr 4 INT_MAX_pos) as Hl.
  split; [exact Hl|].
  assert (Hrun : ∃ w', (spawn_all [13];; executor_run leaf_code 20) (world 4) =
            Ok (tt, w', [EvSpawn 13 true; EvProgress 13; EvSpawn 13 true; EvProgress 13])).
  { eexists. vm_compute. reflexivity. }
  destruct Hrun as [w' Hrun]. exists w'. split; [exact Hrun|].
  exact (proj1 (executor_run_progresses_queued leaf_code (world 4) w' [13] 20 [] _ Hl Hrun)).
Defined.

(** C2, as stated, fails: with a queue of capacity 1, the second future
    passed to [executor_spawn] is dropped, [executor_run] returns, and the
    future was never progressed. *)
Lemma executor_run_drops_spawned :
  ∃ w', (spawn_all [10; 20];; executor_run leaf_code 20) (world 1) =
          Ok (tt, w', [EvSpawn 10 true; EvSpawn 20 false; EvProgress 10]) ∧
        ¬ every_spawn_progressed [EvSpawn 10 true; EvSpawn 20 false; EvProgress 10].
Proof.
  eexists. split; [vm_compute; reflexivity|].
  intros H. destruct (H 1%nat 20 false eq_refl) as (j & Hlt & Hj).
  destruct j as [|[|[|j]]]; try lia; discriminate Hj.
Qed.

Lemma executor_run_returns_unregistered_witness :
  (∀ epfd n (k : list (Z * addr)) ptrs k',
     epoll_wait epfd n k = (WaitEvents ptrs, k') → ptrs ≠ []) ∧
  que_repr (Executor.que (executor (after (executor_spawn 13) (world 4)))) [13] ∧
  [13] ≠ [] ∧
  ∃ w', executor_run leaf_code 20 (after (executor_spawn 13) (world 4)) =
          Ok (tt, w', [EvProgress 13; EvSpawn 13 true; EvProgress 13]) ∧
        count w' = 0.
Proof.
  assert (Hl : que_repr (Executor.que (executor (after (executor_spawn 13) (world 4)))) [13]).
  { assert (Hspawn : executor_spawn 13 (world 4) =
              Ok (tt, after (executor_spawn 13) (world 4), [EvSpawn 13 true]))
      by (vm_compute; reflexivity).
    destruct (executor_spawn_que 13 (world 4) tt _ _ [] Hspawn (world_que_repr 4 INT_MAX_pos))
      as (l' & Hl' & [->|[-> Hfull]] & _); [exact Hl'|discriminate Hfull]. }
  assert (Hne : [13] ≠ ([] : list addr)) by discriminate.
  split; [exact demo_wait_some|]. split; [exact Hl|]. split; [exact Hne|].
  assert (Hrun : ∃ w', executor_run leaf_code 20 (after (executor_spawn 13) (world 4)) =
            Ok (tt, w', [EvProgress 13; EvSpawn 13 true; EvProgress 13])).
  { eexists. vm_compute. reflexivity. }
  destruct Hrun as [w' Hrun]. exists w'. split; [exact Hrun|].
  exact (proj1 (executor_run_returns_unregistered leaf_code _ w' 20 [13] _
                  demo_wait_some Hl Hne Hrun)).
Defined.

(** C9, as stated, fails twice. Entered with an empty queue,
    [executor_run] returns at once although a descriptor is registered; and
    [mio_poll] does not enqueue a future for each event: with a queue of
    capacity 1 and two events, the future of the second event is dropped. *)
Lemma executor_run_returns_registered :
  (∃ w w', mio_register (L := Event) 9 1 (Waker.mk 13) (world 4) = Ok (0, w, []) ∧
           executor_run leaf_code 5 w = Ok (tt, w', []) ∧
           count w' = 1) ∧
  (∃ w w', (mio_register (L := Event) 9 1 (Waker.mk 10);;
            mio_register 8 1 (Waker.mk 20)) (world 1) = Ok (0, w, []) ∧
           epoll_wait (Mio.epoll_fd (Executor.mio (executor w))) MAX_EVENTS (kernel w)
             = (WaitEvents [10; 20], kernel w) ∧
           mio_poll w = Ok (tt, w', [EvSpawn 10 true; EvSpawn 20 false]) ∧
           que_contents (Executor.que (executor w')) = [10]).
Proof.
  split.
  - eexists _, _. split; [vm_compute; reflexivity|].
    split; vm_compute; reflexivity.
  - eexists _, _. split; [vm_compute; reflexivity|].
    split; [vm_compute; reflexivity|]. split; vm_compute; reflexivity.
Qed.

Lemma mio_registration_counter_witness :
  let add := epoll_ctl_add (Mio.epoll_fd (Executor.mio (executor (world 4)))) 9 1 13
               (kernel (world 4)) in
  add.1 ≠ -1 ∧
  INT_MIN ≤ count (world 4) < INT_MAX ∧
  ∃ w', mio_register (L := Event) 9 1 (Waker.mk 13) (world 4) = Ok (0, w', []) ∧
        count w' = 1.
Proof.
  assert (Hadd : (epoll_ctl_add (Mio.epoll_fd (Executor.mio (executor (world 4)))) 9 1 13
                    (kernel (world 4))).1 ≠ -1) by (vm_compute; discriminate).
  assert (Hrange : INT_MIN ≤ count (world 4) < INT_MAX).
  { vm_compute. split; [discriminate|reflexivity]. }
  cbv zeta. split; [exact Hadd|]. split; [exact Hrange|].
  destruct (mio_registration_counter (world 4) 9 1 (Waker.mk 13))
    as (_ & _ & Hreg & _).
  destruct (Hreg Hadd Hrange) as (w' & Hrun & Hcount & _).
  exists w'. split; [exact Hrun|exact Hcount].
Defined.

(** C10, as stated for every call, fails at the limit of the counter: with
    INT_MAX descriptors counted, a registration the kernel accepts neither
    returns 0 with the counter one more nor leaves it as it was. *)
Lemma mio_register_overflows_counter :
  count (world_counting INT_MAX) = INT_MAX ∧
  epoll_ctl_add (Mio.epoll_fd (Executor.mio (executor (world_counting INT_MAX)))) 9 1 13
    (kernel (world_counting INT_MAX)) = (0, [(9, 13)]) ∧
  mio_register (L := Event) 9 1 (Waker.mk 13) (world_counting INT_MAX) = Stop Undefined.
Proof. split; [reflexivity|]. split; vm_compute; reflexivity. Qed.

(** C1 fails on the code: [future_select] leaves [base.errcode] as the
    stack had it, while [future_then] and [future_join] set it to
    FUTURE_SUCCESS; and no path of [select_progress] that returns
    FUTURE_COMPLETED writes it. So the select at 32, built where the stack
    held 7, completes at its first progress call with errcode 7. *)
Theorem select_completes_with_stale_errcode :
  (∀ fut1 fut2, Future.errcode (ThenFuture.base (future_then fut1 fut2)) = FUTURE_SUCCESS) ∧
  (∀ j fut1 fut2, Future.errcode (JoinFuture.base (future_join j fut1 fut2)) = FUTURE_SUCCESS) ∧
  (∀ j fut1 fut2, Future.errcode (SelectFuture.base (future_select j fut1 fut2))
                  = Future.errcode (SelectFuture.base j)) ∧
  select_at (world 4) 32 =
    Some (future_select (SelectFuture.mk junk 0 0 SELECT_COMPLETED_NONE) 10 20) ∧
  ∃ w', progress leaf_code 2 32 (Waker.mk 32) (world 4) = Ok (FUTURE_COMPLETED, w', []) ∧
        Future.errcode <$> base_at w' 32 = Some 7 ∧
        7 ≠ FUTURE_SUCCESS.
Proof.
  split; [done|]. split; [done|]. split; [done|]. split; [reflexivity|].
  eexists. split; [vm_compute; reflexivity|]. split; [vm_compute; reflexivity|done].
Qed.
End Examples.

(** * Further properties of the executor and the reactor *)

Section SpawnAndPoll.
Context {K : Type} {kernel_ops : Kernel K}.
Implicit Types (w : World K) (fut : addr) (l : list addr).

Lemma executor_upd_obj a f w : executor (upd_obj a f w) = executor w.
Proof. reflexivity. Qed.

Lemma executor_spawn_spec w fut l :
  que_repr (Executor.que (executor w)) l →
  is_Some (heap w !! fut) →
  ∃ w', executor_spawn fut w =
          Ok (tt, w', [EvSpawn fut (negb (Z.of_nat (length l)
                                          =? FutQue.max_size (Executor.que (executor w))))]) ∧
    heap w' = alter (on_base (Future.set_is_active true)) fut (heap w) ∧
    que_repr (Executor.que (executor w'))
      (fifo_push (FutQue.max_size (Executor.que (executor w))) l fut) ∧
    FutQue.max_size (Executor.que (executor w')) = FutQue.max_size (Executor.que (executor w)) ∧
    Executor.mio (executor w') = Executor.mio (executor w) ∧
    kernel w' = kernel w.
Proof.
  intros Hl [o Ho]. pose proof Hl as (Hsz & _).
  unfold executor_spawn, get_que, put_que. munfold. rewrite Ho. cbn.
  rewrite !executor_upd_obj. unfold fifo_push. rewrite <- Hsz.
  destruct (Z.eqb_spec (FutQue.size (Executor.que (executor w)))
              (FutQue.max_size (Executor.que (executor w)))) as [Hfull|Hroom].
  - rewrite (push_full _ l fut Hl) by lia. cbn.
    eexists. split; [reflexivity|]. cbn. done.
  - destruct (push_room _ l fut Hl) as (q & Hq & Hrq & Hmax); [lia|].
    rewrite Hq. cbn. eexists. split; [reflexivity|]. cbn. done.
Qed.

(** X1. [executor_spawn] of an address that holds no future is undefined.
    Otherwise, on a queue that holds [l], it returns having set [is_active]
    of the future and nothing else in the memory, with the queue holding
    [l] followed by the future, or [l] itself when the queue was full: the
    future is marked active even when it is dropped. The capacity, the
    reactor and the kernel are as before. *)
Theorem executor_spawn_marks_and_enqueues w fut l :
  que_repr (Executor.que (executor w)) l →
  (heap w !! fut = None → executor_spawn fut w = Stop Undefined) ∧
  (is_Some (heap w !! fut) →
   ∃ w', executor_spawn fut w =
           Ok (tt, w', [EvSpawn fut (negb (Z.of_nat (length l)
                                           =? FutQue.max_size (Executor.que (executor w))))]) ∧
     heap w' = alter (on_base (Future.set_is_active true)) fut (heap w) ∧
     que_repr (Executor.que (executor w'))
       (fifo_push (FutQue.max_size (Executor.que (executor w))) l fut) ∧
     FutQue.max_size (Executor.que (executor w')) = FutQue.max_size (Executor.que (executor w)) ∧
     Executor.mio (executor w') = Executor.mio (executor w) ∧
     kernel w' = kernel w).
Proof.
  intros Hl. split.
  - intros Hnone. unfold executor_spawn. munfold. by rewrite Hnone.
  - by apply executor_spawn_spec.
Qed.

Lemma wake_events_spec ptrs : ∀ w l,
  que_repr (Executor.que (executor w)) l →
  (∀ p, p ∈ ptrs → is_Some (heap w !! p)) →
  ∃ w' evs, wake_events ptrs w = Ok (tt, w', evs) ∧
    heap w' = mark_active ptrs (heap w) ∧
    que_repr (Executor.que (executor w'))
      (foldl (fifo_push (FutQue.max_size (Executor.que (executor w)))) l ptrs) ∧
    FutQue.max_size (Executor.que (executor w')) = FutQue.max_size (Executor.que (executor w)) ∧
    Executor.mio (executor w') = Executor.mio (executor w) ∧
    kernel w' = kernel w ∧
    progressed evs = [] ∧ length evs = length ptrs.
Proof.
  induction ptrs as [|p ptrs IH]; intros w l Hl Hlive.
  - exists w, []. by cbn.
  - destruct (executor_spawn_spec w p l Hl) as (w1 & Hs & Hh & Hq & Hm & Hmio & Hk).
    { apply Hlive. by left. }
    destruct (IH w1 _ Hq) as (w' & evs & Hrun & Hh' & Hq' & Hm' & Hmio' & Hk' & Hp & Hlen).
    { intros p' Hp'. rewrite Hh, lookup_alter_is_Some. apply Hlive. by right. }
    cbn [wake_events]. unfold waker_wake. cbn [Waker.future].
    rewrite (M_bind_ok _ _ _ _ _ _ Hs), Hrun.
    eexists _, _. split; [reflexivity|].
    rewrite Hh', Hh, Hm', Hm, Hmio', Hmio, Hk', Hk. rewrite Hm in Hq'.
    split; [done|]. split; [done|]. split; [done|]. split; [done|]. split; [done|].
    split; [done|]. cbn. by rewrite Hlen.
Qed.

Lemma wake_events_dangling ptrs : ∀ w l p,
  que_repr (Executor.que (executor w)) l →
  p ∈ ptrs → heap w !! p = None →
  wake_events ptrs w = Stop Undefined.
Proof.
  induction ptrs as [|q ptrs IH]; intros w l p Hl Hin Hnone.
  - by apply elem_of_nil in Hin.
  - cbn [wake_events]. unfold waker_wake. cbn [Waker.future].
    destruct (heap w !! q) as [o|] eqn:Hq.
    + destruct (executor_spawn_spec w q l Hl) as (w1 & Hs & Hh & Hq1 & _); [by eexists|].
      rewrite (M_bind_ok _ _ _ _ _ _ Hs).
      apply elem_of_cons in Hin as [->|Hin]; [congruence|].
      rewrite (IH w1 _ p Hq1 Hin); [done|].
      rewrite Hh. apply eq_None_not_Some. rewrite lookup_alter_is_Some.
      by rewrite Hnone; intros [? ?].
    + unfold executor_spawn. munfold. by rewrite Hq.
Qed.

(** X2. When descriptors are registered and [epoll_wait] returns the events
    [ptrs], all of live futures, [mio_poll] returns having called
    [waker_wake] for each in the order of the events: each is marked
    active, and each is appended to the queue unless the queue is full at
    its turn. The counter is as before, no future was progressed, and the
    kernel is as [epoll_wait] left it. If an event names an address that
    holds no future, [mio_poll] is undefined. *)
Theorem mio_poll_wakes_in_order w l ptrs k' :
  que_repr (Executor.que (executor w)) l →
  count w ≠ 0 →
  epoll_wait (Mio.epoll_fd (Executor.mio (executor w))) MAX_EVENTS (kernel w)
    = (WaitEvents ptrs, k') →
  ((∀ p, p ∈ ptrs → is_Some (heap w !! p)) →
   ∃ w' evs, mio_poll w = Ok (tt, w', evs) ∧
     heap w' = mark_active ptrs (heap w) ∧
     que_repr (Executor.que (executor w'))
       (foldl (fifo_push (FutQue.max_size (Executor.que (executor w)))) l ptrs) ∧
     count w' = count w ∧
     kernel w' = k' ∧
     progressed evs = [] ∧ length evs = length ptrs) ∧
  (∀ p, p ∈ ptrs → heap w !! p = None → mio_poll w = Stop Undefined).
Proof.
  intros Hl Hc Hw. rewrite (mio_poll_waits w Hc), Hw. split.
  - intros Hlive.
    destruct (wake_events_spec ptrs (set_kernel k' w) l Hl Hlive)
      as (w' & evs & Hrun & Hh & Hq & Hm & Hmio & Hk & Hp & Hlen).
    cbn in Hh, Hq, Hmio, Hk.
    exists w', evs. unfold count. rewrite Hmio. done.
  - intros p Hin Hnone. by eapply (wake_events_dangling ptrs (set_kernel k' w) l p).
Qed.
End SpawnAndPoll.

Section RunTrace.
Context {K : Type} {kernel_ops : Kernel K} {codes : ErrCodes}.
Variable leaf_code : Z → LeafProg.
Implicit Types (w : World K) (fut : addr) (evs : list Event).

(** X3. When [executor_run] returns, the ready queue is empty and has the
    capacity it had. *)
Theorem executor_run_leaves_queue_empty w w' fuel evs :
  executor_run leaf_code fuel w = Ok (tt, w', evs) →
  isEmpty (Executor.que (executor w')) = true ∧
  FutQue.size (Executor.que (executor w')) = 0 ∧
  FutQue.max_size (Executor.que (executor w')) = FutQue.max_size (Executor.que (executor w)) ∧
  ∀ l, que_repr (Executor.que (executor w)) l →
       que_repr (Executor.que (executor w')) [] ∧ que_contents (Executor.que (executor w')) = [].
Proof.
  intros Hrun.
  destruct (executor_run_tracks leaf_code _ _ _ _ _ Hrun) as [[Hmax Ht] Hempty].
  split; [done|]. split; [by apply Z.eqb_eq|]. split; [done|].
  intros l Hl. destruct (Ht l Hl) as (l' & Hl' & _).
  rewrite (que_repr_empty _ _ Hl' Hempty) in Hl'.
  split; [done|]. by apply que_repr_contents.
Qed.

Lemma replay_progressed evs : ∀ l l',
  replay evs l = Some l' → l ++ enqueued evs = progressed evs ++ l'.
Proof.
  induction evs as [|[f [|]|f] evs IH]; intros l l' Hr; cbn in Hr.
  - injection Hr as ->. cbn. by rewrite app_nil_r.
  - change (enqueued (EvSpawn f true :: evs)) with (f :: enqueued evs).
    change (progressed (EvSpawn f true :: evs)) with (progressed evs).
    rewrite <- (IH _ _ Hr). by rewrite <- app_assoc.
  - by apply IH.
  - destruct l as [|f' l0]; [done|]. case_decide as Heq; [subst f'|done].
    change (enqueued (EvProgress f :: evs)) with (enqueued evs).
    change (progressed (EvProgress f :: evs)) with (f :: progressed evs).
    cbn. f_equal. by apply IH.
Qed.

(** X4. What the drive loop progressed, in order, when [executor_run]
    returns: the futures the queue held at the start, then the futures the
    spawns and wakes enqueued, each once per entry and in the order of the
    entries. *)
Theorem executor_run_progresses_in_fifo_order w w' futs fuel l evs :
  que_repr (Executor.que (executor w)) l →
  (spawn_all futs;; executor_run leaf_code fuel) w = Ok (tt, w', evs) →
  progressed evs = l ++ enqueued evs.
Proof.
  intros Hl H.
  apply M_bind_inv in H as (u & w1 & l1 & l2 & Hsp & Hrun & ->).
  pose proof (sound_spawn_all futs _ _ _ _ Hsp) as Hs. rewrite events_of_events in Hs.
  destruct (executor_run_tracks leaf_code _ _ _ _ _ Hrun) as [Hr Hempty].
  destruct (tracks_trans _ _ _ _ _ Hs Hr) as [_ Ht].
  destruct (Ht l Hl) as (l' & Hl' & Hrep).
  rewrite (que_repr_empty _ _ Hl' Hempty) in Hrep.
  apply replay_progressed in Hrep. by rewrite app_nil_r in Hrep.
Qed.
End RunTrace.

Section ReactorMore.
Context {K : Type} {kernel_ops : Kernel K}.
Implicit Types (w : World K).

(** X5. A registration the kernel accepts followed by an unregistration the
    kernel accepts returns 0 and leaves the executor and the memory as
    they were: the counter is back to its value, below INT_MAX at the
    start. Only the kernel has moved. *)
Theorem mio_register_unregister_round_trip w fd events waker r1 k1 r2 k2 :
  INT_MIN ≤ count w < INT_MAX →
  epoll_ctl_add (Mio.epoll_fd (Executor.mio (executor w))) fd events
    (Waker.future waker) (kernel w) = (r1, k1) →
  r1 ≠ -1 →
  epoll_ctl_del (Mio.epoll_fd (Executor.mio (executor w))) fd k1 = (r2, k2) →
  r2 ≠ -1 →
  (mio_register (L := Event) fd events waker;; mio_unregister fd) w
    = Ok (0, set_kernel k2 w, []).
Proof.
  unfold count. intros Hrange Hadd Hr1 Hdel Hr2.
  unfold mio_register, mio_unregister, get_mio, put_mio, syscall. munfold. cbn.
  rewrite Hadd. cbn.
  destruct (Z.eqb_spec r1 (-1)) as [?|_]; [done|]. cbn.
  unfold int_add.
  destruct (Z.leb_spec INT_MIN (Mio.registered_count (Executor.mio (executor w)) + 1)); [|lia].
  destruct (Z.leb_spec (Mio.registered_count (Executor.mio (executor w)) + 1) INT_MAX); [|lia].
  cbn. rewrite Hdel. cbn.
  destruct (Z.eqb_spec r2 (-1)) as [?|_]; [done|]. cbn.
  unfold int_sub.
  replace (Mio.registered_count (Executor.mio (executor w)) + 1 - 1)
    with (Mio.registered_count (Executor.mio (executor w))) by lia.
  destruct (Z.leb_spec INT_MIN (Mio.registered_count (Executor.mio (executor w)))); [|lia].
  destruct (Z.leb_spec (Mio.registered_count (Executor.mio (executor w))) INT_MAX); [|lia].
  cbn. f_equal. f_equal. f_equal. by destruct w as [h [[fd' c] q] k].
Qed.

End ReactorMore.

Section Create.
Context {K : Type} {kernel_ops : Kernel K} {codes : ErrCodes}.
Variable leaf_code : Z → LeafProg.
Implicit Types (w : World K).

End Create.

(** ** The layout of the memory *)

Section Layout.
Context {K : Type}.
Implicit Types (w : World K) (a : addr).

Lemma same_layout_refl w : same_layout w w.
Proof. by intros a. Qed.

Lemma same_layout_trans w1 w2 w3 : same_layout w1 w2 → same_layout w2 w3 → same_layout w1 w3.
Proof. intros H1 H2 a. by rewrite H2, H1. Qed.

Lemma same_layout_heap w w' : heap w' = heap w → same_layout w w'.
Proof. intros Hh a. by rewrite Hh. Qed.

Lemma same_layout_upd_obj a f w :
  (∀ o, obj_layout (f o) = obj_layout o) → same_layout w (upd_obj a f w).
Proof.
  intros Hf a'. rewrite heap_upd_obj. destruct (decide (a = a')) as [->|Hne].
  - rewrite lookup_alter_eq. destruct (heap w !! a'); cbn; [|done]. by rewrite Hf.
  - by rewrite lookup_alter_ne.
Qed.

Lemma stable_ret {L A} (x : A) : stable (mret x : M K L A).
Proof. intros w a' w' l H. minv. apply same_layout_refl. Qed.

Lemma stable_bind {L A B} (m : M K L A) (f : A → M K L B) :
  stable m → (∀ x, stable (f x)) → stable (m ≫= f).
Proof.
  intros Hm Hf w b w' l H.
  apply M_bind_inv in H as (x & w1 & l1 & l2 & H1 & H2 & ->).
  eapply same_layout_trans; [by eapply Hm|by eapply Hf].
Qed.

Lemma stable_stop {L A} h : stable (stop h : M K L A).
Proof. by intros w a w' l H. Qed.

Lemma stable_emit {L} (e : L) : stable (emit e : M K L unit).
Proof. intros w u w' l H. minv. apply same_layout_refl. Qed.

Lemma stable_lift_res {L A} (r : Res A) : stable (lift_res r : M K L A).
Proof. intros w o w' l H. minv. apply same_layout_refl. Qed.

Lemma stable_load_obj {L} a : stable (load_obj a : M K L Obj).
Proof. intros w o w' l H. minv. apply same_layout_refl. Qed.

Lemma stable_load_base {L} a : stable (load_base a : M K L Future.t).
Proof. intros w o w' l H. minv. apply same_layout_refl. Qed.

Lemma stable_load_then {L} a : stable (load_then a : M K L ThenFuture.t).
Proof. intros w o w' l H. minv. apply same_layout_refl. Qed.

Lemma stable_load_join {L} a : stable (load_join a : M K L JoinFuture.t).
Proof. intros w o w' l H. minv. apply same_layout_refl. Qed.

Lemma stable_load_select {L} a : stable (load_select a : M K L SelectFuture.t).
Proof. intros w o w' l H. minv. apply same_layout_refl. Qed.

(** The writes the source makes: to [is_active], [arg], [ok] and
    [errcode] of a base, to the flag of a Then, to the recorded states and
    results of a Join and to the tag of a Select. *)
Lemma stable_modify_base {L} a f :
  (∀ b, Future.progress (f b) = Future.progress b) →
  stable (modify_base a f : M K L unit).
Proof.
  intros Hf w o w' l H. minv. apply same_layout_upd_obj.
  intros [b p|s|s|s]; cbn; by rewrite Hf.
Qed.

Lemma stable_modify_then {L} a v :
  stable (modify_then a (ThenFuture.set_fut1_completed v) : M K L unit).
Proof. intros w o w' l H. minv. apply same_layout_upd_obj. by intros []. Qed.

Lemma stable_modify_join {L} a f :
  (∀ s, JoinFuture.base (f s) = JoinFuture.base s ∧
        JoinFuture.fut1 (f s) = JoinFuture.fut1 s ∧
        JoinFuture.fut2 (f s) = JoinFuture.fut2 s) →
  stable (modify_join a f : M K L unit).
Proof.
  intros Hf w o w' l H. minv. apply same_layout_upd_obj.
  intros [b p|s|s|s]; cbn; try done.
  destruct (Hf s) as (-> & -> & ->). done.
Qed.

Lemma stable_modify_select {L} a v :
  stable (modify_select a (SelectFuture.set_which_completed v) : M K L unit).
Proof. intros w o w' l H. minv. apply same_layout_upd_obj. by intros []. Qed.

Lemma stable_invoke (call : addr → Waker.t → M K Event FutureState) c fut wk :
  stable (call fut wk) → stable (invoke call c fut wk).
Proof. intros Hc w st w' l H. minv. by eapply Hc. Qed.

Lemma stable_run_combinator {A} (m : M K Invocation A) : stable m → stable (run_combinator m).
Proof.
  intros Hm w a w' l H. unfold run_combinator in H.
  destruct (m w) as [[[a0 w0] invs]|] eqn:Hmw; [|done].
  injection H as <- <- <-. by eapply Hm.
Qed.
End Layout.

Create HintDb stable discriminated.

#[global] Hint Resolve stable_ret stable_stop stable_emit stable_lift_res stable_load_obj
  stable_load_base stable_load_then stable_load_join stable_load_select
  stable_modify_then stable_modify_select stable_invoke stable_run_combinator : stable.

#[global] Hint Extern 1 (stable (modify_base _ _)) =>
  apply stable_modify_base; intros ?; reflexivity : stable.

#[global] Hint Extern 1 (stable (modify_join _ _)) =>
  apply stable_modify_join; intros ?; repeat split : stable.

(** Follows the structure of a computation down to its primitives. *)
Ltac stable_auto :=
  repeat first
    [ solve [eauto with stable]
    | apply stable_bind; [|intros ?]
    | match goal with
      | |- stable (match ?x with _ => _ end) => destruct x
      | |- stable (if ?b then _ else _) => destruct b
      end ].

Section LayoutRuntime.
Context {K : Type} {kernel_ops : Kernel K} {codes : ErrCodes}.
Implicit Types (w : World K) (fut : addr).

Lemma stable_get_mio {L} : stable (get_mio : M K L Mio.t).
Proof. intros w o w' l H. xinv. apply same_layout_refl. Qed.

Lemma stable_put_mio {L} mio : stable (put_mio mio : M K L unit).
Proof. intros w o w' l H. xinv. by apply same_layout_heap. Qed.

Lemma stable_get_que {L} : stable (get_que : M K L FutQue.t).
Proof. intros w o w' l H. xinv. apply same_layout_refl. Qed.

Lemma stable_put_que {L} que : stable (put_que que : M K L unit).
Proof. intros w o w' l H. xinv. by apply same_layout_heap. Qed.

Lemma stable_syscall {L A} (f : K → A * K) : stable (syscall f : M K L A).
Proof. intros w o w' l H. xinv. by apply same_layout_heap. Qed.

Hint Resolve stable_get_mio stable_put_mio stable_get_que stable_put_que stable_syscall
  : stable.

Lemma stable_executor_spawn fut : stable (executor_spawn (K := K) fut).
Proof. unfold executor_spawn. stable_auto. Qed.

Lemma stable_waker_wake waker : stable (waker_wake (K := K) waker).
Proof. apply stable_executor_spawn. Qed.

Hint Resolve stable_executor_spawn stable_waker_wake : stable.

Lemma stable_wake_events ptrs : stable (wake_events (K := K) ptrs).
Proof. induction ptrs as [|p ptrs IH]; cbn [wake_events]; stable_auto. Qed.

Lemma stable_mio_register fd events waker :
  stable (mio_register fd events waker : M K Event Z).
Proof. unfold mio_register. stable_auto. Qed.

Lemma stable_mio_unregister fd : stable (mio_unregister fd : M K Event Z).
Proof. unfold mio_unregister. stable_auto. Qed.

Hint Resolve stable_wake_events stable_mio_register stable_mio_unregister : stable.

Lemma stable_mio_poll : stable (mio_poll (K := K)).
Proof. unfold mio_poll. stable_auto. Qed.

Lemma stable_pop_que : stable (pop_que (K := K)).
Proof.
  unfold pop_que. apply stable_bind; [apply stable_get_que|]. intros que.
  apply stable_bind; [apply stable_lift_res|]. intros [fut que']. stable_auto.
Qed.

Section Call.
Variable call : addr → Waker.t → M K Event FutureState.
Hypothesis stable_call : ∀ fut wk, stable (call fut wk).

Lemma stable_then_progress base waker : stable (then_progress call base waker).
Proof. unfold then_progress, then_progress_fut2. stable_auto. Qed.

Lemma stable_join_progress base waker : stable (join_progress call base waker).
Proof.
  unfold join_progress, join_progress_fut1, join_progress_fut2, join_progress_result.
  stable_auto.
Qed.

Lemma stable_select_progress base waker : stable (select_progress call base waker).
Proof.
  unfold select_progress, select_progress_fut1, select_progress_fut2. stable_auto.
Qed.
End Call.

Variable leaf_code : Z → LeafProg.

Lemma stable_load_priv a : stable (load_priv (K := K) a).
Proof. unfold load_priv. stable_auto. Qed.

Lemma stable_store_priv a v : stable (store_priv (K := K) a v).
Proof.
  intros w u w' l H. unfold store_priv in H.
  apply M_bind_inv in H as (p & w1 & l1 & l2 & H1 & H2 & ->).
  pose proof (stable_load_priv a w p w1 l1 H1) as Ht.
  xinv. eapply same_layout_trans; [done|].
  apply same_layout_upd_obj. by intros [].
Qed.

Hint Resolve stable_load_priv stable_store_priv stable_mio_poll stable_pop_que : stable.

Lemma stable_run_leaf p self waker : stable (run_leaf (K := K) p self waker).
Proof. induction p; cbn [run_leaf]; stable_auto. Qed.

Lemma stable_progress fuel : ∀ fut waker, stable (progress leaf_code fuel fut waker).
Proof.
  induction fuel as [|n IH]; intros fut waker; cbn [progress]; [apply stable_stop|].
  apply stable_bind; [apply stable_load_base|]. intros b.
  destruct (Future.progress b).
  - apply stable_run_combinator. by apply stable_then_progress.
  - apply stable_run_combinator. by apply stable_join_progress.
  - apply stable_run_combinator. by apply stable_select_progress.
  - apply stable_run_leaf.
Qed.

Lemma stable_drain fuel : stable (drain leaf_code fuel).
Proof.
  induction fuel as [|n IH]; cbn [drain]; [apply stable_stop|].
  pose proof (stable_progress n) as Hp.
  stable_auto.
Qed.

Lemma stable_executor_run fuel : stable (executor_run leaf_code fuel).
Proof.
  induction fuel as [|n IH]; cbn [executor_run]; [apply stable_stop|].
  pose proof (stable_drain n) as Hd.
  stable_auto.
Qed.

Lemma same_layout_then_at w w' a s :
  same_layout w w' → then_at w a = Some s →
  ∃ s', then_at w' a = Some s' ∧
        ThenFuture.fut1 s' = ThenFuture.fut1 s ∧ ThenFuture.fut2 s' = ThenFuture.fut2 s.
Proof.
  intros Hl Hs. apply then_at_heap in Hs. specialize (Hl a). rewrite Hs in Hl.
  destruct (heap w' !! a) as [[| s' | |]|] eqn:Ha; try done.
  cbn in Hl. injection Hl as _ H1 H2. exists s'. by rewrite then_at_heap.
Qed.

(** X7. [executor_run] frees and creates no future and never changes what a
    future is: when it returns, the same addresses hold futures, each with
    the [progress] function it had, and every combinator has the two
    children it had. *)
Theorem executor_run_keeps_layout w w' fuel evs :
  executor_run leaf_code fuel w = Ok (tt, w', evs) →
  (∀ a, obj_layout <$> heap w' !! a = obj_layout <$> heap w !! a) ∧
  dom (heap w') = dom (heap w) ∧
  (∀ a b, base_at w a = Some b →
     ∃ b', base_at w' a = Some b' ∧ Future.progress b' = Future.progress b) ∧
  (∀ a s, then_at w a = Some s →
     ∃ s', then_at w' a = Some s' ∧
           ThenFuture.fut1 s' = ThenFuture.fut1 s ∧ ThenFuture.fut2 s' = ThenFuture.fut2 s) ∧
  (∀ a s, join_at w a = Some s →
     ∃ s', join_at w' a = Some s' ∧
           JoinFuture.fut1 s' = JoinFuture.fut1 s ∧ JoinFuture.fut2 s' = JoinFuture.fut2 s) ∧
  (∀ a s, select_at w a = Some s →
     ∃ s', select_at w' a = Some s' ∧
           SelectFuture.fut1 s' = SelectFuture.fut1 s ∧
           SelectFuture.fut2 s' = SelectFuture.fut2 s).
Proof.
  intros Hrun. pose proof (stable_executor_run fuel _ _ _ _ Hrun) as Hl.
  split; [exact Hl|]. split; [|split; [|split; [|split]]].
  - apply set_eq. intros a. rewrite !elem_of_dom.
    specialize (Hl a).
    rewrite <- (fmap_is_Some obj_layout (heap w' !! a)),
      <- (fmap_is_Some obj_layout (heap w !! a)). by rewrite Hl.
  - intros a b Hb. apply base_at_heap in Hb as (o & Ho & <-).
    specialize (Hl a). rewrite Ho in Hl. unfold base_at.
    destruct (heap w' !! a) as [o'|]; [|done]. cbn in Hl |- *.
    eexists. split; [done|].
    destruct o as [[]|[[]]|[[]]|[[]]], o' as [[]|[[]]|[[]]|[[]]]; cbn in *; congruence.
  - intros a s. by apply same_layout_then_at.
  - intros a s Hs. apply join_at_heap in Hs. specialize (Hl a). rewrite Hs in Hl.
    destruct (heap w' !! a) as [[| | s' |]|] eqn:Ha; try done.
    cbn in Hl. injection Hl as _ H1 H2. exists s'. by rewrite join_at_heap.
  - intros a s Hs. apply select_at_heap in Hs. specialize (Hl a). rewrite Hs in Hl.
    destruct (heap w' !! a) as [[| | | s']|] eqn:Ha; try done.
    cbn in Hl. injection Hl as _ H1 H2. exists s'. by rewrite select_at_heap.
Qed.
End LayoutRuntime.

(** ** Further properties of the combinators *)

Section CombinatorsMore.
Context {K : Type} {codes : ErrCodes}.
Variable call : addr → Waker.t → M K Event FutureState.
Variables (base : addr) (waker : Waker.t).
Implicit Types (w : World K).

(** Writing the same value twice into a member of a base is writing it
    once. *)
Lemma upd_base_twice w g :
  (∀ b, g (g b) = g b) →
  upd_obj base (on_base g) (upd_obj base (on_base g) w) = upd_obj base (on_base g) w.
Proof.
  intros Hg. rewrite upd_obj_twice. apply upd_obj_ext. intros o _.
  destruct o; cbn; by rewrite Hg.
Qed.

Lemma join_at_upd_base w s g :
  join_at w base = Some s →
  join_at (upd_obj base (on_base g) w) base
    = Some (JoinFuture.set_base (g (JoinFuture.base s)) s).
Proof.
  intros Hs. apply join_at_heap in Hs. unfold join_at.
  by rewrite heap_upd_obj, lookup_alter_eq, Hs.
Qed.

Lemma join_progress_done w s :
  join_at w base = Some s →
  JoinFuture.fut1_completed s ≠ FUTURE_PENDING →
  JoinFuture.fut2_completed s ≠ FUTURE_PENDING →
  join_progress call base waker w = join_progress_result (K := K) base w.
Proof.
  intros Hs H1 H2. unfold join_progress.
  rewrite (M_bind_ok _ _ _ _ _ _ (join_progress_fut1_skip call base waker w s Hs H1)).
  rewrite (M_bind_ok _ _ _ _ _ _ (join_progress_fut2_skip call base waker w s Hs H2)).
  by destruct (join_progress_result base w) as [[[]]|].
Qed.

(** X8. Once both children of a join are recorded as finished,
    [join_progress] progresses no child and returns FUTURE_COMPLETED if both
    completed and FUTURE_FAILURE otherwise; the calls that follow return the
    same state and leave the world as the first of them left it. *)
Theorem join_progress_terminal_idempotent w s :
  join_at w base = Some s →
  JoinFuture.fut1_completed s ≠ FUTURE_PENDING →
  JoinFuture.fut2_completed s ≠ FUTURE_PENDING →
  ∃ st w1,
    join_progress call base waker w = Ok (st, w1, []) ∧
    st ≠ FUTURE_PENDING ∧
    (st = FUTURE_COMPLETED ↔
       JoinFuture.fut1_completed s = FUTURE_COMPLETED ∧
       JoinFuture.fut2_completed s = FUTURE_COMPLETED) ∧
    ∀ n, repeat_progress (join_progress call base waker) n w1
         = Ok (replicate n st, w1, []).
Proof.
  intros Hs H1 H2.
  assert (Hrep : ∀ st g,
            (∀ b, g (g b) = g b) →
            (∀ s', JoinFuture.fut1_completed s' = JoinFuture.fut1_completed s →
                   JoinFuture.fut2_completed s' = JoinFuture.fut2_completed s →
                   JoinFuture.result_fut1 s' = JoinFuture.result_fut1 s →
                   ∀ w', join_at w' base = Some s' →
                     join_progress_result (K := K) base w'
                       = Ok (st, upd_obj base (on_base g) w', [])) →
            ∀ n, repeat_progress (join_progress call base waker) n
                   (upd_obj base (on_base g) w)
                 = Ok (replicate n st, upd_obj base (on_base g) w, [])).
  { intros st g Hg Hres n. induction n as [|n IH]; [done|].
    cbn [repeat_progress replicate].
    pose proof (join_at_upd_base w s g Hs) as Hs1.
    assert (Hstep : join_progress call base waker (upd_obj base (on_base g) w)
                    = Ok (st, upd_obj base (on_base g) w, [])).
    { rewrite (join_progress_done _ _ Hs1) by done.
      rewrite (Hres (JoinFuture.set_base (g (JoinFuture.base s)) s)
                 eq_refl eq_refl eq_refl _ Hs1).
      by rewrite (upd_base_twice w g Hg). }
    rewrite (M_bind_ok _ _ _ _ _ _ Hstep), (M_bind_ok _ _ _ _ _ _ IH). done. }
  rewrite (join_progress_done w s Hs H1 H2).
  rewrite (join_progress_result_spec base w s Hs).
  destruct (JoinFuture.fut1_completed s) eqn:E1, (JoinFuture.fut2_completed s) eqn:E2;
    try done.
  - eexists _, _. split; [reflexivity|]. split; [done|]. split; [done|].
    apply Hrep; [done|].
    intros s' F1 F2 F3 w' Hs'. rewrite (join_progress_result_spec base w' s' Hs').
    by rewrite F1, F2, F3.
  - eexists _, _. split; [reflexivity|]. split; [done|]. split; [by split; [|intros []]|].
    apply Hrep; [done|].
    intros s' F1 F2 F3 w' Hs'. rewrite (join_progress_result_spec base w' s' Hs').
    by rewrite F1, F2.
  - eexists _, _. split; [reflexivity|]. split; [done|]. split; [by split; [|intros []]|].
    apply Hrep; [done|].
    intros s' F1 F2 F3 w' Hs'. rewrite (join_progress_result_spec base w' s' Hs').
    by rewrite F1, F2.
  - eexists _, _. split; [reflexivity|]. split; [done|]. split; [by split; [|intros []]|].
    apply Hrep; [done|].
    intros s' F1 F2 F3 w' Hs'. rewrite (join_progress_result_spec base w' s' Hs').
    by rewrite F1, F2.
Qed.

(** *** Then: the first child is left alone once it has completed *)

Section ThenFramed.
Variables (f1 f2 : addr) (P : World K → Prop).
Hypothesis call_keeps :
  ∀ fut wa st wb evs, fut = f1 ∨ fut = f2 → P wa →
    call fut waker wa = Ok (st, wb, evs) → keeps base wa wb ∧ P wb.
Hypothesis P_base : ∀ wa f, P wa → P (upd_obj base f wa).
Hypothesis P_arg : ∀ wa v, P wa → P (upd_obj f2 (on_base (Future.set_arg v)) wa).

Lemma then_repeat_completed n : ∀ w s sts w' invs,
  P w → then_at w base = Some s →
  ThenFuture.fut1 s = f1 → ThenFuture.fut2 s = f2 →
  ThenFuture.fut1_completed s = true →
  repeat_progress (then_progress call base waker) n w = Ok (sts, w', invs) →
  ∀ i inv, invs !! i = Some inv → inv_child inv = Fut2.
Proof.
  induction n as [|n IH]; intros w s sts w' invs HP Hs Hfa Hfb Hflag Hrep i inv Hi.
  - apply M_ret_inv in Hrep as (_ & _ & ->). done.
  - apply repeat_progress_S_inv in Hrep
      as (st & w1 & l1 & sts' & l2 & Hstep & Hrep & -> & ->).
    destruct (then_progress_inv call base waker f1 f2 P call_keeps P_base P_arg
                _ _ _ _ _ HP Hs Hfa Hfb Hstep)
      as (HP1 & s1 & Hs1 & Hga & Hgb & Hcase).
    rewrite Hflag in Hcase. destruct Hcase as (Hfl1 & st2 & ev2 & ->).
    destruct i as [|i]; simpl in Hi.
    + by injection Hi as <-.
    + by eapply (IH _ _ _ _ _ HP1 Hs1 Hga Hgb Hfl1 Hrep i).
Qed.

Lemma then_repeat_never_back n : ∀ w s sts w' invs,
  P w → then_at w base = Some s →
  ThenFuture.fut1 s = f1 → ThenFuture.fut2 s = f2 →
  repeat_progress (then_progress call base waker) n w = Ok (sts, w', invs) →
  ∀ i j inv_i inv_j, (i < j)%nat →
    invs !! i = Some inv_i → invs !! j = Some inv_j →
    inv_child inv_i = Fut2 ∨ inv_state inv_i = FUTURE_COMPLETED →
    inv_child inv_j = Fut2.
Proof.
  induction n as [|n IH];
    intros w s sts w' invs HP Hs Hfa Hfb Hrep i j inv_i inv_j Hlt Hi Hj Hpast.
  - apply M_ret_inv in Hrep as (_ & _ & ->). done.
  - destruct (ThenFuture.fut1_completed s) eqn:Hflag.
    { by eapply (then_repeat_completed (S n) w s). }
    apply repeat_progress_S_inv in Hrep
      as (st & w1 & l1 & sts' & l2 & Hstep & Hrep & -> & ->).
    destruct (then_progress_inv call base waker f1 f2 P call_keeps P_base P_arg
                _ _ _ _ _ HP Hs Hfa Hfb Hstep)
      as (HP1 & s1 & Hs1 & Hga & Hgb & Hcase).
    rewrite Hflag in Hcase.
    destruct Hcase as (st1 & ev1 & [(Hne & Hfl1 & ->)|(-> & Hfl1 & st2 & ev2 & ->)]).
    + destruct i as [|i]; simpl in Hi.
      { injection Hi as <-. cbn in Hpast. by destruct Hpast. }
      destruct j as [|j]; [lia|]. simpl in Hj.
      eapply (IH _ _ _ _ _ HP1 Hs1 Hga Hgb Hrep i j); [lia|done..].
    + destruct j as [|[|j]]; [lia| |]; simpl in Hj.
      { by injection Hj as <-. }
      by eapply (then_repeat_completed n w1 s1).
Qed.
End ThenFramed.

(** X9. Over consecutive calls of [then_progress], under the frame
    condition of C4: once fut1 has returned FUTURE_COMPLETED, or fut2 has
    been progressed, every later progress call is on fut2; and a Then whose
    flag is set progresses fut2 only. So fut1 is never progressed again
    after it completed. *)
Theorem then_progress_leaves_completed_fut1 w s (P : World K → Prop) :
  then_at w base = Some s →
  P w →
  (∀ fut wa st wb evs, fut = ThenFuture.fut1 s ∨ fut = ThenFuture.fut2 s → P wa →
     call fut waker wa = Ok (st, wb, evs) → keeps base wa wb ∧ P wb) →
  (∀ wa f, P wa → P (upd_obj base f wa)) →
  (∀ wa v, P wa → P (upd_obj (ThenFuture.fut2 s) (on_base (Future.set_arg v)) wa)) →
  ∀ n sts w' invs,
    repeat_progress (then_progress call base waker) n w = Ok (sts, w', invs) →
    (ThenFuture.fut1_completed s = true →
       ∀ i inv, invs !! i = Some inv → inv_child inv = Fut2) ∧
    (∀ i j inv_i inv_j, (i < j)%nat →
       invs !! i = Some inv_i → invs !! j = Some inv_j →
       inv_child inv_i = Fut2 ∨ inv_state inv_i = FUTURE_COMPLETED →
       inv_child inv_j = Fut2).
Proof.
  intros Hs HP Hframe Hbase Harg n sts w' invs Hrep. split.
  - intros Hflag i inv Hi.
    by eapply (then_repeat_completed _ _ P Hframe Hbase Harg n w s).
  - intros i j inv_i inv_j Hlt Hi Hj Hpast.
    by eapply (then_repeat_never_back _ _ P Hframe Hbase Harg n w s).
Qed.

(** *** Select: a failure is reported one call late *)

Lemma select_progress_fut2_not_failure w st w' invs :
  select_progress_fut2 call base waker w = Ok (st, w', invs) → st ≠ FUTURE_FAILURE.
Proof.
  unfold select_progress_fut2. intros H. minv.
  destruct (_ || _); [|by minv]. minv.
  match goal with H : context [match ?st with _ => _ end] |- _ => destruct st end.
  - by minv.
  - by minv.
  - minv. match goal with H : context [if ?b then _ else _] |- _ => destruct b end;
      by minv.
Qed.

Lemma select_progress_fut1_not_failure w st w' invs :
  select_progress_fut1 call base waker w = Ok (st, w', invs) → st ≠ FUTURE_FAILURE.
Proof.
  unfold select_progress_fut1. intros H. minv.
  destruct (_ || _); [|by eapply select_progress_fut2_not_failure]. minv.
  match goal with H : context [match ?st with _ => _ end] |- _ => destruct st end.
  - by eapply select_progress_fut2_not_failure.
  - by minv.
  - minv. match goal with H : context [if ?b then _ else _] |- _ => destruct b end;
      minv; by eapply select_progress_fut2_not_failure.
Qed.

(** X10. [select_progress] returns FUTURE_FAILURE only when it is entered
    with the tag SELECT_FAILED_BOTH, and then progresses no child and copies
    the errcode of fut1: the call in which the second child fails returns
    FUTURE_PENDING, and the failure is reported by the next call. From
    then on every call returns FUTURE_FAILURE and leaves the world as it
    is. *)
Theorem select_progress_failure_is_late w w' invs :
  select_progress call base waker w = Ok (FUTURE_FAILURE, w', invs) →
  invs = [] ∧
  ∃ s b1,
    select_at w base = Some s ∧
    SelectFuture.which_completed s = SELECT_FAILED_BOTH ∧
    base_at w (SelectFuture.fut1 s) = Some b1 ∧
    w' = upd_obj base (on_base (Future.set_errcode (Future.errcode b1))) w ∧
    ∀ n, repeat_progress (select_progress call base waker) n w'
         = Ok (replicate n FUTURE_FAILURE, w', []).
Proof.
  intros H. pose proof H as H0. unfold select_progress in H. minv.
  match goal with
  | Hs : heap ?w !! base = Some (SelectObj ?s) |- _ =>
      rename Hs into Hsel; destruct (SelectFuture.which_completed s) eqn:Htag
  end; minv;
    try (by exfalso; eapply select_progress_fut1_not_failure).
  match goal with
  | Ho : heap w !! SelectFuture.fut1 ?s = Some ?o |- _ => rename Ho into Hfut; rename o into o1
  end.
  split; [done|].
  match goal with
  | Hsel : heap w !! base = Some (SelectObj ?s) |- _ => exists s, (obj_base o1)
  end.
  split; [by apply select_at_heap|]. split; [done|].
  split; [by unfold base_at; rewrite Hfut|]. split; [done|].
  set (g := Future.set_errcode (Future.errcode (obj_base o1))).
  set (w1 := upd_obj base (on_base g) w).
  (* in [w1] the tag is the same and fut1 holds the same errcode *)
  match goal with
  | Hsel : heap w !! base = Some (SelectObj ?s) |- _ =>
      assert (Hs1 : select_at w1 base = Some (SelectFuture.set_base (g (SelectFuture.base s)) s))
        by (unfold select_at, w1; by rewrite heap_upd_obj, lookup_alter_eq, Hsel);
      assert (Hb1 : ∃ b, base_at w1 (SelectFuture.fut1 s) = Some b ∧
                         Future.errcode b = Future.errcode (obj_base o1))
  end.
  { unfold base_at, w1. rewrite heap_upd_obj, lookup_alter. case_decide as Heq.
    - rewrite <- Heq in Hfut. rewrite Hsel in Hfut. injection Hfut as <-.
      rewrite Hsel. cbn. eauto.
    - rewrite Hfut. cbn. eauto. }
  destruct Hb1 as (b & Hb & Herr).
  assert (Hstep : select_progress call base waker w1 = Ok (FUTURE_FAILURE, w1, [])).
  { pose proof (select_progress_terminal call base waker w1 _ _ b Hs1 Hb) as Hrun.
    cbn [SelectFuture.which_completed SelectFuture.set_base SelectFuture.fut1] in Hrun.
    rewrite Htag in Hrun. rewrite (Hrun eq_refl), Herr.
    fold g. unfold w1. by rewrite (upd_base_twice w g). }
  intros n. induction n as [|n IH]; [done|].
  cbn [repeat_progress replicate].
  rewrite (M_bind_ok _ _ _ _ _ _ Hstep), (M_bind_ok _ _ _ _ _ _ IH). done.
Qed.
End CombinatorsMore.

(** ** A run with one future *)

Section OneFuture.
Context {K : Type} {kernel_ops : Kernel K} {codes : ErrCodes}.
Variable leaf_code : Z → LeafProg.
Implicit Types (w : World K) (fut : addr).

Lemma pop_que_head w fut l :
  que_repr (Executor.que (executor w)) (fut :: l) →
  ∃ w1, pop_que w = Ok (fut, w1, []) ∧
    heap w1 = heap w ∧ kernel w1 = kernel w ∧
    Executor.mio (executor w1) = Executor.mio (executor w) ∧
    que_repr (Executor.que (executor w1)) l.
Proof.
  intros Hl. destruct (pop_cons _ fut l Hl) as (q & Hq & Hrq & _).
  unfold pop_que, get_que, put_que. munfold. cbn. rewrite Hq. cbn.
  eexists. split; [reflexivity|]. done.
Qed.

Lemma executor_run_idle w n :
  isEmpty (Executor.que (executor w)) = true →
  executor_run leaf_code (S n) w = Ok (tt, w, []).
Proof.
  intros He. cbn [executor_run]. unfold get_que. munfold. cbn. by rewrite He.
Qed.

Lemma drain_idle w n :
  isEmpty (Executor.que (executor w)) = true →
  drain leaf_code (S n) w = Ok (tt, w, []).
Proof.
  intros He. cbn [drain]. unfold get_que. munfold. cbn. by rewrite He.
Qed.

Lemma drain_S n :
  drain leaf_code (S n) =
    (que ← get_que;
     if isEmpty que then mret tt
     else
       fut ← pop_que;
       emit (EvProgress fut);;
       state ← progress leaf_code n fut (Waker.mk fut);
       (if bool_decide (state = FUTURE_COMPLETED) || bool_decide (state = FUTURE_FAILURE)
        then modify_base fut (Future.set_is_active false)
        else mret tt);;
       drain leaf_code n).
Proof. reflexivity. Qed.

Lemma executor_run_S n :
  executor_run leaf_code (S n) =
    (que ← get_que;
     if isEmpty que then mret tt
     else drain leaf_code n;; mio_poll;; executor_run leaf_code n).
Proof. reflexivity. Qed.

(** X11. [executor_run] on a queue that holds one future pops it and
    progresses it once. If that call leaves the queue empty and no
    descriptor registered, [executor_run] then returns, whatever the call
    returned: [is_active] of the future is cleared if it completed or
    failed, and a future that is still pending is left behind, marked
    active. *)
Theorem executor_run_one_future w fut (n : nat) :
  que_repr (Executor.que (executor w)) [fut] →
  ∃ w1, pop_que w = Ok (fut, w1, []) ∧
    heap w1 = heap w ∧ kernel w1 = kernel w ∧
    Executor.mio (executor w1) = Executor.mio (executor w) ∧
    que_repr (Executor.que (executor w1)) [] ∧
    ∀ st w2 evs,
      progress leaf_code (S n) fut (Waker.mk fut) w1 = Ok (st, w2, evs) →
      isEmpty (Executor.que (executor w2)) = true →
      count w2 = 0 →
      executor_run leaf_code (S (S (S n))) w =
        Ok (tt,
            (if bool_decide (st = FUTURE_PENDING) then w2
             else upd_obj fut (on_base (Future.set_is_active false)) w2),
            EvProgress fut :: evs).
Proof.
  intros Hl.
  destruct (pop_que_head w fut [] Hl) as (w1 & Hpop & Hh & Hk & Hmio & Hq1).
  exists w1. do 5 (split; [done|]).
  intros st w2 evs Hprog Hempty Hcount.
  assert (Hne : isEmpty (Executor.que (executor w)) = false).
  { destruct Hl as (Hsz & _). unfold isEmpty. rewrite Hsz. done. }
  (* the future is still in the memory after its progress call *)
  assert (Hlive : is_Some (heap w2 !! fut)).
  { pose proof (stable_progress leaf_code (S n) fut (Waker.mk fut) _ _ _ _ Hprog fut) as Hlay.
    cbn [progress] in Hprog.
    apply M_bind_inv in Hprog as (b & w' & l1 & l2 & Hload & _ & _).
    apply load_base_inv in Hload as (o & Ho & _).
    rewrite Ho in Hlay. destruct (heap w2 !! fut); [by eexists|done]. }
  set (w3 := if bool_decide (st = FUTURE_PENDING) then w2
             else upd_obj fut (on_base (Future.set_is_active false)) w2).
  assert (Hact : (if bool_decide (st = FUTURE_COMPLETED) || bool_decide (st = FUTURE_FAILURE)
                  then modify_base fut (Future.set_is_active false)
                  else mret tt : M K Event unit) w2 = Ok (tt, w3, [])).
  { unfold w3. destruct Hlive as [o Ho]. destruct st.
    - done.
    - change (bool_decide (FUTURE_COMPLETED = FUTURE_COMPLETED)
              || bool_decide (FUTURE_COMPLETED = FUTURE_FAILURE)) with true.
      change (bool_decide (FUTURE_COMPLETED = FUTURE_PENDING)) with false.
      cbv beta iota. unfold modify_base. munfold. by rewrite Ho.
    - change (bool_decide (FUTURE_FAILURE = FUTURE_COMPLETED)
              || bool_decide (FUTURE_FAILURE = FUTURE_FAILURE)) with true.
      change (bool_decide (FUTURE_FAILURE = FUTURE_PENDING)) with false.
      cbv beta iota. unfold modify_base. munfold. by rewrite Ho. }
  assert (Hempty3 : isEmpty (Executor.que (executor w3)) = true).
  { unfold w3. by destruct (bool_decide _). }
  assert (Hcount3 : count w3 = 0).
  { unfold w3. by destruct (bool_decide _). }
  assert (Hdrain : drain leaf_code (S (S n)) w = Ok (tt, w3, EvProgress fut :: evs)).
  { rewrite drain_S.
    rewrite (M_bind_ok (L := Event) get_que _ w (Executor.que (executor w)) w []) by done.
    rewrite Hne.
    rewrite (M_bind_ok _ _ _ _ _ _ Hpop).
    rewrite (M_bind_ok (emit (EvProgress fut)) _ w1 tt w1 [EvProgress fut]) by done.
    rewrite (M_bind_ok _ _ _ _ _ _ Hprog).
    rewrite (M_bind_ok _ _ _ _ _ _ Hact).
    rewrite (drain_idle w3 n Hempty3). cbn. by rewrite !app_nil_r. }
  rewrite executor_run_S.
  rewrite (M_bind_ok (L := Event) get_que _ w (Executor.que (executor w)) w []) by done.
  rewrite Hne.
  rewrite (M_bind_ok _ _ _ _ _ _ Hdrain).
  rewrite (M_bind_ok _ _ _ _ _ _ (mio_poll_idle w3 Hcount3)).
  rewrite (executor_run_idle w3 (S n) Hempty3). cbn. by rewrite !app_nil_r.
Qed.
End OneFuture.

(** ** Further runs of the model *)

Section MoreExamples.
Import Demo.

Lemma after_spawn_que_repr (fut : addr) :
  (∃ w', executor_spawn fut (world 4) = Ok (tt, w', [EvSpawn fut true])) →
  que_repr (Executor.que (executor (after (executor_spawn fut) (world 4)))) [fut].
Proof.
  intros [w' Hs]. unfold after. rewrite Hs.
  destruct (executor_spawn_que fut (world 4) tt _ _ [] Hs (world_que_repr 4 INT_MAX_pos))
    as (l' & Hl' & [->|[-> Hfull]] & _); [exact Hl'|discriminate Hfull].
Qed.

Lemma executor_spawn_marks_and_enqueues_witness :
  que_repr (Executor.que (executor (world 4))) [] ∧
  ∃ w', executor_spawn 10 (world 4) = Ok (tt, w', [EvSpawn 10 true]) ∧
        Future.is_active <$> base_at w' 10 = Some true ∧
        que_repr (Executor.que (executor w')) [10].
Proof.
  pose proof (world_que_repr 4 INT_MAX_pos) as Hl.
  split; [exact Hl|].
  destruct (executor_spawn_marks_and_enqueues (world 4) 10 [] Hl) as [_ Hsome].
  destruct (Hsome ltac:(eexists; vm_compute; reflexivity))
    as (w' & Hrun & Hh & Hq & _).
  exists w'. split; [exact Hrun|]. split; [|exact Hq].
  unfold base_at. rewrite Hh. vm_compute. reflexivity.
Defined.

Lemma mio_poll_wakes_in_order_witness :
  let w := after (mio_register (L := Event) 9 1 (Waker.mk 10);;
                  mio_register 8 1 (Waker.mk 20)) (world 4) in
  que_repr (Executor.que (executor w)) [] ∧
  count w ≠ 0 ∧
  epoll_wait (Mio.epoll_fd (Executor.mio (executor w))) MAX_EVENTS (kernel w)
    = (WaitEvents [10; 20], kernel w) ∧
  ∃ w' evs, mio_poll w = Ok (tt, w', evs) ∧
    que_repr (Executor.que (executor w')) [10; 20] ∧
    count w' = 2.
Proof.
  intros w.
  assert (Hl : que_repr (Executor.que (executor w)) []).
  { change (Executor.que (executor w)) with (futque_create 4).
    apply que_repr_create. exact INT_MAX_pos. }
  assert (Hc : count w ≠ 0) by (vm_compute; discriminate).
  assert (Hw : epoll_wait (Mio.epoll_fd (Executor.mio (executor w))) MAX_EVENTS (kernel w)
               = (WaitEvents [10; 20], kernel w)) by (vm_compute; reflexivity).
  split; [exact Hl|]. split; [exact Hc|]. split; [exact Hw|].
  destruct (mio_poll_wakes_in_order w [] [10; 20] (kernel w) Hl Hc Hw) as [Hlive _].
  destruct Hlive as (w' & evs & Hrun & _ & Hq & Hcount & _).
  { intros p Hp. apply elem_of_cons in Hp as [->|Hp]; [eexists; vm_compute; reflexivity|].
    apply list_elem_of_singleton in Hp as ->. eexists; vm_compute; reflexivity. }
  exists w', evs. split; [exact Hrun|]. split; [exact Hq|]. rewrite Hcount.
  vm_compute. reflexivity.
Defined.

Lemma executor_run_leaves_queue_empty_witness :
  ∃ w', executor_run leaf_code 20 (after (executor_spawn 13) (world 4)) =
          Ok (tt, w', [EvProgress 13; EvSpawn 13 true; EvProgress 13]) ∧
        FutQue.size (Executor.que (executor w')) = 0 ∧
        FutQue.max_size (Executor.que (executor w')) = 4.
Proof.
  assert (Hrun : ∃ w', executor_run leaf_code 20 (after (executor_spawn 13) (world 4)) =
            Ok (tt, w', [EvProgress 13; EvSpawn 13 true; EvProgress 13])).
  { eexists. vm_compute. reflexivity. }
  destruct Hrun as [w' Hrun]. exists w'. split; [exact Hrun|].
  destruct (executor_run_leaves_queue_empty leaf_code _ _ _ _ Hrun) as (_ & Hsz & Hmax & _).
  split; [exact Hsz|]. rewrite Hmax. reflexivity.
Defined.

Lemma executor_run_progresses_in_fifo_order_witness :
  que_repr (Executor.que (executor (world 4))) [] ∧
  ∃ w' evs, (spawn_all [13; 10];; executor_run leaf_code 20) (world 4) = Ok (tt, w', evs) ∧
    enqueued evs = [13; 10; 13] ∧
    progressed evs = [13; 10; 13].
Proof.
  pose proof (world_que_repr 4 INT_MAX_pos) as Hl.
  split; [exact Hl|].
  assert (Hrun : ∃ w' evs,
            (spawn_all [13; 10];; executor_run leaf_code 20) (world 4) = Ok (tt, w', evs) ∧
            enqueued evs = [13; 10; 13]).
  { eexists _, _. split; vm_compute; reflexivity. }
  destruct Hrun as (w' & evs & Hrun & Henq). exists w', evs.
  split; [exact Hrun|]. split; [exact Henq|].
  rewrite (executor_run_progresses_in_fifo_order leaf_code _ _ _ _ [] _ Hl Hrun).
  exact Henq.
Defined.

Lemma mio_register_unregister_round_trip_witness :
  INT_MIN ≤ count (world 4) < INT_MAX ∧
  epoll_ctl_add (Mio.epoll_fd (Executor.mio (executor (world 4)))) 9 1 13 (kernel (world 4))
    = (0, [(9, 13)]) ∧
  epoll_ctl_del (Mio.epoll_fd (Executor.mio (executor (world 4)))) 9 [(9, 13)] = (0, []) ∧
  (mio_register (L := Event) 9 1 (Waker.mk 13);; mio_unregister 9) (world 4)
    = Ok (0, world 4, []).
Proof.
  assert (Hrange : INT_MIN ≤ count (world 4) < INT_MAX).
  { vm_compute. split; [discriminate|reflexivity]. }
  assert (Hadd : epoll_ctl_add (Mio.epoll_fd (Executor.mio (executor (world 4)))) 9 1 13
                   (kernel (world 4)) = (0, [(9, 13)])) by (vm_compute; reflexivity).
  assert (Hdel : epoll_ctl_del (Mio.epoll_fd (Executor.mio (executor (world 4)))) 9
                   [(9, 13)] = (0, [])) by (vm_compute; reflexivity).
  split; [exact Hrange|]. split; [exact Hadd|]. split; [exact Hdel|].
  exact (mio_register_unregister_round_trip (world 4) 9 1 (Waker.mk 13) 0 _ 0 _
           Hrange Hadd ltac:(discriminate) Hdel ltac:(discriminate)).
Defined.


Lemma executor_run_keeps_layout_witness :
  ∃ w', executor_run leaf_code 20 (after (executor_spawn 30) (world 4)) =
          Ok (tt, w', [EvProgress 30]) ∧
        ∃ s', then_at w' 30 = Some s' ∧
              ThenFuture.fut1 s' = 10 ∧ ThenFuture.fut2 s' = 20 ∧
              ThenFuture.fut1_completed s' = true.
Proof.
  assert (Hrun : ∃ w', executor_run leaf_code 20 (after (executor_spawn 30) (world 4)) =
            Ok (tt, w', [EvProgress 30]) ∧
            ThenFuture.fut1_completed <$> then_at w' 30 = Some true).
  { eexists. split; vm_compute; reflexivity. }
  destruct Hrun as (w' & Hrun & Hflag). exists w'. split; [exact Hrun|].
  destruct (executor_run_keeps_layout leaf_code _ _ _ _ Hrun) as (_ & _ & _ & Hthen & _).
  assert (Hs : ∃ s, then_at (after (executor_spawn 30) (world 4)) 30 = Some s ∧
            ThenFuture.fut1 s = 10 ∧ ThenFuture.fut2 s = 20).
  { eexists. split; [vm_compute; reflexivity|]. split; reflexivity. }
  destruct Hs as (s & Hs & Hf1 & Hf2).
  destruct (Hthen 30 s Hs) as (s' & Hs' & H1 & H2).
  rewrite Hf1 in H1. rewrite Hf2 in H2.
  exists s'. split; [exact Hs'|]. split; [exact H1|]. split; [exact H2|].
  rewrite Hs' in Hflag. by injection Hflag.
Defined.

Lemma join_progress_terminal_idempotent_witness :
  let w1 := after (join_progress call 31 (Waker.mk 31)) (world 4) in
  ∃ s, join_at w1 31 = Some s ∧
    JoinFuture.fut1_completed s = FUTURE_COMPLETED ∧
    JoinFuture.fut2_completed s = FUTURE_COMPLETED ∧
    ∃ w2, join_progress call 31 (Waker.mk 31) w1 = Ok (FUTURE_COMPLETED, w2, []) ∧
          repeat_progress (join_progress call 31 (Waker.mk 31)) 2 w2 =
            Ok ([FUTURE_COMPLETED; FUTURE_COMPLETED], w2, []).
Proof.
  intros w1.
  assert (Hs : ∃ s, join_at w1 31 = Some s ∧
            JoinFuture.fut1_completed s = FUTURE_COMPLETED ∧
            JoinFuture.fut2_completed s = FUTURE_COMPLETED).
  { eexists. split; [vm_compute; reflexivity|]. split; reflexivity. }
  destruct Hs as (s & Hs & H1 & H2). exists s.
  split; [exact Hs|]. split; [exact H1|]. split; [exact H2|].
  destruct (join_progress_terminal_idempotent call 31 (Waker.mk 31) w1 s Hs)
    as (st & w2 & Hrun & _ & Hiff & Hrep).
  { rewrite H1. discriminate. }
  { rewrite H2. discriminate. }
  assert (Hst : st = FUTURE_COMPLETED) by (apply Hiff; split; assumption).
  rewrite Hst in Hrun, Hrep.
  exists w2. split; [exact Hrun|]. exact (Hrep 2%nat).
Defined.

Lemma then_progress_leaves_completed_fut1_witness :
  then_at (world 4) 30 = Some (future_then 10 20) ∧
  leaves_in_place (world 4) ∧
  ∃ sts w',
    repeat_progress (then_progress call 30 (Waker.mk 30)) 2 (world 4) =
      Ok (sts, w',
          [mkInvocation Fut1 10 FUTURE_COMPLETED [];
           mkInvocation Fut2 20 FUTURE_COMPLETED [];
           mkInvocation Fut2 20 FUTURE_COMPLETED []]) ∧
    inv_child (mkInvocation Fut2 20 FUTURE_COMPLETED []) = Fut2.
Proof.
  assert (Hs : then_at (world 4) 30 = Some (future_then 10 20)) by reflexivity.
  assert (HP : leaves_in_place (world 4)) by (split; reflexivity).
  split; [exact Hs|]. split; [exact HP|].
  assert (Hrep : ∃ sts w',
            repeat_progress (then_progress call 30 (Waker.mk 30)) 2 (world 4) =
              Ok (sts, w',
                  [mkInvocation Fut1 10 FUTURE_COMPLETED [];
                   mkInvocation Fut2 20 FUTURE_COMPLETED [];
                   mkInvocation Fut2 20 FUTURE_COMPLETED []])).
  { eexists _, _. vm_compute. reflexivity. }
  destruct Hrep as (sts & w' & Hrep). exists sts, w'. split; [exact Hrep|].
  destruct (then_progress_leaves_completed_fut1 call 30 (Waker.mk 30) (world 4) _
              leaves_in_place Hs HP leaves_keep leaves_in_place_base leaves_in_place_arg
              2%nat sts w' _ Hrep) as [_ Hlater].
  exact (Hlater 0%nat 2%nat _ _ ltac:(lia) eq_refl eq_refl (or_intror eq_refl)).
Defined.

Lemma select_progress_failure_is_late_witness :
  let w1 := after (select_progress call 34 (Waker.mk 34)) world_failing in
  select_progress call 34 (Waker.mk 34) world_failing =
    Ok (FUTURE_PENDING, w1,
        [mkInvocation Fut1 11 FUTURE_FAILURE []; mkInvocation Fut2 11 FUTURE_FAILURE []]) ∧
  ∃ w2, select_progress call 34 (Waker.mk 34) w1 = Ok (FUTURE_FAILURE, w2, []) ∧
        Future.errcode <$> base_at w2 34 = Some 11 ∧
        repeat_progress (select_progress call 34 (Waker.mk 34)) 2 w2 =
          Ok ([FUTURE_FAILURE; FUTURE_FAILURE], w2, []).
Proof.
  intros w1. split; [vm_compute; reflexivity|].
  assert (Hrun : ∃ w2, select_progress call 34 (Waker.mk 34) w1 = Ok (FUTURE_FAILURE, w2, []) ∧
            Future.errcode <$> base_at w2 34 = Some 11).
  { eexists. split; vm_compute; reflexivity. }
  destruct Hrun as (w2 & Hrun & Herr). exists w2.
  split; [exact Hrun|]. split; [exact Herr|].
  destruct (select_progress_failure_is_late call 34 (Waker.mk 34) w1 w2 [] Hrun)
    as (_ & s & b1 & _ & _ & _ & _ & Hrep).
  exact (Hrep 2%nat).
Defined.

Lemma executor_run_one_future_witness :
  que_repr (Executor.que (executor (after (executor_spawn 12) (world 4)))) [12] ∧
  ∃ w2, executor_run leaf_code 3 (after (executor_spawn 12) (world 4)) =
          Ok (tt, w2, [EvProgress 12]) ∧
        Future.is_active <$> base_at w2 12 = Some true ∧
        FutQue.size (Executor.que (executor w2)) = 0.
Proof.
  assert (Hl : que_repr (Executor.que (executor (after (executor_spawn 12) (world 4)))) [12]).
  { apply after_spawn_que_repr. eexists. vm_compute. reflexivity. }
  split; [exact Hl|].
  destruct (executor_run_one_future leaf_code _ 12 0%nat Hl)
    as (w1 & Hpop & _ & _ & _ & _ & Hrun).
  assert (Hw1 : ∃ w2, progress leaf_code 1 12 (Waker.mk 12) w1 = Ok (FUTURE_PENDING, w2, []) ∧
            isEmpty (Executor.que (executor w2)) = true ∧ count w2 = 0 ∧
            Future.is_active <$> base_at w2 12 = Some true ∧
            FutQue.size (Executor.que (executor w2)) = 0).
  { assert (Hpop' : ∃ w1', pop_que (after (executor_spawn 12) (world 4)) = Ok (12, w1', []) ∧
              ∃ w2, progress leaf_code 1 12 (Waker.mk 12) w1' = Ok (FUTURE_PENDING, w2, []) ∧
              isEmpty (Executor.que (executor w2)) = true ∧ count w2 = 0 ∧
              Future.is_active <$> base_at w2 12 = Some true ∧
              FutQue.size (Executor.que (executor w2)) = 0).
    { eexists. split; [vm_compute; reflexivity|].
      eexists. split; [vm_compute; reflexivity|].
      split; [vm_compute; reflexivity|]. split; [vm_compute; reflexivity|].
      split; vm_compute; reflexivity. }
    destruct Hpop' as (w1' & Hpop' & Hrest).
    rewrite Hpop in Hpop'. injection Hpop' as <-. exact Hrest. }
  destruct Hw1 as (w2 & Hprog & Hempty & Hcount & Hact & Hsz).
  exists w2. split; [|split; [exact Hact|exact Hsz]].
  exact (Hrun FUTURE_PENDING w2 [] Hprog Hempty Hcount).
Defined.
End MoreExamples.
